(** * QTree: a quadtree over a raster image (CPSC 221 PA3, [qtree.cpp])

    A shallow embedding of [qtree.cpp] and the properties its specification
    states about it.

    - [unsigned int] values are integers in [Z] reduced modulo [2^32] after
      every arithmetic operation ([u32]); colour channels are [unsigned char],
      reduced modulo [256] when stored ([u8]).
    - A [Node*] that is exclusively owned by its parent is an inductive tree
      whose [nullptr] constructor is the null pointer.  The second part of the
      file models the same nodes in an explicit store, where copies and
      aliasing can be told apart.
    - The recursion of [BuildNode] is on the rectangle, not on a data
      structure, so it carries a fuel argument; the theorems say how much fuel
      is enough. *)

From Stdlib Require Import ZArith Lia List Bool.
From stdpp Require Import base option numbers list gmap.

Local Open Scope Z_scope.

(** ** Machine arithmetic *)

Definition u32 (z : Z) : Z := z mod 2 ^ 32.
Definition u8 (z : Z) : Z := z mod 256.

Definition pair_eqb (p q : Z * Z) : bool :=
  (p.1 =? q.1) && (p.2 =? q.2).

(** ** Pixels and images

    [RGBAPixel.h] and [PNG.h] are not part of the sources.  The alpha channel
    is a [double]; it is kept abstract.  *)

Record RGBAPixel (Alpha : Type) : Type := mkRGBAPixel {
  r : Z;
  g : Z;
  b : Z;
  a : Alpha
}.
Arguments mkRGBAPixel {Alpha} _ _ _ _.
Arguments r {Alpha} _.
Arguments g {Alpha} _.
Arguments b {Alpha} _.
Arguments a {Alpha} _.

(** Modelled from the spec: the raster image collaborator, which exposes
    [width()], [height()] and [getPixel(x,y)], 0-indexed, on
    [[0,width) x [0,height)]. *)
Record PNG (Alpha : Type) : Type := mkPNG {
  png_width : Z;
  png_height : Z;
  getPixel : Z -> Z -> RGBAPixel Alpha
}.
Arguments mkPNG {Alpha} _ _ _.
Arguments png_width {Alpha} _.
Arguments png_height {Alpha} _.
Arguments getPixel {Alpha} _ _ _.

(** [*canvas.getPixel(x,y) = c] *)
Definition setPixel {Alpha} (canvas : PNG Alpha) (x y : Z) (c : RGBAPixel Alpha)
  : PNG Alpha :=
  mkPNG (png_width canvas) (png_height canvas)
        (fun x' y' => if (x' =? x) && (y' =? y) then c else getPixel canvas x' y').

(** Two pixel buffers are identical: same dimensions, same pixel at every
    coordinate of the buffer. *)
Definition PNG_eq {Alpha} (p q : PNG Alpha) : Prop :=
  png_width p = png_width q /\ png_height p = png_height q /\
  forall x y, 0 <= x < png_width p -> 0 <= y < png_height p ->
              getPixel p x y = getPixel q x y.

(** ** Nodes *)

Inductive Node (Alpha : Type) : Type :=
| nullptr
| mkNode (upLeft lowRight : Z * Z) (avg : RGBAPixel Alpha)
         (NW NE SW SE : Node Alpha).
Arguments nullptr {Alpha}.
Arguments mkNode {Alpha} _ _ _ _ _ _ _.

Record QTree (Alpha : Type) : Type := mkQTree {
  root : Node Alpha;
  width : Z;
  height : Z
}.
Arguments mkQTree {Alpha} _ _ _.
Arguments root {Alpha} _.
Arguments width {Alpha} _.
Arguments height {Alpha} _.

Section Model.

Context {Alpha : Type}.

(** The default-constructed pixel [RGBAPixel()]. *)
Variable defaultPixel : RGBAPixel Alpha.

(** [p.distanceTo(q) <= tolerance], with the metric and the comparison of
    [double]s kept abstract. *)
Context {Dist : Type}.
Variable distanceTo : RGBAPixel Alpha -> RGBAPixel Alpha -> Dist.
Variable leD : Dist -> Dist -> bool.

Local Abbreviation Pixel := (RGBAPixel Alpha).
Local Abbreviation Tree := (Node Alpha).

Definition IsLeaf (node : Tree) : bool :=
  match node with
  | mkNode _ _ _ nullptr nullptr nullptr nullptr => true
  | _ => false
  end.

(** *** Construction *)

Record Sums : Type := mkSums {
  sumRed : Z;
  sumGreen : Z;
  sumBlue : Z;
  pixelCount : Z
}.

(** The lambda [addColor] of [CalculateAverageColor]. *)
Definition addColor (s : Sums) (node : Tree) : Sums :=
  match node with
  | nullptr => s
  | mkNode upLeft lowRight avg _ _ _ _ =>
      let nodePixelCount :=
        u32 (u32 (u32 (lowRight.1 - upLeft.1) + 1) *
             u32 (u32 (lowRight.2 - upLeft.2) + 1)) in
      mkSums (u32 (sumRed s + u32 (r avg * nodePixelCount)))
             (u32 (sumGreen s + u32 (g avg * nodePixelCount)))
             (u32 (sumBlue s + u32 (b avg * nodePixelCount)))
             (u32 (pixelCount s + nodePixelCount))
  end.

Definition CalculateAverageColor (NW NE SW SE : Tree) : Pixel :=
  let s := addColor (addColor (addColor (addColor (mkSums 0 0 0 0) NW) NE) SW) SE in
  if 0 <? pixelCount s then
    mkRGBAPixel (u8 (sumRed s / pixelCount s))
                (u8 (sumGreen s / pixelCount s))
                (u8 (sumBlue s / pixelCount s))
                (a defaultPixel)
  else
    match NW with
    | mkNode _ _ avg _ _ _ _ => avg
    | nullptr => defaultPixel
    end.

Fixpoint BuildNode (fuel : nat) (img : PNG Alpha) (ul lr : Z * Z)
  : option Tree :=
  match fuel with
  | O => None
  | S fuel' =>
      if pair_eqb ul lr then
        Some (mkNode ul lr (getPixel img ul.1 ul.2)
                     nullptr nullptr nullptr nullptr)
      else
        let midX := u32 (ul.1 + lr.1) / 2 in
        let midY := u32 (ul.2 + lr.2) / 2 in
        NW ← (if (ul.1 <=? midX) && (ul.2 <=? midY)
              then BuildNode fuel' img ul (midX, midY)
              else Some nullptr);
        NE ← (if (u32 (midX + 1) <=? lr.1) && (ul.2 <=? midY)
              then BuildNode fuel' img (u32 (midX + 1), ul.2) (lr.1, midY)
              else Some nullptr);
        SW ← (if (ul.1 <=? midX) && (u32 (midY + 1) <=? lr.2)
              then BuildNode fuel' img (ul.1, u32 (midY + 1)) (midX, lr.2)
              else Some nullptr);
        SE ← (if (u32 (midX + 1) <=? lr.1) && (u32 (midY + 1) <=? lr.2)
              then BuildNode fuel' img (u32 (midX + 1), u32 (midY + 1)) lr
              else Some nullptr);
        Some (mkNode ul lr (CalculateAverageColor NW NE SW SE) NW NE SW SE)
  end.

(** [QTree::QTree(const PNG& imIn)] *)
Definition QTree_of_PNG (fuel : nat) (imIn : PNG Alpha) : option (QTree Alpha) :=
  let width := png_width imIn in
  let height := png_height imIn in
  rt ← BuildNode fuel imIn (0, 0) (u32 (width - 1), u32 (height - 1));
  Some (mkQTree rt width height).

(** *** Rendering *)

(** The two nested [for] loops of [RenderNode], over the columns [xs] and the
    rows [ys]. *)
Definition fillRows (x : Z) (ys : list Z) (c : Pixel) (canvas : PNG Alpha)
  : PNG Alpha :=
  fold_left (fun cv y =>
               if (x <? png_width cv) && (y <? png_height cv)
               then setPixel cv x y c else cv) ys canvas.

Definition fillRect (xs ys : list Z) (c : Pixel) (canvas : PNG Alpha)
  : PNG Alpha :=
  fold_left (fun cv x => fillRows x ys c cv) xs canvas.

(** The values [lo, lo+1, ..., hi-1] a loop [for (v = lo; v < hi; v++)] runs
    through. *)
Definition loopRange (lo hi : Z) : list Z := seqZ lo (hi - lo).

Fixpoint RenderNode (node : Tree) (scale : Z) (canvas : PNG Alpha) : PNG Alpha :=
  match node with
  | nullptr => canvas
  | mkNode upLeft lowRight avg NW NE SW SE =>
      if IsLeaf node then
        fillRect (loopRange (u32 (upLeft.1 * scale))
                            (u32 (u32 (lowRight.1 + 1) * scale)))
                 (loopRange (u32 (upLeft.2 * scale))
                            (u32 (u32 (lowRight.2 + 1) * scale)))
                 avg canvas
      else
        RenderNode SE scale
          (RenderNode SW scale
             (RenderNode NE scale
                (RenderNode NW scale canvas)))
  end.

(** Modelled from the spec: the constructor [PNG(w, h)] of the image
    collaborator gives a buffer of default-constructed pixels. *)
Definition blankPNG (w h : Z) : PNG Alpha := mkPNG w h (fun _ _ => defaultPixel).

Definition Render (t : QTree Alpha) (scale : Z) : PNG Alpha :=
  RenderNode (root t) scale
             (blankPNG (u32 (width t * scale)) (u32 (height t * scale))).

(** *** Pruning *)

Fixpoint CanPrune (node : Tree) (avgColor : Pixel) (tolerance : Dist) : bool :=
  match node with
  | nullptr => true
  | mkNode _ _ avg NW NE SW SE =>
      if IsLeaf node then leD (distanceTo avg avgColor) tolerance
      else CanPrune NW avgColor tolerance && CanPrune NE avgColor tolerance &&
           CanPrune SW avgColor tolerance && CanPrune SE avgColor tolerance
  end.

(** [ClearSubtree] frees a whole subtree and nulls the pointer to it. *)
Definition ClearSubtree (node : Tree) : Tree := nullptr.

Fixpoint PruneNode (node : Tree) (tolerance : Dist) : Tree :=
  match node with
  | nullptr => nullptr
  | mkNode upLeft lowRight avg NW NE SW SE =>
      if IsLeaf node then node
      else
        let NW' := PruneNode NW tolerance in
        let NE' := PruneNode NE tolerance in
        let SW' := PruneNode SW tolerance in
        let SE' := PruneNode SE tolerance in
        let node' := mkNode upLeft lowRight avg NW' NE' SW' SE' in
        if CanPrune node' avg tolerance then
          mkNode upLeft lowRight avg (ClearSubtree NW') (ClearSubtree NE')
                 (ClearSubtree SW') (ClearSubtree SE')
        else node'
  end.

Definition Prune (t : QTree Alpha) (tolerance : Dist) : QTree Alpha :=
  mkQTree (PruneNode (root t) tolerance) (width t) (height t).

(** *** Horizontal flip *)

Definition UpdateCoordinatesAfterFlip (width : Z) (node : Tree) : Tree :=
  match node with
  | nullptr => nullptr
  | mkNode upLeft lowRight avg NW NE SW SE =>
      let totalWidth := u32 (width - 1) in
      let newLeftX := u32 (totalWidth - lowRight.1) in
      let newRightX := u32 (totalWidth - upLeft.1) in
      mkNode (newLeftX, upLeft.2) (newRightX, lowRight.2) avg NW NE SW SE
  end.

(** [FlipNodeHorizontal] swaps the children, updates the coordinates of each
    child and then recurses into it.  The update touches the rectangle of the
    child only and the recursive call reads and writes nothing of the node it
    is called on but its child pointers, so the two steps are written here in
    the order the guard condition accepts; [FlipNodeHorizontal_unfold] below
    gives the equation in the order of the source. *)
Fixpoint FlipNodeHorizontal (width : Z) (node : Tree) : Tree :=
  match node with
  | nullptr => nullptr
  | mkNode upLeft lowRight avg NW NE SW SE =>
      mkNode upLeft lowRight avg
             (UpdateCoordinatesAfterFlip width (FlipNodeHorizontal width NE))
             (UpdateCoordinatesAfterFlip width (FlipNodeHorizontal width NW))
             (UpdateCoordinatesAfterFlip width (FlipNodeHorizontal width SE))
             (UpdateCoordinatesAfterFlip width (FlipNodeHorizontal width SW))
  end.

Definition FlipHorizontal (t : QTree Alpha) : QTree Alpha :=
  mkQTree (FlipNodeHorizontal (width t) (root t)) (width t) (height t).

(** *** Rotation *)

Fixpoint RotateNodeCCW (node : Tree) (ul lr : Z * Z) : Tree :=
  match node with
  | nullptr => nullptr
  | mkNode _ _ avg NW NE SW SE =>
      (* the pointers after the rotation: NW <- SW <- SE <- NE <- NW *)
      let NW1 := SW in
      let SW1 := SE in
      let SE1 := NE in
      let NE1 := NW in
      let midX := u32 (ul.1 + lr.1) / 2 in
      let midY := u32 (ul.2 + lr.2) / 2 in
      mkNode (ul.2, u32 (lr.1 - u32 (lr.1 - ul.1)))
             (lr.2, u32 (lr.1 - ul.1))
             avg
             (RotateNodeCCW NW1 (ul.2, u32 (lr.1 - midX)) (midY, lr.1))
             (RotateNodeCCW NE1 (ul.2, ul.1) (midY, u32 (lr.1 - midX)))
             (RotateNodeCCW SW1 (u32 (midY + 1), u32 (lr.1 - midX)) (lr.2, lr.1))
             (RotateNodeCCW SE1 (u32 (midY + 1), ul.1) (lr.2, u32 (lr.1 - midX)))
  end.

Definition RotateCCW (t : QTree Alpha) : QTree Alpha :=
  let width' := height t in
  let height' := width t in
  mkQTree (RotateNodeCCW (root t) (0, 0) (u32 (width' - 1), u32 (height' - 1)))
          width' height'.

End Model.

(** ** Nodes in a store

    The same operations on nodes that live at addresses of a store, for the
    questions that depend on which nodes two trees share.  A pointer is an
    optional address, [None] is the null pointer; an operation is [None] when
    it runs out of fuel or dereferences an address that is not allocated. *)

Record Cell (Alpha : Type) : Type := mkCell {
  upLeft : Z * Z;
  lowRight : Z * Z;
  avg : RGBAPixel Alpha;
  NW : option positive;
  NE : option positive;
  SW : option positive;
  SE : option positive
}.
Arguments mkCell {Alpha} _ _ _ _ _ _ _.
Arguments upLeft {Alpha} _.
Arguments lowRight {Alpha} _.
Arguments avg {Alpha} _.
Arguments NW {Alpha} _.
Arguments NE {Alpha} _.
Arguments SW {Alpha} _.
Arguments SE {Alpha} _.

(** The members [root], [width] and [height] of a [QTree] object. *)
Record QTreeObj : Type := mkQTreeObj {
  rootH : option positive;
  widthH : Z;
  heightH : Z
}.

(** The nodes that are allocated and the [QTree] objects that exist, each at
    its address. *)
Record World (Alpha : Type) : Type := mkWorld {
  nodes : gmap positive (Cell Alpha);
  trees : gmap positive QTreeObj
}.
Arguments mkWorld {Alpha} _ _.
Arguments nodes {Alpha} _.
Arguments trees {Alpha} _.

Section Store.

Context {Alpha : Type}.
Variable defaultPixel : RGBAPixel Alpha.
Context {Dist : Type}.
Variable distanceTo : RGBAPixel Alpha -> RGBAPixel Alpha -> Dist.
Variable leD : Dist -> Dist -> bool.

Local Abbreviation Store := (gmap positive (Cell Alpha)).
Local Abbreviation ptr := (option positive).

(** Assignments [l->NW = v], ... to the fields of an allocated node. *)
Definition store_NW (l : positive) (v : ptr) (h : Store) : Store :=
  alter (fun c => mkCell (upLeft c) (lowRight c) (avg c) v (NE c) (SW c) (SE c)) l h.
Definition store_NE (l : positive) (v : ptr) (h : Store) : Store :=
  alter (fun c => mkCell (upLeft c) (lowRight c) (avg c) (NW c) v (SW c) (SE c)) l h.
Definition store_SW (l : positive) (v : ptr) (h : Store) : Store :=
  alter (fun c => mkCell (upLeft c) (lowRight c) (avg c) (NW c) (NE c) v (SE c)) l h.
Definition store_SE (l : positive) (v : ptr) (h : Store) : Store :=
  alter (fun c => mkCell (upLeft c) (lowRight c) (avg c) (NW c) (NE c) (SW c) v) l h.

Definition leafCell (c : Cell Alpha) : bool :=
  match NW c, NE c, SW c, SE c with
  | None, None, None, None => true
  | _, _, _, _ => false
  end.

Fixpoint RenderNodeH (fuel : nat) (h : Store) (node : ptr) (scale : Z)
         (canvas : PNG Alpha) : option (PNG Alpha) :=
  match fuel with
  | O => None
  | S fuel' =>
      match node with
      | None => Some canvas
      | Some l =>
          c ← h !! l;
          if leafCell c then
            Some (fillRect (loopRange (u32 ((upLeft c).1 * scale))
                                      (u32 (u32 ((lowRight c).1 + 1) * scale)))
                           (loopRange (u32 ((upLeft c).2 * scale))
                                      (u32 (u32 ((lowRight c).2 + 1) * scale)))
                           (avg c) canvas)
          else
            cv1 ← RenderNodeH fuel' h (NW c) scale canvas;
            cv2 ← RenderNodeH fuel' h (NE c) scale cv1;
            cv3 ← RenderNodeH fuel' h (SW c) scale cv2;
            RenderNodeH fuel' h (SE c) scale cv3
      end
  end.

Fixpoint CanPruneH (fuel : nat) (h : Store) (node : ptr)
         (avgColor : RGBAPixel Alpha) (tolerance : Dist) : option bool :=
  match fuel with
  | O => None
  | S fuel' =>
      match node with
      | None => Some true
      | Some l =>
          c ← h !! l;
          if leafCell c then Some (leD (distanceTo (avg c) avgColor) tolerance)
          else
            (* [&&] evaluates its right operand only when the left one holds *)
            p1 ← CanPruneH fuel' h (NW c) avgColor tolerance;
            if negb (p1 : bool) then Some false else
            p2 ← CanPruneH fuel' h (NE c) avgColor tolerance;
            if negb (p2 : bool) then Some false else
            p3 ← CanPruneH fuel' h (SW c) avgColor tolerance;
            if negb (p3 : bool) then Some false else
            CanPruneH fuel' h (SE c) avgColor tolerance
      end
  end.

(** [ClearSubtree(Node*& node)]: the nodes of the subtree are deleted; the
    final [node = nullptr] writes to the pointer the caller passed, which is
    the caller's assignment here. *)
Fixpoint ClearSubtreeH (fuel : nat) (h : Store) (node : ptr) : option Store :=
  match fuel with
  | O => None
  | S fuel' =>
      match node with
      | None => Some h
      | Some l =>
          c ← h !! l;
          h1 ← ClearSubtreeH fuel' h (NW c);
          let h1 := store_NW l None h1 in
          c1 ← h1 !! l;
          h2 ← ClearSubtreeH fuel' h1 (NE c1);
          let h2 := store_NE l None h2 in
          c2 ← h2 !! l;
          h3 ← ClearSubtreeH fuel' h2 (SW c2);
          let h3 := store_SW l None h3 in
          c3 ← h3 !! l;
          h4 ← ClearSubtreeH fuel' h3 (SE c3);
          let h4 := store_SE l None h4 in
          _ ← h4 !! l;
          Some (delete l h4)
      end
  end.

Fixpoint PruneNodeH (fuel : nat) (h : Store) (node : ptr) (tolerance : Dist)
  : option Store :=
  match fuel with
  | O => None
  | S fuel' =>
      match node with
      | None => Some h
      | Some l =>
          c ← h !! l;
          if leafCell c then Some h
          else
            h1 ← PruneNodeH fuel' h (NW c) tolerance;
            c1 ← h1 !! l;
            h2 ← PruneNodeH fuel' h1 (NE c1) tolerance;
            c2 ← h2 !! l;
            h3 ← PruneNodeH fuel' h2 (SW c2) tolerance;
            c3 ← h3 !! l;
            h4 ← PruneNodeH fuel' h3 (SE c3) tolerance;
            c4 ← h4 !! l;
            ok ← CanPruneH fuel' h4 node (avg c4) tolerance;
            if (ok : bool) then
              h5 ← ClearSubtreeH fuel' h4 (NW c4);
              let h5 := store_NW l None h5 in
              c5 ← h5 !! l;
              h6 ← ClearSubtreeH fuel' h5 (NE c5);
              let h6 := store_NE l None h6 in
              c6 ← h6 !! l;
              h7 ← ClearSubtreeH fuel' h6 (SW c6);
              let h7 := store_SW l None h7 in
              c7 ← h7 !! l;
              h8 ← ClearSubtreeH fuel' h7 (SE c7);
              Some (store_SE l None h8)
            else Some h4
      end
  end.

Fixpoint ClearNodeH (fuel : nat) (h : Store) (node : ptr) : option Store :=
  match fuel with
  | O => None
  | S fuel' =>
      match node with
      | None => Some h
      | Some l =>
          c ← h !! l;
          h1 ← ClearNodeH fuel' h (NW c);
          c1 ← h1 !! l;
          h2 ← ClearNodeH fuel' h1 (NE c1);
          c2 ← h2 !! l;
          h3 ← ClearNodeH fuel' h2 (SW c2);
          c3 ← h3 !! l;
          h4 ← ClearNodeH fuel' h3 (SE c3);
          _ ← h4 !! l;
          Some (delete l h4)
      end
  end.

(** [new Node(ul, lr, avg)]: a node at an address that is not in use, with
    null children. *)
Definition newNode (h : Store) (ul lr : Z * Z) (c : RGBAPixel Alpha)
  : Store * positive :=
  let l := fresh (dom h) in
  (<[l := mkCell ul lr c None None None None]> h, l).

Fixpoint CopyNodeH (fuel : nat) (h : Store) (otherNode : ptr)
  : option (Store * ptr) :=
  match fuel with
  | O => None
  | S fuel' =>
      match otherNode with
      | None => Some (h, None)
      | Some o =>
          c ← h !! o;
          let '(h0, n) := newNode h (upLeft c) (lowRight c) (avg c) in
          c0 ← h0 !! o;
          '(h1, p1) ← CopyNodeH fuel' h0 (NW c0);
          let h1 := store_NW n p1 h1 in
          c1 ← h1 !! o;
          '(h2, p2) ← CopyNodeH fuel' h1 (NE c1);
          let h2 := store_NE n p2 h2 in
          c2 ← h2 !! o;
          '(h3, p3) ← CopyNodeH fuel' h2 (SW c2);
          let h3 := store_SW n p3 h3 in
          c3 ← h3 !! o;
          '(h4, p4) ← CopyNodeH fuel' h3 (SE c3);
          let h4 := store_SE n p4 h4 in
          Some (h4, Some n)
      end
  end.

(** *** The member functions on a [QTree] object at address [this] *)

Definition RenderW (fuel : nat) (this : positive) (scale : Z) (w : World Alpha)
  : option (PNG Alpha) :=
  t ← trees w !! this;
  RenderNodeH fuel (nodes w) (rootH t) scale
              (blankPNG defaultPixel (u32 (widthH t * scale))
                                     (u32 (heightH t * scale))).

Definition PruneW (fuel : nat) (this : positive) (tolerance : Dist)
           (w : World Alpha) : option (World Alpha) :=
  t ← trees w !! this;
  h ← PruneNodeH fuel (nodes w) (rootH t) tolerance;
  Some (mkWorld h (trees w)).

Definition ClearW (fuel : nat) (this : positive) (w : World Alpha)
  : option (World Alpha) :=
  t ← trees w !! this;
  h ← ClearNodeH fuel (nodes w) (rootH t);
  Some (mkWorld h (<[this := mkQTreeObj None 0 0]> (trees w))).

(** [Copy] assigns the three members of [this]; it does not read them, so it
    also serves for an object under construction. *)
Definition CopyW (fuel : nat) (this other : positive) (w : World Alpha)
  : option (World Alpha) :=
  o ← trees w !! other;
  '(h, rt) ← CopyNodeH fuel (nodes w) (rootH o);
  Some (mkWorld h (<[this := mkQTreeObj rt (widthH o) (heightH o)]> (trees w))).

(** [QTree& QTree::operator=(const QTree& rhs)] *)
Definition assignW (fuel : nat) (this rhs : positive) (w : World Alpha)
  : option (World Alpha) :=
  if decide (this = rhs) then Some w
  else
    w1 ← ClearW fuel this w;
    CopyW fuel this rhs w1.

(** Modelled from the spec: the copy constructor, declared in [qtree.h], which
    is not part of the sources; it builds the new object with [Copy]. *)
Definition copyConstructW (fuel : nat) (this other : positive) (w : World Alpha)
  : option (World Alpha) :=
  CopyW fuel this other w.

End Store.

(** ** Vocabulary of the specification *)

Section Vocabulary.

Context {Alpha : Type}.
Variable defaultPixel : RGBAPixel Alpha.

Local Abbreviation Pixel := (RGBAPixel Alpha).
Local Abbreviation Tree := (Node Alpha).

(** The pixel [(x,y)] lies in the rectangle with inclusive corners [ul] and
    [lr]. *)
Definition inRect (ul lr : Z * Z) (x y : Z) : bool :=
  (ul.1 <=? x) && (x <=? lr.1) && (ul.2 <=? y) && (y <=? lr.2).

(** A rectangle [BuildNode] is called on: corners in increasing order and
    small enough for the midpoint sums not to wrap. *)
Definition region_ok (ul lr : Z * Z) : Prop :=
  0 <= ul.1 <= lr.1 /\ lr.1 < 2 ^ 31 /\ 0 <= ul.2 <= lr.2 /\ lr.2 < 2 ^ 31.

(** A source image: each dimension between [1] and [2^31], the range in
    which [width - 1] and the midpoint sums of [BuildNode] do not wrap. *)
Definition image_ok (img : PNG Alpha) : Prop :=
  0 < png_width img <= 2 ^ 31 /\ 0 < png_height img <= 2 ^ 31.

(** Every channel of the pixel is an [unsigned char]. *)
Definition pixel_ok (p : Pixel) : Prop :=
  0 <= r p < 256 /\ 0 <= g p < 256 /\ 0 <= b p < 256.

Definition pixels_ok_in (img : PNG Alpha) (ul lr : Z * Z) : Prop :=
  forall x y, ul.1 <= x <= lr.1 -> ul.2 <= y <= lr.2 ->
              pixel_ok (getPixel img x y).

Definition pixels_ok (img : PNG Alpha) : Prop :=
  pixels_ok_in img (0, 0) (png_width img - 1, png_height img - 1).

(** The graph of [BuildNode] on the rectangles it is meant for. *)
Inductive Built (img : PNG Alpha) : Z * Z -> Z * Z -> Tree -> Prop :=
| Built_pixel x y :
    region_ok (x, y) (x, y) ->
    Built img (x, y) (x, y)
          (mkNode (x, y) (x, y) (getPixel img x y) nullptr nullptr nullptr nullptr)
| Built_split x0 y0 x1 y1 nw ne sw se :
    region_ok (x0, y0) (x1, y1) ->
    (x0, y0) <> (x1, y1) ->
    let midX := (x0 + x1) / 2 in
    let midY := (y0 + y1) / 2 in
    Built img (x0, y0) (midX, midY) nw ->
    (x0 < x1 -> Built img (midX + 1, y0) (x1, midY) ne) ->
    (x0 = x1 -> ne = nullptr) ->
    (y0 < y1 -> Built img (x0, midY + 1) (midX, y1) sw) ->
    (y0 = y1 -> sw = nullptr) ->
    (x0 < x1 -> y0 < y1 -> Built img (midX + 1, midY + 1) (x1, y1) se) ->
    (x0 = x1 \/ y0 = y1 -> se = nullptr) ->
    Built img (x0, y0) (x1, y1)
          (mkNode (x0, y0) (x1, y1) (CalculateAverageColor defaultPixel nw ne sw se)
                  nw ne sw se).

(** The leaves of a tree, in the order [RenderNode] draws them: rectangle and
    colour. *)
Fixpoint leaves (t : Tree) : list (Z * Z * (Z * Z) * Pixel) :=
  match t with
  | nullptr => []
  | mkNode ul lr c nw ne sw se =>
      if IsLeaf t then [(ul, lr, c)]
      else leaves nw ++ leaves ne ++ leaves sw ++ leaves se
  end.

(** How many of the rectangles cover the pixel [(x,y)]. *)
Definition coverCount (x y : Z) (L : list (Z * Z * (Z * Z) * Pixel)) : nat :=
  length (filter (fun l => inRect l.1.1 l.1.2 x y = true) L).

(** Pixel area of the rectangle of a node, as a mathematical integer. *)
Definition area (t : Tree) : Z :=
  match t with
  | nullptr => 0
  | mkNode ul lr _ _ _ _ _ => (lr.1 - ul.1 + 1) * (lr.2 - ul.2 + 1)
  end.

(** [chan * area] of a node, zero for an absent child. *)
Definition weighted (chan : Pixel -> Z) (t : Tree) : Z :=
  match t with
  | nullptr => 0
  | mkNode _ _ c _ _ _ _ => chan c * area t
  end.

(** The integer-truncated area-weighted mean of one channel over the
    children that are present. *)
Definition weightedMean (chan : Pixel -> Z) (nw ne sw se : Tree) : Z :=
  (weighted chan nw + weighted chan ne + weighted chan sw + weighted chan se)
  / (area nw + area ne + area sw + area se).

(** A child as [CalculateAverageColor] expects it: absent, or a node whose
    corners are in increasing order and whose channels are bytes. *)
Definition childOk (t : Tree) : Prop :=
  match t with
  | nullptr => True
  | mkNode ul lr c _ _ _ _ => ul.1 <= lr.1 /\ ul.2 <= lr.2 /\ pixel_ok c
  end.

(** The stored average of an internal node is the weighted mean of the
    stored averages of its children. *)
Definition meanOfChildren (t : Tree) : Prop :=
  match t with
  | nullptr => True
  | mkNode _ _ c nw ne sw se =>
      r c = weightedMean r nw ne sw se /\
      g c = weightedMean g nw ne sw se /\
      b c = weightedMean b nw ne sw se
  end.

(** A property of every internal (non-leaf) node of a tree. *)
Fixpoint ForallInternal (P : Tree -> Prop) (t : Tree) : Prop :=
  match t with
  | nullptr => True
  | mkNode _ _ _ nw ne sw se =>
      (IsLeaf t = false -> P t) /\
      ForallInternal P nw /\ ForallInternal P ne /\
      ForallInternal P sw /\ ForallInternal P se
  end.

Definition avgOf (t : Tree) : Pixel :=
  match t with
  | nullptr => defaultPixel
  | mkNode _ _ c _ _ _ _ => c
  end.


Fixpoint countNodes (t : Tree) : nat :=
  match t with
  | nullptr => 0
  | mkNode _ _ _ nw ne sw se =>
      S (countNodes nw + countNodes ne + countNodes sw + countNodes se)
  end.

(** Every coordinate stored in the tree is an [unsigned int]. *)
Definition isU32 (z : Z) : bool := (0 <=? z) && (z <? 2 ^ 32).

Fixpoint coordsU32 (t : Tree) : bool :=
  match t with
  | nullptr => true
  | mkNode ul lr _ nw ne sw se =>
      isU32 ul.1 && isU32 ul.2 && isU32 lr.1 && isU32 lr.2 &&
      coordsU32 nw && coordsU32 ne && coordsU32 sw && coordsU32 se
  end.

(** The rectangle of every node of the tree has its corners between [0] and
    [2^32 - 2], so that [lowRight + 1] does not wrap. *)
Fixpoint coordsFit (t : Tree) : Prop :=
  match t with
  | nullptr => True
  | mkNode ul lr _ nw ne sw se =>
      (0 <= ul.1 < 2 ^ 32 - 1 /\ 0 <= ul.2 < 2 ^ 32 - 1 /\
       0 <= lr.1 < 2 ^ 32 - 1 /\ 0 <= lr.2 < 2 ^ 32 - 1) /\
      coordsFit nw /\ coordsFit ne /\ coordsFit sw /\ coordsFit se
  end.

(** The colour [RenderNode] at scale [1] leaves at [(x,y)], if it draws there:
    children are drawn in the order NW, NE, SW, SE and a later one paints
    over an earlier one. *)
Fixpoint paintedBy (t : Tree) (x y : Z) : option Pixel :=
  match t with
  | nullptr => None
  | mkNode ul lr c nw ne sw se =>
      if IsLeaf t then (if inRect ul lr x y then Some c else None)
      else
        match paintedBy se x y with
        | Some p => Some p
        | None =>
            match paintedBy sw x y with
            | Some p => Some p
            | None =>
                match paintedBy ne x y with
                | Some p => Some p
                | None => paintedBy nw x y
                end
            end
        end
  end.

(** The rectangle [(ul,lr)] lies inside [(ul',lr')]. *)
Definition rectIn (ul lr ul' lr' : Z * Z) : bool :=
  (ul'.1 <=? ul.1) && (lr.1 <=? lr'.1) && (ul'.2 <=? ul.2) && (lr.2 <=? lr'.2).

(** Two rectangles have no pixel in common. *)
Definition rectDisjoint (ul lr ul' lr' : Z * Z) : bool :=
  (lr.1 <? ul'.1) || (lr'.1 <? ul.1) || (lr.2 <? ul'.2) || (lr'.2 <? ul.2).

Definition childIn (ul lr : Z * Z) (c : Tree) : bool :=
  match c with
  | nullptr => true
  | mkNode ul' lr' _ _ _ _ _ => rectIn ul' lr' ul lr
  end.

Definition childrenDisjoint (c d : Tree) : bool :=
  match c, d with
  | mkNode ul lr _ _ _ _ _, mkNode ul' lr' _ _ _ _ _ => rectDisjoint ul lr ul' lr'
  | _, _ => true
  end.

(** The invariant of the data model on the rectangles of a tree: corners in
    increasing order, children inside their parent and disjoint from each
    other. *)
Fixpoint rectsOk (t : Tree) : bool :=
  match t with
  | nullptr => true
  | mkNode ul lr _ nw ne sw se =>
      (ul.1 <=? lr.1) && (ul.2 <=? lr.2) &&
      childIn ul lr nw && childIn ul lr ne && childIn ul lr sw && childIn ul lr se &&
      childrenDisjoint nw ne && childrenDisjoint nw sw && childrenDisjoint nw se &&
      childrenDisjoint ne sw && childrenDisjoint ne se && childrenDisjoint sw se &&
      rectsOk nw && rectsOk ne && rectsOk sw && rectsOk se
  end.

(** A tree whose root spans the whole image of the tree and whose rectangles
    satisfy the invariant. *)
Definition treeOk (t : QTree Alpha) : bool :=
  (0 <? width t) && (width t <=? 2 ^ 31) &&
  (0 <? height t) && (height t <=? 2 ^ 31) &&
  match root t with
  | nullptr => true
  | mkNode ul lr _ _ _ _ _ =>
      pair_eqb ul (0, 0) && pair_eqb lr (width t - 1, height t - 1)
  end && rectsOk (root t).

End Vocabulary.

(** ** Vocabulary for trees in a store *)

Section StoreVocabulary.

Context {Alpha : Type}.

(** A tree together with the addresses at which its nodes are allocated. *)
Inductive LTree : Type :=
| LNull
| LNode (l : positive) (ul lr : Z * Z) (c : RGBAPixel Alpha)
        (nw ne sw se : LTree).

(** The pointer to the tree. *)
Definition lroot (t : LTree) : option positive :=
  match t with
  | LNull => None
  | LNode l _ _ _ _ _ _ _ => Some l
  end.

(** The tree without the addresses. *)
Fixpoint erase (t : LTree) : Node Alpha :=
  match t with
  | LNull => nullptr
  | LNode _ ul lr c nw ne sw se =>
      mkNode ul lr c (erase nw) (erase ne) (erase sw) (erase se)
  end.

(** The addresses of the nodes of the tree. *)
Fixpoint locs (t : LTree) : gset positive :=
  match t with
  | LNull => ∅
  | LNode l _ _ _ nw ne sw se =>
      {[l]} ∪ (locs nw ∪ locs ne ∪ (locs sw ∪ locs se))
  end.

Fixpoint ldepth (t : LTree) : nat :=
  match t with
  | LNull => 0
  | LNode _ _ _ _ nw ne sw se =>
      S (Nat.max (Nat.max (ldepth nw) (ldepth ne))
                 (Nat.max (ldepth sw) (ldepth se)))
  end.

(** The store has each node of the tree at its address, with the child
    pointers of the tree. *)
Fixpoint holds (h : gmap positive (Cell Alpha)) (t : LTree) : Prop :=
  match t with
  | LNull => True
  | LNode l ul lr c nw ne sw se =>
      h !! l = Some (mkCell ul lr c (lroot nw) (lroot ne) (lroot sw) (lroot se)) /\
      holds h nw /\ holds h ne /\ holds h sw /\ holds h se
  end.

(** No node occurs twice in the tree: every node has one owner. *)
Fixpoint separate (t : LTree) : Prop :=
  match t with
  | LNull => True
  | LNode l _ _ _ nw ne sw se =>
      (l ∉ locs nw ∪ locs ne ∪ (locs sw ∪ locs se)) /\
      locs nw ## locs ne /\ locs nw ## locs sw /\ locs nw ## locs se /\
      locs ne ## locs sw /\ locs ne ## locs se /\ locs sw ## locs se /\
      separate nw /\ separate ne /\ separate sw /\ separate se
  end.

(** The store [h'] has what [h] has at every address outside [X]. *)
Definition agree_off (X : gset positive) (h h' : gmap positive (Cell Alpha))
  : Prop :=
  forall l, l ∉ X -> h' !! l = h !! l.

(** The [QTree] object at address [this] has the dimensions [w] and [h] and
    owns the nodes of [t], which form its tree. *)
Definition owns (wd : World Alpha) (this : positive) (w h : Z) (t : LTree)
  : Prop :=
  trees wd !! this = Some (mkQTreeObj (lroot t) w h) /\
  holds (nodes wd) t /\ separate t.

(** What it means for the object [cp] of the world [wd1] to be an isolated
    copy of the object [orig] of the world [wd]: both own a tree in [wd1], the
    tree of [orig] is the one it had, the two trees are equal up to the
    addresses and have no address in common, and pruning [cp] with any
    tolerance succeeds, leaves [orig] its tree and changes no rendering of
    [orig]. *)
Definition isolatedCopy (defaultPixel : RGBAPixel Alpha) {Dist : Type}
           (distanceTo : RGBAPixel Alpha -> RGBAPixel Alpha -> Dist)
           (leD : Dist -> Dist -> bool) (fuel : nat)
           (wd wd1 : World Alpha) (orig cp : positive) (w h : Z) (t : LTree)
  : Prop :=
  exists t',
    owns wd1 orig w h t /\ owns wd1 cp w h t' /\
    erase t' = erase t /\ locs t' ## locs t /\
    forall tolerance : Dist,
    exists wd2,
      PruneW distanceTo leD fuel cp tolerance wd1 = Some wd2 /\
      owns wd2 orig w h t /\
      forall scale,
        RenderW defaultPixel fuel orig scale wd2 =
        RenderW defaultPixel fuel orig scale wd /\
        RenderW defaultPixel fuel orig scale wd =
        Some (Render defaultPixel (mkQTree (erase t) w h) scale).

End StoreVocabulary.

Arguments LTree Alpha : clear implicits.

(** ** Concrete pixels, images and metric

    An instance of the abstract parts, for the examples: the alpha channel is
    an integer, the default-constructed pixel is opaque white and the colour
    distance is the sum of the channel differences. *)

Definition gray (n : Z) : RGBAPixel Z := mkRGBAPixel n n n 1.

Definition white : RGBAPixel Z := gray 255.

(** The image with rows [10 20] and [30 40]. *)
Definition image2x2 : PNG Z :=
  mkPNG 2 2 (fun x y => gray (10 * (x + 2 * y) + 10)).

(** The image with the single row [0 20 30 30]. *)
Definition image4x1 : PNG Z :=
  mkPNG 4 1 (fun x _ => gray (if x =? 0 then 0 else if x =? 1 then 20 else 30)).

Definition whiteImage (w h : Z) : PNG Z := mkPNG w h (fun _ _ => white).

Definition manhattan (p q : RGBAPixel Z) : Z :=
  Z.abs (r p - r q) + Z.abs (g p - g q) + Z.abs (b p - b q).

(** A leaf node for the pixel [(x,y)] with gray level [n]. *)
Definition grayLeaf (x y n : Z) : Node Z :=
  mkNode (x, y) (x, y) (gray n) nullptr nullptr nullptr nullptr.

(** A node without children whose rectangle is one row of [n] white
    pixels. *)
Definition whiteRow {Alpha : Type} (n : Z) (al : Alpha) : Node Alpha :=
  mkNode (0, 0) (n - 1, 0) (mkRGBAPixel 255 255 255 al)
         nullptr nullptr nullptr nullptr.

(** The tree of [image2x2]. *)
Definition tree2x2 : QTree Z :=
  mkQTree (mkNode (0, 0) (1, 1) (gray 25)
                  (grayLeaf 0 0 10) (grayLeaf 1 0 20)
                  (grayLeaf 0 1 30) (grayLeaf 1 1 40))
          2 2.

(** The tree of [image4x1]: the root has a western and an eastern child of
    two pixels each. *)
Definition tree4x1 : QTree Z :=
  mkQTree
    (mkNode (0, 0) (3, 0) (gray 20)
            (mkNode (0, 0) (1, 0) (gray 10)
                    (grayLeaf 0 0 0) (grayLeaf 1 0 20) nullptr nullptr)
            (mkNode (2, 0) (3, 0) (gray 30)
                    (grayLeaf 2 0 30) (grayLeaf 3 0 30) nullptr nullptr)
            nullptr nullptr)
    4 1.

(** The tree of [image2x2] in a store, owned by the [QTree] object at
    address 1. *)
Definition ltree2x2 : LTree Z :=
  LNode 1 (0, 0) (1, 1) (gray 25)
        (LNode 2 (0, 0) (0, 0) (gray 10) LNull LNull LNull LNull)
        (LNode 3 (1, 0) (1, 0) (gray 20) LNull LNull LNull LNull)
        (LNode 4 (0, 1) (0, 1) (gray 30) LNull LNull LNull LNull)
        (LNode 5 (1, 1) (1, 1) (gray 40) LNull LNull LNull LNull).

Definition leafCellAt (x y n : Z) : Cell Z :=
  mkCell (x, y) (x, y) (gray n) None None None None.

Definition world2x2 : World Z :=
  mkWorld
    (<[1%positive := mkCell (0, 0) (1, 1) (gray 25)
                            (Some 2%positive) (Some 3%positive)
                            (Some 4%positive) (Some 5%positive)]>
       (<[2%positive := leafCellAt 0 0 10]>
          (<[3%positive := leafCellAt 1 0 20]>
             (<[4%positive := leafCellAt 0 1 30]>
                (<[5%positive := leafCellAt 1 1 40]> ∅)))))
    (<[1%positive := mkQTreeObj (Some 1%positive) 2 2]> ∅).

(** The image with the single column [10 20], and its tree. *)
Definition image1x2 : PNG Z :=
  mkPNG 1 2 (fun _ y => gray (if y =? 0 then 10 else 20)).

Definition tree1x2 : QTree Z :=
  mkQTree (mkNode (0, 0) (0, 1) (gray 15)
                  (grayLeaf 0 0 10) nullptr (grayLeaf 0 1 20) nullptr)
          1 2.

(** The red channel of every pixel of a buffer, row by row. *)
Definition redRows (p : PNG Z) : list (list Z) :=
  map (fun y => map (fun x => r (getPixel p x y)) (seqZ 0 (png_width p)))
      (seqZ 0 (png_height p)).

(** ** Further vocabulary *)

(** The rectangle of every node of the tree, scaled by [s], has its corners
    below [2^32], so that the loop bounds of [RenderNode] do not wrap. *)
Fixpoint coordsFitScale {Alpha : Type} (s : Z) (t : Node Alpha) : Prop :=
  match t with
  | nullptr => True
  | mkNode ul lr _ nw ne sw se =>
      (0 <= ul.1 /\ ul.1 * s < 2 ^ 32 /\ 0 <= ul.2 /\ ul.2 * s < 2 ^ 32 /\
       0 <= lr.1 /\ (lr.1 + 1) * s < 2 ^ 32 /\
       0 <= lr.2 /\ (lr.2 + 1) * s < 2 ^ 32) /\
      coordsFitScale s nw /\ coordsFitScale s ne /\
      coordsFitScale s sw /\ coordsFitScale s se
  end.

(** The pattern of absent children the constructor documents: every internal
    node has a north-west child, no eastern children exactly when its
    rectangle is one pixel wide and no southern children exactly when it is
    one pixel tall. *)
Fixpoint nullPattern {Alpha : Type} (t : Node Alpha) : Prop :=
  match t with
  | nullptr => True
  | mkNode ul lr _ nw ne sw se =>
      (IsLeaf t = false ->
       nw <> nullptr /\
       (ne = nullptr <-> ul.1 = lr.1) /\
       (sw = nullptr <-> ul.2 = lr.2) /\
       (se = nullptr <-> ul.1 = lr.1 \/ ul.2 = lr.2)) /\
      nullPattern nw /\ nullPattern ne /\ nullPattern sw /\ nullPattern se
  end.

(** A metric for which all colours are at distance zero. *)
Definition zeroDistance (p q : RGBAPixel Z) : Z := 0.

(** The split rule the constructor documents: the north-west child of every
    internal node starts at the corner of the node and takes the larger half
    of its columns and of its rows. *)
Fixpoint nwLargerHalf {Alpha : Type} (t : Node Alpha) : Prop :=
  match t with
  | nullptr => True
  | mkNode ul lr _ nw ne sw se =>
      (IsLeaf t = false ->
       match nw with
       | nullptr => False
       | mkNode u l _ _ _ _ _ =>
           u = ul /\
           l.1 - u.1 + 1 = (lr.1 - ul.1 + 2) / 2 /\
           l.2 - u.2 + 1 = (lr.2 - ul.2 + 2) / 2
       end) /\
      nwLargerHalf nw /\ nwLargerHalf ne /\ nwLargerHalf sw /\ nwLargerHalf se
  end.


(** A tree of one node, at address 6, for the image of one pixel. *)
Definition ltreeOne : LTree Z :=
  LNode 6 (0, 0) (0, 0) (gray 7) LNull LNull LNull LNull.

(** The world of [world2x2] with a second [QTree] object, at address 2, that
    owns [ltreeOne]. *)
Definition worldTwo : World Z :=
  mkWorld (<[6%positive := leafCellAt 0 0 7]> (nodes world2x2))
          (<[2%positive := mkQTreeObj (Some 6%positive) 1 1]> (trees world2x2)).

(** * Properties *)

(** ** Machine arithmetic *)

Lemma u32_small z : 0 <= z < 2 ^ 32 -> u32 z = z.
Proof. intros Hz. unfold u32. apply Z.mod_small. lia. Qed.

Lemma u32_range z : 0 <= u32 z < 2 ^ 32.
Proof. unfold u32. apply Z.mod_pos_bound. lia. Qed.

Lemma u32_idem z : u32 (u32 z) = u32 z.
Proof. unfold u32. apply Z.mod_mod. lia. Qed.

Lemma u32_sub_sub w z : 0 <= z < 2 ^ 32 -> u32 (w - u32 (w - z)) = z.
Proof.
  intros Hz. unfold u32.
  rewrite Zminus_mod_idemp_r.
  replace (w - (w - z)) with z by ring.
  apply Z.mod_small. lia.
Qed.

Lemma pair_eqb_eq p q : pair_eqb p q = true <-> p = q.
Proof.
  destruct p as [p1 p2], q as [q1 q2]. unfold pair_eqb. simpl.
  rewrite andb_true_iff, !Z.eqb_eq. split.
  - intros [-> ->]. reflexivity.
  - intros [= -> ->]. auto.
Qed.

Lemma pair_eqb_neq p q : pair_eqb p q = false <-> p <> q.
Proof.
  rewrite <- pair_eqb_eq. destruct (pair_eqb p q); split; congruence.
Qed.

(** ** Rendering *)

Section RenderFacts.

Context {Alpha : Type}.
Local Abbreviation Pixel := (RGBAPixel Alpha).
Local Abbreviation Tree := (Node Alpha).

Lemma fillRows_dims x ys (c : Pixel) cv :
  png_width (fillRows x ys c cv) = png_width cv /\
  png_height (fillRows x ys c cv) = png_height cv.
Proof.
  unfold fillRows. revert cv.
  induction ys as [|y ys IH]; intros cv; simpl; [auto|].
  destruct (IH (if (x <? png_width cv) && (y <? png_height cv)
                then setPixel cv x y c else cv)) as [Hw Hh].
  rewrite Hw, Hh. destruct ((x <? png_width cv) && (y <? png_height cv)); auto.
Qed.

Lemma fillRect_dims xs ys (c : Pixel) cv :
  png_width (fillRect xs ys c cv) = png_width cv /\
  png_height (fillRect xs ys c cv) = png_height cv.
Proof.
  unfold fillRect. revert cv.
  induction xs as [|x xs IH]; intros cv; simpl; [auto|].
  destruct (IH (fillRows x ys c cv)) as [Hw Hh].
  destruct (fillRows_dims x ys c cv) as [Hw' Hh'].
  split; congruence.
Qed.

Lemma bool_decide_elem_cons (v y : Z) (ys : list Z) :
  bool_decide (v ∈ y :: ys) = bool_decide (v = y) || bool_decide (v ∈ ys).
Proof.
  rewrite <- bool_decide_or. apply bool_decide_ext, elem_of_cons.
Qed.

Lemma fillRows_get x ys (c : Pixel) cv x' y' :
  getPixel (fillRows x ys c cv) x' y' =
  if bool_decide (x' = x) && bool_decide (y' ∈ ys) &&
     (x' <? png_width cv) && (y' <? png_height cv)
  then c else getPixel cv x' y'.
Proof.
  unfold fillRows. revert cv.
  induction ys as [|y ys IH]; intros cv; cbn [fold_left].
  - rewrite (bool_decide_eq_false_2 (y' ∈ [])) by apply not_elem_of_nil.
    rewrite andb_false_r. reflexivity.
  - rewrite IH, bool_decide_elem_cons. clear IH.
    set (cv' := if (x <? png_width cv) && (y <? png_height cv)
                then setPixel cv x y c else cv).
    assert (Hd : png_width cv' = png_width cv /\ png_height cv' = png_height cv).
    { subst cv'. destruct ((x <? png_width cv) && (y <? png_height cv)); auto. }
    destruct Hd as [-> ->]. subst cv'.
    destruct (bool_decide_reflect (x' = x)) as [Ex|Hx];
      destruct (bool_decide_reflect (y' = y)) as [Ey|Hy];
      destruct (bool_decide (y' ∈ ys));
      destruct (x' <? png_width cv) eqn:Ew'; destruct (y' <? png_height cv) eqn:Eh';
      destruct (x <? png_width cv) eqn:Ew; destruct (y <? png_height cv) eqn:Eh;
      subst; try congruence;
      simpl; rewrite ?Z.eqb_refl; simpl; try reflexivity;
      try (destruct (Z.eqb_spec x' x); [congruence|]);
      try (destruct (Z.eqb_spec y' y); [congruence|]);
      rewrite ?andb_false_r; reflexivity.
Qed.

Lemma fillRect_get xs ys (c : Pixel) cv x' y' :
  getPixel (fillRect xs ys c cv) x' y' =
  if bool_decide (x' ∈ xs) && bool_decide (y' ∈ ys) &&
     (x' <? png_width cv) && (y' <? png_height cv)
  then c else getPixel cv x' y'.
Proof.
  unfold fillRect. revert cv.
  induction xs as [|x xs IH]; intros cv; cbn [fold_left].
  - rewrite (bool_decide_eq_false_2 (x' ∈ [])) by apply not_elem_of_nil.
    reflexivity.
  - rewrite IH, bool_decide_elem_cons. clear IH.
    destruct (fillRows_dims x ys c cv) as [-> ->].
    rewrite fillRows_get.
    destruct (bool_decide (x' = x)); destruct (bool_decide (x' ∈ xs));
      destruct (bool_decide (y' ∈ ys));
      destruct (x' <? png_width cv); destruct (y' <? png_height cv);
      reflexivity.
Qed.

Lemma elem_of_loopRange v lo hi : v ∈ loopRange lo hi <-> lo <= v < hi.
Proof. unfold loopRange. rewrite elem_of_seqZ. lia. Qed.

Lemma RenderNode_dims (t : Tree) scale cv :
  png_width (RenderNode t scale cv) = png_width cv /\
  png_height (RenderNode t scale cv) = png_height cv.
Proof.
  revert cv. induction t as [|ul lr c nw IH1 ne IH2 sw IH3 se IH4]; intros cv.
  - simpl. auto.
  - cbn [RenderNode]. destruct (IsLeaf _).
    + apply fillRect_dims.
    + destruct (IH4 (RenderNode sw scale (RenderNode ne scale (RenderNode nw scale cv)))) as [-> ->].
      destruct (IH3 (RenderNode ne scale (RenderNode nw scale cv))) as [-> ->].
      destruct (IH2 (RenderNode nw scale cv)) as [-> ->].
      apply IH1.
Qed.

(** At scale [1], the canvas holds at each of its pixels the colour of the
    last leaf drawn there and its former colour elsewhere. *)
Lemma RenderNode_paintedBy (t : Tree) cv x y :
  coordsFit t ->
  0 <= x < png_width cv -> 0 <= y < png_height cv ->
  getPixel (RenderNode t 1 cv) x y =
  match paintedBy t x y with Some p => p | None => getPixel cv x y end.
Proof.
  revert cv. induction t as [|ul lr c nw IH1 ne IH2 sw IH3 se IH4];
    intros cv Hfit Hx Hy.
  - reflexivity.
  - cbn [RenderNode paintedBy]. cbn [coordsFit] in Hfit.
    destruct Hfit as (Hc & F1 & F2 & F3 & F4).
    destruct (IsLeaf _).
    + rewrite fillRect_get.
      rewrite !Z.mul_1_r, !u32_idem.
      rewrite !u32_small by lia.
      unfold inRect.
      destruct (bool_decide (x ∈ loopRange ul.1 (lr.1 + 1))) eqn:Ex.
      * apply bool_decide_eq_true, elem_of_loopRange in Ex.
        destruct (bool_decide (y ∈ loopRange ul.2 (lr.2 + 1))) eqn:Ey.
        -- apply bool_decide_eq_true, elem_of_loopRange in Ey.
           replace (ul.1 <=? x) with true by (symmetry; apply Z.leb_le; lia).
           replace (x <=? lr.1) with true by (symmetry; apply Z.leb_le; lia).
           replace (ul.2 <=? y) with true by (symmetry; apply Z.leb_le; lia).
           replace (y <=? lr.2) with true by (symmetry; apply Z.leb_le; lia).
           replace (x <? png_width cv) with true by (symmetry; apply Z.ltb_lt; lia).
           replace (y <? png_height cv) with true by (symmetry; apply Z.ltb_lt; lia).
           reflexivity.
        -- apply bool_decide_eq_false in Ey. rewrite elem_of_loopRange in Ey.
           simpl.
           destruct (ul.2 <=? y) eqn:E1; [|rewrite andb_false_r; reflexivity].
           destruct (y <=? lr.2) eqn:E2; [|rewrite andb_false_r; reflexivity].
           apply Z.leb_le in E1, E2. lia.
      * apply bool_decide_eq_false in Ex. rewrite elem_of_loopRange in Ex.
        simpl.
        destruct (ul.1 <=? x) eqn:E1; [|reflexivity].
        destruct (x <=? lr.1) eqn:E2; [|reflexivity].
        apply Z.leb_le in E1, E2. lia.
    + set (cv1 := RenderNode nw 1 cv).
      set (cv2 := RenderNode ne 1 cv1).
      set (cv3 := RenderNode sw 1 cv2).
      destruct (RenderNode_dims nw 1 cv) as [W1 H1].
      destruct (RenderNode_dims ne 1 cv1) as [W2 H2].
      destruct (RenderNode_dims sw 1 cv2) as [W3 H3].
      fold cv1 in W1, H1. fold cv2 in W2, H2. fold cv3 in W3, H3.
      rewrite IH4 by (auto; lia).
      destruct (paintedBy se x y); [reflexivity|].
      subst cv3. rewrite IH3 by (auto; lia).
      destruct (paintedBy sw x y); [reflexivity|].
      subst cv2. rewrite IH2 by (auto; lia).
      destruct (paintedBy ne x y); [reflexivity|].
      subst cv1. apply IH1; auto.
Qed.

End RenderFacts.

(** ** Construction *)

Section BuildFacts.

Context {Alpha : Type}.
Variable defaultPixel : RGBAPixel Alpha.
Local Abbreviation Pixel := (RGBAPixel Alpha).
Local Abbreviation Tree := (Node Alpha).

(** With fuel above the half perimeter of the rectangle, [BuildNode] returns
    and its result is in the relation [Built]. *)
Lemma BuildNode_Built img fuel :
  forall ul lr,
    region_ok ul lr ->
    (Z.to_nat (lr.1 - ul.1 + (lr.2 - ul.2)) < fuel)%nat ->
    exists t, BuildNode defaultPixel fuel img ul lr = Some t /\
              Built defaultPixel img ul lr t.
Proof.
  induction fuel as [|fuel IH]; intros [x0 y0] [x1 y1] Hok Hfuel; [lia|].
  unfold region_ok in Hok. cbn [fst snd] in Hok, Hfuel.
  cbn [BuildNode].
  destruct (pair_eqb (x0, y0) (x1, y1)) eqn:Heq.
  - apply pair_eqb_eq in Heq. injection Heq as <- <-.
    eexists. split; [reflexivity|]. cbn [fst snd]. constructor.
    unfold region_ok. cbn [fst snd]. lia.
  - apply pair_eqb_neq in Heq. cbn [fst snd].
    rewrite (u32_small (x0 + x1)), (u32_small (y0 + y1)) by lia.
    set (midX := (x0 + x1) / 2). set (midY := (y0 + y1) / 2).
    assert (HmX : x0 <= midX <= x1 /\ (x0 < x1 -> midX < x1) /\
                  (x0 < x1 -> midX - x0 < x1 - x0))
      by (subst midX; Z.div_mod_to_equations; lia).
    assert (HmY : y0 <= midY <= y1 /\ (y0 < y1 -> midY < y1) /\
                  (y0 < y1 -> midY - y0 < y1 - y0))
      by (subst midY; Z.div_mod_to_equations; lia).
    rewrite (u32_small (midX + 1)), (u32_small (midY + 1)) by lia.
    assert (Hne : x0 < x1 \/ y0 < y1).
    { destruct (decide (x0 = x1)) as [->|]; [|lia].
      destruct (decide (y0 = y1)) as [->|]; [congruence | lia]. }
    replace (x0 <=? midX) with true by (symmetry; apply Z.leb_le; lia).
    replace (y0 <=? midY) with true by (symmetry; apply Z.leb_le; lia).
    rewrite !andb_true_r, !andb_true_l.
    destruct (IH (x0, y0) (midX, midY)) as (nw & -> & Bnw);
      [unfold region_ok; cbn [fst snd]; lia | cbn [fst snd]; lia |].
    cbn [mbind option_bind].
    assert (Hne' : exists ne,
      (if midX + 1 <=? x1
       then BuildNode defaultPixel fuel img (midX + 1, y0) (x1, midY)
       else Some nullptr) = Some ne /\
      (x0 < x1 -> Built defaultPixel img (midX + 1, y0) (x1, midY) ne) /\
      (x0 = x1 -> ne = nullptr)).
    { destruct (Z.leb_spec (midX + 1) x1) as [Hle|Hgt].
      - destruct (IH (midX + 1, y0) (x1, midY)) as (ne & -> & Bne);
          [unfold region_ok; cbn [fst snd]; lia | cbn [fst snd]; lia |].
        exists ne. repeat split; auto. lia.
      - exists nullptr. repeat split; auto. lia. }
    destruct Hne' as (ne & -> & Bne & Nne).
    assert (Hsw' : exists sw,
      (if midY + 1 <=? y1
       then BuildNode defaultPixel fuel img (x0, midY + 1) (midX, y1)
       else Some nullptr) = Some sw /\
      (y0 < y1 -> Built defaultPixel img (x0, midY + 1) (midX, y1) sw) /\
      (y0 = y1 -> sw = nullptr)).
    { destruct (Z.leb_spec (midY + 1) y1) as [Hle|Hgt].
      - destruct (IH (x0, midY + 1) (midX, y1)) as (sw & -> & Bsw);
          [unfold region_ok; cbn [fst snd]; lia | cbn [fst snd]; lia |].
        exists sw. repeat split; auto. lia.
      - exists nullptr. repeat split; auto. lia. }
    destruct Hsw' as (sw & -> & Bsw & Nsw).
    assert (Hse' : exists se,
      (if (midX + 1 <=? x1) && (midY + 1 <=? y1)
       then BuildNode defaultPixel fuel img (midX + 1, midY + 1) (x1, y1)
       else Some nullptr) = Some se /\
      (x0 < x1 -> y0 < y1 ->
       Built defaultPixel img (midX + 1, midY + 1) (x1, y1) se) /\
      (x0 = x1 \/ y0 = y1 -> se = nullptr)).
    { destruct (Z.leb_spec (midX + 1) x1) as [Hle|Hgt];
        destruct (Z.leb_spec (midY + 1) y1) as [Hle'|Hgt']; cbn [andb].
      - destruct (IH (midX + 1, midY + 1) (x1, y1)) as (se & -> & Bse);
          [unfold region_ok; cbn [fst snd]; lia | cbn [fst snd]; lia |].
        exists se. repeat split; auto. lia.
      - exists nullptr. repeat split; auto. lia.
      - exists nullptr. repeat split; auto. lia.
      - exists nullptr. repeat split; auto. lia. }
    destruct Hse' as (se & -> & Bse & Nse).
    cbn [mbind option_bind].
    eexists. split; [reflexivity|].
    apply Built_split; auto; unfold region_ok; cbn [fst snd]; lia.
Qed.

(** The result does not depend on the fuel. *)
Lemma Built_fun img ul lr (t t' : Tree) :
  Built defaultPixel img ul lr t -> Built defaultPixel img ul lr t' -> t = t'.
Proof.
  intros B. revert t'.
  induction B as [x y Hxy | x0 y0 x1 y1 nw ne sw se Hok Hneq midX midY
                          Bnw IHnw Bne IHne Nne Bsw IHsw Nsw Bse IHse Nse];
    intros t' B'.
  - inversion B'; subst; [reflexivity | congruence].
  - inversion B' as [| ? ? ? ? nw' ne' sw' se' _ _ ? ? Bnw' Bne' Nne' Bsw' Nsw'
                         Bse' Nse']; subst; [congruence|].
    assert (nw = nw') by (apply IHnw; assumption). subst nw'.
    assert (ne = ne').
    { destruct (decide (x0 = x1)) as [E|E].
      - rewrite Nne, Nne' by assumption. reflexivity.
      - unfold region_ok in Hok. cbn [fst snd] in Hok.
        apply IHne; [lia|]. apply Bne'. lia. }
    assert (sw = sw').
    { destruct (decide (y0 = y1)) as [E|E].
      - rewrite Nsw, Nsw' by assumption. reflexivity.
      - unfold region_ok in Hok. cbn [fst snd] in Hok.
        apply IHsw; [lia|]. apply Bsw'. lia. }
    assert (se = se').
    { destruct (decide (x0 = x1 \/ y0 = y1)) as [E|E].
      - rewrite Nse, Nse' by assumption. reflexivity.
      - unfold region_ok in Hok. cbn [fst snd] in Hok.
        apply IHse; [lia | lia |]. apply Bse'; lia. }
    subst. reflexivity.
Qed.

Lemma inRect_reflect ul lr x y :
  reflect (ul.1 <= x <= lr.1 /\ ul.2 <= y <= lr.2) (inRect ul lr x y).
Proof.
  unfold inRect.
  destruct (Z.leb_spec0 ul.1 x), (Z.leb_spec0 x lr.1), (Z.leb_spec0 ul.2 y),
    (Z.leb_spec0 y lr.2); constructor; lia.
Qed.

Lemma Built_region img ul lr (t : Tree) :
  Built defaultPixel img ul lr t -> region_ok ul lr.
Proof. destruct 1; assumption. Qed.

Lemma Built_shape img ul lr (t : Tree) :
  Built defaultPixel img ul lr t ->
  exists c nw ne sw se, t = mkNode ul lr c nw ne sw se.
Proof. destruct 1; eauto 10. Qed.

(** A node built for more than one pixel has a north-west child. *)
Lemma Built_IsLeaf img ul lr (t : Tree) :
  Built defaultPixel img ul lr t -> IsLeaf t = pair_eqb ul lr.
Proof.
  destruct 1 as [x y Hxy | x0 y0 x1 y1 nw ne sw se Hok Hneq midX midY Bnw].
  - symmetry. apply pair_eqb_eq. reflexivity.
  - apply Built_shape in Bnw. destruct Bnw as (c & n1 & n2 & n3 & n4 & ->).
    cbn. symmetry. apply pair_eqb_neq. assumption.
Qed.

End BuildFacts.

(** Case analysis on which children of a built node exist: all four, the
    northern two (one row), or the western two (one column). *)
Ltac built_children :=
  match goal with
  | Hok : region_ok (?x0, ?y0) (?x1, ?y1),
    Hneq : (?x0, ?y0) <> (?x1, ?y1),
    Nne : ?x0 = ?x1 -> ?ne = nullptr,
    Nsw : ?y0 = ?y1 -> ?sw = nullptr,
    Nse : ?x0 = ?x1 \/ ?y0 = ?y1 -> ?se = nullptr |- _ =>
      let Hx := fresh "Hx" in
      let Hy := fresh "Hy" in
      unfold region_ok in Hok; cbn [fst snd] in Hok;
      destruct (Z_lt_le_dec x0 x1) as [Hx|Hx];
      destruct (Z_lt_le_dec y0 y1) as [Hy|Hy];
      [ clear Nne Nsw Nse
      | assert (y0 = y1) by lia;
        assert (sw = nullptr) by (apply Nsw; lia);
        assert (se = nullptr) by (apply Nse; lia);
        clear Nne Nsw Nse; subst sw se
      | assert (x0 = x1) by lia;
        assert (ne = nullptr) by (apply Nne; lia);
        assert (se = nullptr) by (apply Nse; lia);
        clear Nne Nsw Nse; subst ne se
      | exfalso; apply Hneq; f_equal; lia ];
      repeat match goal with
             | H : ?a < ?b -> _, H' : ?a < ?b |- _ => specialize (H H')
             end;
      repeat match goal with
             | H : _ < _ -> _ |- _ => clear H
             end
  end.

Ltac midpoints :=
  repeat match goal with
         | m := (?p + ?q) / 2 |- _ =>
             let H := fresh "Hmid" in
             assert (H : 2 * m <= p + q <= 2 * m + 1)
               by (subst m; Z.div_mod_to_equations; lia);
             clearbody m
         end.

Ltac inRect_cases :=
  repeat match goal with
         | |- context [inRect ?ul ?lr ?x ?y] =>
             destruct (inRect_reflect ul lr x y); cbn [fst snd] in *
         end.

Ltac built_shapes :=
  repeat match goal with
         | B : Built _ _ _ _ ?c |- _ =>
             is_var c;
             let H := fresh "Hshape" in
             pose proof B as H; apply Built_shape in H;
             destruct H as (? & ? & ? & ? & ? & H);
             rewrite H in *; clear H
         end.

Section BuildGeometry.

Context {Alpha : Type}.
Variable defaultPixel : RGBAPixel Alpha.
Local Abbreviation Pixel := (RGBAPixel Alpha).
Local Abbreviation Tree := (Node Alpha).

(** A built node paints exactly the pixels of its rectangle, each with the
    colour of the source image. *)
Lemma Built_paintedBy img ul lr (t : Tree) :
  Built defaultPixel img ul lr t ->
  forall x y,
    paintedBy t x y = if inRect ul lr x y then Some (getPixel img x y) else None.
Proof.
  induction 1 as [x0 y0 Hxy | x0 y0 x1 y1 nw ne sw se Hok Hneq midX midY
                          Bnw IHnw Bne IHne Nne Bsw IHsw Nsw Bse IHse Nse];
    intros x y.
  - cbn. destruct (inRect_reflect (x0, y0) (x0, y0) x y) as [Hin|Hin];
      [|reflexivity].
    cbn [fst snd] in Hin. replace x with x0 by lia. replace y with y0 by lia.
    reflexivity.
  - cbn [paintedBy].
    rewrite (Built_IsLeaf _ _ _ _ _
               (Built_split defaultPixel img x0 y0 x1 y1 nw ne sw se Hok Hneq
                            Bnw Bne Nne Bsw Nsw Bse Nse)).
    replace (pair_eqb (x0, y0) (x1, y1)) with false
      by (symmetry; apply pair_eqb_neq; assumption).
    midpoints.
    built_children; rewrite ?IHnw, ?IHne, ?IHsw, ?IHse; cbn [paintedBy];
      inRect_cases; try reflexivity; exfalso; lia.
Qed.

Lemma Built_coordsFit img ul lr (t : Tree) :
  Built defaultPixel img ul lr t -> coordsFit t.
Proof.
  induction 1 as [x0 y0 Hxy | x0 y0 x1 y1 nw ne sw se Hok Hneq midX midY
                          Bnw IHnw Bne IHne Nne Bsw IHsw Nsw Bse IHse Nse].
  - unfold region_ok in Hxy. cbn in *. lia.
  - built_children; cbn [coordsFit fst snd]; repeat split; auto; lia.
Qed.

Lemma Built_rectsOk img ul lr (t : Tree) :
  Built defaultPixel img ul lr t -> rectsOk t = true.
Proof.
  induction 1 as [x0 y0 Hxy | x0 y0 x1 y1 nw ne sw se Hok Hneq midX midY
                          Bnw IHnw Bne IHne Nne Bsw IHsw Nsw Bse IHse Nse].
  - unfold region_ok in Hxy. cbn in *.
    rewrite !andb_true_r, andb_true_iff, !Z.leb_le. lia.
  - midpoints.
    built_children; cbn [rectsOk]; rewrite ?IHnw, ?IHne, ?IHsw, ?IHse;
      built_shapes;
      cbn [childIn childrenDisjoint rectsOk]; unfold rectIn, rectDisjoint;
      cbn [fst snd]; rewrite ?andb_true_r;
      repeat (apply andb_true_intro; split);
      rewrite ?orb_true_iff, ?Z.leb_le, ?Z.ltb_lt; lia.
Qed.

Lemma coverCount_app x y (L1 L2 : list (Z * Z * (Z * Z) * Pixel)) :
  coverCount x y (L1 ++ L2) = (coverCount x y L1 + coverCount x y L2)%nat.
Proof. unfold coverCount. rewrite filter_app, length_app. reflexivity. Qed.

(** The leaves of a built node cover each pixel of its rectangle once and no
    pixel outside it. *)
Lemma Built_coverCount img ul lr (t : Tree) :
  Built defaultPixel img ul lr t ->
  forall x y,
    coverCount x y (leaves t) = if inRect ul lr x y then 1%nat else 0%nat.
Proof.
  induction 1 as [x0 y0 Hxy | x0 y0 x1 y1 nw ne sw se Hok Hneq midX midY
                          Bnw IHnw Bne IHne Nne Bsw IHsw Nsw Bse IHse Nse];
    intros x y.
  - unfold coverCount. cbn [leaves IsLeaf filter list_filter].
    cbn [fst snd].
    destruct (inRect (x0, y0) (x0, y0) x y); cbn.
    + rewrite decide_True by reflexivity. reflexivity.
    + rewrite decide_False by discriminate. reflexivity.
  - cbn [leaves].
    rewrite (Built_IsLeaf _ _ _ _ _
               (Built_split defaultPixel img x0 y0 x1 y1 nw ne sw se Hok Hneq
                            Bnw Bne Nne Bsw Nsw Bse Nse)).
    replace (pair_eqb (x0, y0) (x1, y1)) with false
      by (symmetry; apply pair_eqb_neq; assumption).
    rewrite !coverCount_app.
    midpoints.
    built_children; rewrite ?IHnw, ?IHne, ?IHsw, ?IHse; cbn [leaves];
      change (coverCount x y []) with 0%nat;
      inRect_cases; try reflexivity; exfalso; lia.
Qed.

(** Every leaf of a built node has its corners in increasing order. *)
Lemma Built_leaves_increasing img ul lr (t : Tree) :
  Built defaultPixel img ul lr t ->
  Forall (fun l => l.1.1.1 <= l.1.2.1 /\ l.1.1.2 <= l.1.2.2) (leaves t).
Proof.
  induction 1 as [x0 y0 Hxy | x0 y0 x1 y1 nw ne sw se Hok Hneq midX midY
                          Bnw IHnw Bne IHne Nne Bsw IHsw Nsw Bse IHse Nse].
  - cbn. constructor; [cbn; lia | constructor].
  - cbn [leaves].
    rewrite (Built_IsLeaf _ _ _ _ _
               (Built_split defaultPixel img x0 y0 x1 y1 nw ne sw se Hok Hneq
                            Bnw Bne Nne Bsw Nsw Bse Nse)).
    replace (pair_eqb (x0, y0) (x1, y1)) with false
      by (symmetry; apply pair_eqb_neq; assumption).
    built_children; cbn [leaves]; rewrite !Forall_app; repeat split;
      auto using Forall_nil_2.
Qed.

(** The constructor returns, for every sufficient amount of fuel, the tree
    that [Built] describes on the whole image. *)
Lemma QTree_of_PNG_Built img fuel :
  image_ok img ->
  (Z.to_nat (png_width img + png_height img) <= fuel)%nat ->
  exists t,
    QTree_of_PNG defaultPixel fuel img = Some t /\
    width t = png_width img /\ height t = png_height img /\
    Built defaultPixel img (0, 0) (png_width img - 1, png_height img - 1)
          (root t).
Proof.
  intros [HW HH] Hfuel. unfold QTree_of_PNG.
  rewrite (u32_small (png_width img - 1)), (u32_small (png_height img - 1))
    by lia.
  destruct (BuildNode_Built defaultPixel img fuel (0, 0)
              (png_width img - 1, png_height img - 1)) as (rt & -> & B).
  - unfold region_ok. cbn [fst snd]. lia.
  - cbn [fst snd]. lia.
  - cbn. eexists. split; [reflexivity|]. cbn. auto.
Qed.

End BuildGeometry.

(** ** The average colour *)

Section AverageFacts.

Context {Alpha : Type}.
Variable defaultPixel : RGBAPixel Alpha.
Local Abbreviation Pixel := (RGBAPixel Alpha).
Local Abbreviation Tree := (Node Alpha).

Lemma u32_add_l x y : u32 (u32 x + y) = u32 (x + y).
Proof. unfold u32. apply Zplus_mod_idemp_l. Qed.

Lemma u32_add_r x y : u32 (x + u32 y) = u32 (x + y).
Proof. unfold u32. apply Zplus_mod_idemp_r. Qed.

Lemma u32_mul_l x y : u32 (u32 x * y) = u32 (x * y).
Proof. unfold u32. apply Zmult_mod_idemp_l. Qed.

Lemma u32_mul_r x y : u32 (x * u32 y) = u32 (x * y).
Proof. unfold u32. apply Zmult_mod_idemp_r. Qed.

(** The pixel count of a node, as the lambda computes it, is its area modulo
    [2^32]. *)
Lemma nodePixelCount_area (ul lr : Z * Z) :
  u32 (u32 (u32 (lr.1 - ul.1) + 1) * u32 (u32 (lr.2 - ul.2) + 1)) =
  u32 ((lr.1 - ul.1 + 1) * (lr.2 - ul.2 + 1)).
Proof.
  rewrite !u32_add_l, u32_mul_l, u32_mul_r. reflexivity.
Qed.

(** The accumulators after adding a child are the running sums modulo
    [2^32]. *)
Lemma addColor_sums Sr Sg Sb N (t : Tree) :
  addColor (mkSums (u32 Sr) (u32 Sg) (u32 Sb) (u32 N)) t =
  mkSums (u32 (Sr + weighted r t)) (u32 (Sg + weighted g t))
         (u32 (Sb + weighted b t)) (u32 (N + area t)).
Proof.
  destruct t as [|ul lr c nw ne sw se]; cbn [addColor weighted area].
  - rewrite !Z.add_0_r. reflexivity.
  - cbn [sumRed sumGreen sumBlue pixelCount].
    rewrite nodePixelCount_area.
    rewrite !u32_mul_r, !u32_add_r, !u32_add_l. reflexivity.
Qed.

Lemma CalculateAverageColor_sums (nw ne sw se : Tree) :
  addColor (addColor (addColor (addColor (mkSums 0 0 0 0) nw) ne) sw) se =
  mkSums (u32 (weighted r nw + weighted r ne + weighted r sw + weighted r se))
         (u32 (weighted g nw + weighted g ne + weighted g sw + weighted g se))
         (u32 (weighted b nw + weighted b ne + weighted b sw + weighted b se))
         (u32 (area nw + area ne + area sw + area se)).
Proof.
  change (mkSums 0 0 0 0) with (mkSums (u32 0) (u32 0) (u32 0) (u32 0)).
  rewrite !addColor_sums. rewrite !Z.add_0_l. reflexivity.
Qed.

(** Whenever the wrapped pixel count is not zero, the stored channels are the
    quotients of the wrapped sums, cut to a byte, and the alpha is that of a
    default-constructed pixel. *)
Lemma CalculateAverageColor_modular (nw ne sw se : Tree) :
  u32 (area nw + area ne + area sw + area se) <> 0 ->
  CalculateAverageColor defaultPixel nw ne sw se =
  mkRGBAPixel
    (u8 (u32 (weighted r nw + weighted r ne + weighted r sw + weighted r se)
         / u32 (area nw + area ne + area sw + area se)))
    (u8 (u32 (weighted g nw + weighted g ne + weighted g sw + weighted g se)
         / u32 (area nw + area ne + area sw + area se)))
    (u8 (u32 (weighted b nw + weighted b ne + weighted b sw + weighted b se)
         / u32 (area nw + area ne + area sw + area se)))
    (a defaultPixel).
Proof.
  intros HN. unfold CalculateAverageColor.
  rewrite CalculateAverageColor_sums.
  cbn [sumRed sumGreen sumBlue pixelCount].
  pose proof (u32_range (area nw + area ne + area sw + area se)) as HR.
  replace (0 <? u32 (area nw + area ne + area sw + area se)) with true
    by (symmetry; apply Z.ltb_lt; lia).
  reflexivity.
Qed.

Lemma childOk_area (t : Tree) : childOk t -> 0 <= area t.
Proof.
  destruct t as [|ul lr c nw ne sw se]; cbn; [lia|].
  intros (H1 & H2 & _). apply Z.mul_nonneg_nonneg; lia.
Qed.

Lemma childOk_weighted (chan : Pixel -> Z) (t : Tree) :
  (forall p, pixel_ok p -> 0 <= chan p < 256) ->
  childOk t -> 0 <= weighted chan t <= 255 * area t.
Proof.
  intros Hch Hok. pose proof (childOk_area t Hok) as Ha.
  destruct t as [|ul lr c nw ne sw se]; cbn [weighted]; [cbn; lia|].
  destruct Hok as (_ & _ & Hp). specialize (Hch c Hp).
  set (A := area (mkNode ul lr c nw ne sw se)) in *. nia.
Qed.

(** One channel of the result when nothing wraps. *)
Lemma channel_exact S N :
  0 < N -> 0 <= S <= 255 * N -> 255 * N < 2 ^ 32 ->
  u8 (u32 S / u32 N) = S / N.
Proof.
  intros HN HS Hb.
  rewrite (u32_small S), (u32_small N) by lia.
  unfold u8. apply Z.mod_small. split.
  - apply Z.div_pos; lia.
  - apply Z.div_lt_upper_bound; lia.
Qed.

(** Below the bound [255 * count < 2^32] the stored channels are the
    truncated weighted means. *)
Lemma CalculateAverageColor_exact (nw ne sw se : Tree) :
  childOk nw -> childOk ne -> childOk sw -> childOk se ->
  0 < area nw + area ne + area sw + area se ->
  255 * (area nw + area ne + area sw + area se) < 2 ^ 32 ->
  CalculateAverageColor defaultPixel nw ne sw se =
  mkRGBAPixel (weightedMean r nw ne sw se) (weightedMean g nw ne sw se)
              (weightedMean b nw ne sw se) (a defaultPixel).
Proof.
  intros O1 O2 O3 O4 HN Hb.
  rewrite CalculateAverageColor_modular by (rewrite u32_small; lia).
  assert (Hr : forall p : Pixel, pixel_ok p -> 0 <= r p < 256)
    by (intros p Hp; apply Hp).
  assert (Hg : forall p : Pixel, pixel_ok p -> 0 <= g p < 256)
    by (intros p Hp; apply Hp).
  assert (Hb' : forall p : Pixel, pixel_ok p -> 0 <= b p < 256)
    by (intros p Hp; apply Hp).
  pose proof (childOk_weighted r nw Hr O1). pose proof (childOk_weighted r ne Hr O2).
  pose proof (childOk_weighted r sw Hr O3). pose proof (childOk_weighted r se Hr O4).
  pose proof (childOk_weighted g nw Hg O1). pose proof (childOk_weighted g ne Hg O2).
  pose proof (childOk_weighted g sw Hg O3). pose proof (childOk_weighted g se Hg O4).
  pose proof (childOk_weighted b nw Hb' O1). pose proof (childOk_weighted b ne Hb' O2).
  pose proof (childOk_weighted b sw Hb' O3). pose proof (childOk_weighted b se Hb' O4).
  unfold weightedMean.
  rewrite !channel_exact by lia. reflexivity.
Qed.

(** The stored average is always made of bytes when the children are. *)
Lemma CalculateAverageColor_pixel_ok (nw ne sw se : Tree) :
  childOk nw -> nw <> nullptr ->
  pixel_ok (CalculateAverageColor defaultPixel nw ne sw se).
Proof.
  intros O1 Hnw. unfold CalculateAverageColor.
  destruct (0 <? _).
  - unfold pixel_ok, u8. cbn [r g b].
    repeat split; apply Z.mod_pos_bound; lia.
  - destruct nw as [|ul lr c n1 n2 n3 n4]; [congruence|]. apply O1.
Qed.

End AverageFacts.

(** ** The averages stored by the construction *)

Section BuildAverage.

Context {Alpha : Type}.
Variable defaultPixel : RGBAPixel Alpha.
Local Abbreviation Pixel := (RGBAPixel Alpha).
Local Abbreviation Tree := (Node Alpha).

Lemma Built_area img ul lr (t : Tree) :
  Built defaultPixel img ul lr t ->
  area t = (lr.1 - ul.1 + 1) * (lr.2 - ul.2 + 1).
Proof. destruct 1; reflexivity. Qed.

(** The areas of the children of a built node add up to its own area. *)
Lemma Built_children_area img x0 y0 x1 y1 c (nw ne sw se : Tree) :
  Built defaultPixel img (x0, y0) (x1, y1) (mkNode (x0, y0) (x1, y1) c nw ne sw se) ->
  (x0, y0) <> (x1, y1) ->
  area nw + area ne + area sw + area se = (x1 - x0 + 1) * (y1 - y0 + 1).
Proof.
  intros B Hneq.
  inversion B as [ ? ? ? | ? ? ? ? ? ? ? ? Hok _ midX midY Bnw Bne Nne Bsw Nsw Bse Nse];
    subst; [congruence|].
  midpoints.
  built_children;
    repeat match goal with
           | B : Built _ _ _ _ _ |- _ => apply Built_area in B; rewrite B; clear B
           end; cbn [area fst snd]; nia.
Qed.

Lemma pixels_ok_in_sub (img : PNG Alpha) (ul lr ul' lr' : Z * Z) :
  pixels_ok_in img ul lr ->
  ul.1 <= ul'.1 -> lr'.1 <= lr.1 -> ul.2 <= ul'.2 -> lr'.2 <= lr.2 ->
  pixels_ok_in img ul' lr'.
Proof. intros H ? ? ? ? x y Hx Hy. apply H; lia. Qed.

Ltac sub_pixels_ok :=
  match goal with
  | H : @pixels_ok_in _ _ _ _ |- @pixels_ok_in _ _ _ _ =>
      apply (pixels_ok_in_sub _ _ _ _ _ H); cbn [fst snd]; lia
  end.

Lemma Built_childOk img ul lr (t : Tree) :
  Built defaultPixel img ul lr t -> pixels_ok_in img ul lr -> childOk t.
Proof.
  induction 1 as [x0 y0 Hxy | x0 y0 x1 y1 nw ne sw se Hok Hneq midX midY
                          Bnw IHnw Bne IHne Nne Bsw IHsw Nsw Bse IHse Nse];
    intros Himg.
  - unfold region_ok in Hxy. cbn in *. repeat split; try lia;
      apply Himg; cbn; lia.
  - unfold region_ok in Hok. cbn [fst snd] in Hok. cbn [childOk fst snd].
    split; [lia|]. split; [lia|].
    apply CalculateAverageColor_pixel_ok.
    + apply IHnw. midpoints. sub_pixels_ok.
    + apply Built_shape in Bnw. destruct Bnw as (? & ? & ? & ? & ? & ->).
      discriminate.
Qed.

Lemma Built_area_pos img ul lr (t : Tree) :
  Built defaultPixel img ul lr t -> 0 < area t.
Proof.
  intros B. rewrite (Built_area _ _ _ _ B).
  apply Built_region in B. unfold region_ok in B. nia.
Qed.

(** Every child slot of a built node holds a child that
    [CalculateAverageColor] accepts, and the children have the area of the
    node between them. *)
Lemma Built_split_children img x0 y0 x1 y1 (nw ne sw se : Tree) :
  pixels_ok_in img (x0, y0) (x1, y1) ->
  region_ok (x0, y0) (x1, y1) ->
  (x0, y0) <> (x1, y1) ->
  Built defaultPixel img (x0, y0) ((x0 + x1) / 2, (y0 + y1) / 2) nw ->
  (x0 < x1 -> Built defaultPixel img ((x0 + x1) / 2 + 1, y0) (x1, (y0 + y1) / 2) ne) ->
  (x0 = x1 -> ne = nullptr) ->
  (y0 < y1 -> Built defaultPixel img (x0, (y0 + y1) / 2 + 1) ((x0 + x1) / 2, y1) sw) ->
  (y0 = y1 -> sw = nullptr) ->
  (x0 < x1 -> y0 < y1 ->
   Built defaultPixel img ((x0 + x1) / 2 + 1, (y0 + y1) / 2 + 1) (x1, y1) se) ->
  (x0 = x1 \/ y0 = y1 -> se = nullptr) ->
  childOk nw /\ childOk ne /\ childOk sw /\ childOk se /\
  area nw + area ne + area sw + area se = (x1 - x0 + 1) * (y1 - y0 + 1) /\
  0 < area nw + area ne + area sw + area se.
Proof.
  intros Himg Hok Hneq Bnw Bne Nne Bsw Nsw Bse Nse.
  assert (HA : area nw + area ne + area sw + area se =
               (x1 - x0 + 1) * (y1 - y0 + 1)).
  { apply (Built_children_area img x0 y0 x1 y1
             (CalculateAverageColor defaultPixel nw ne sw se));
      [|assumption].
    apply Built_split; assumption. }
  assert (HP : 0 < (x1 - x0 + 1) * (y1 - y0 + 1))
    by (unfold region_ok in Hok; cbn [fst snd] in Hok; nia).
  set (midX := (x0 + x1) / 2) in *. set (midY := (y0 + y1) / 2) in *.
  midpoints.
  built_children; repeat split; try exact I; try lia;
    (eapply Built_childOk; [eassumption | sub_pixels_ok]).
Qed.

(** Every internal node that covers fewer than [2^32 / 255] pixels stores the
    truncated weighted mean of the averages of its children. *)
Lemma Built_meanOfChildren img ul lr (t : Tree) :
  Built defaultPixel img ul lr t ->
  pixels_ok_in img ul lr ->
  ForallInternal (fun n => 255 * area n < 2 ^ 32 -> meanOfChildren n) t.
Proof.
  induction 1 as [x0 y0 Hxy | x0 y0 x1 y1 nw ne sw se Hok Hneq midX midY
                          Bnw IHnw Bne IHne Nne Bsw IHsw Nsw Bse IHse Nse];
    intros Himg.
  - cbn [ForallInternal IsLeaf]. repeat split; auto; discriminate.
  - cbn [ForallInternal]. split.
    + intros _ Hbound. cbn [area fst snd] in Hbound. cbn [meanOfChildren].
      destruct (Built_split_children img x0 y0 x1 y1 nw ne sw se)
        as (O1 & O2 & O3 & O4 & HA & HP); auto.
      rewrite CalculateAverageColor_exact by (auto; lia).
      cbn [r g b]. auto.
    + midpoints.
      built_children; repeat split; try exact I;
        match goal with
        | IH : @pixels_ok_in _ _ ?u ?l -> @ForallInternal _ _ ?c
          |- @ForallInternal _ _ ?c => apply IH; sub_pixels_ok
        end.
Qed.

(** The stored average of every internal node has the alpha of a
    default-constructed pixel. *)
Lemma Built_alpha img ul lr (t : Tree) :
  Built defaultPixel img ul lr t ->
  ForallInternal (fun n => a (avgOf defaultPixel n) = a defaultPixel) t.
Proof.
  induction 1 as [x0 y0 Hxy | x0 y0 x1 y1 nw ne sw se Hok Hneq midX midY
                          Bnw IHnw Bne IHne Nne Bsw IHsw Nsw Bse IHse Nse].
  - cbn [ForallInternal IsLeaf]. repeat split; auto; discriminate.
  - cbn [ForallInternal]. split.
    + intros _. cbn [avgOf].
      destruct (decide (u32 (area nw + area ne + area sw + area se) = 0))
        as [Hz|Hnz]; [|rewrite CalculateAverageColor_modular by assumption;
                        reflexivity].
      unfold CalculateAverageColor. rewrite CalculateAverageColor_sums.
      cbn [pixelCount]. rewrite Hz. cbn [Z.ltb Z.compare].
      assert (HA : area nw + area ne + area sw + area se =
                   (x1 - x0 + 1) * (y1 - y0 + 1)).
      { apply (Built_children_area img x0 y0 x1 y1
                 (CalculateAverageColor defaultPixel nw ne sw se));
          [|assumption].
        apply Built_split; assumption. }
      rewrite HA in Hz.
      pose proof (Built_IsLeaf _ _ _ _ _ Bnw) as Hleaf.
      destruct nw as [|ul' lr' c' n1 n2 n3 n4]; [reflexivity|].
      cbn [ForallInternal] in IHnw. destruct IHnw as [IHnw _].
      apply IHnw. rewrite Hleaf. apply pair_eqb_neq. intros [= Ex Ey].
      unfold region_ok in Hok. cbn [fst snd] in Hok.
      assert (x1 - x0 <= 1) by (subst midX; Z.div_mod_to_equations; lia).
      assert (y1 - y0 <= 1) by (subst midY; Z.div_mod_to_equations; lia).
      assert (0 < (x1 - x0 + 1) * (y1 - y0 + 1) <= 4) by nia.
      rewrite u32_small in Hz by lia. lia.
    + built_children; repeat split; auto; exact I.
Qed.

(** On an image of one colour, a node that covers fewer than [2^32 / 255]
    pixels stores that colour in its three channels. *)
Lemma Built_uniform img (c : Pixel) ul lr (t : Tree) :
  pixel_ok c ->
  (forall x y, getPixel img x y = c) ->
  Built defaultPixel img ul lr t ->
  255 * area t < 2 ^ 32 ->
  r (avgOf defaultPixel t) = r c /\ g (avgOf defaultPixel t) = g c /\
  b (avgOf defaultPixel t) = b c.
Proof.
  intros Hc Himg.
  assert (Hpx : forall ul lr, pixels_ok_in img ul lr)
    by (intros ? ? x y _ _; rewrite Himg; exact Hc).
  induction 1 as [x0 y0 Hxy | x0 y0 x1 y1 nw ne sw se Hok Hneq midX midY
                          Bnw IHnw Bne IHne Nne Bsw IHsw Nsw Bse IHse Nse];
    intros Hbound.
  - cbn. rewrite Himg. auto.
  - cbn [avgOf]. cbn [area fst snd] in Hbound.
    destruct (Built_split_children img x0 y0 x1 y1 nw ne sw se)
      as (O1 & O2 & O3 & O4 & HA & HP); auto.
    rewrite CalculateAverageColor_exact by (auto; lia).
    cbn [r g b]. unfold weightedMean.
    assert (Hw : forall (chan : Pixel -> Z) (n : Tree),
               childOk n ->
               (n <> nullptr -> 255 * area n < 2 ^ 32 ->
                chan (avgOf defaultPixel n) = chan c) ->
               area n <= area nw + area ne + area sw + area se ->
               weighted chan n = chan c * area n).
    { intros chan n On Hn Hle. destruct n as [|u l p n1 n2 n3 n4];
        [cbn; lia|].
      cbn [weighted]. f_equal. apply Hn; [discriminate | lia]. }
    pose proof (childOk_area _ O1). pose proof (childOk_area _ O2).
    pose proof (childOk_area _ O3). pose proof (childOk_area _ O4).
    assert (Inw : 255 * area nw < 2 ^ 32 ->
                  r (avgOf defaultPixel nw) = r c /\
                  g (avgOf defaultPixel nw) = g c /\
                  b (avgOf defaultPixel nw) = b c) by exact IHnw.
    assert (Ine : ne <> nullptr -> 255 * area ne < 2 ^ 32 ->
                  r (avgOf defaultPixel ne) = r c /\
                  g (avgOf defaultPixel ne) = g c /\
                  b (avgOf defaultPixel ne) = b c).
    { intros Hn. apply IHne. unfold region_ok in Hok. cbn [fst snd] in Hok.
      destruct (decide (x0 = x1)) as [E|E]; [apply Nne in E; congruence | lia]. }
    assert (Isw : sw <> nullptr -> 255 * area sw < 2 ^ 32 ->
                  r (avgOf defaultPixel sw) = r c /\
                  g (avgOf defaultPixel sw) = g c /\
                  b (avgOf defaultPixel sw) = b c).
    { intros Hn. apply IHsw. unfold region_ok in Hok. cbn [fst snd] in Hok.
      destruct (decide (y0 = y1)) as [E|E]; [apply Nsw in E; congruence | lia]. }
    assert (Ise : se <> nullptr -> 255 * area se < 2 ^ 32 ->
                  r (avgOf defaultPixel se) = r c /\
                  g (avgOf defaultPixel se) = g c /\
                  b (avgOf defaultPixel se) = b c).
    { intros Hn. unfold region_ok in Hok. cbn [fst snd] in Hok.
      destruct (decide (x0 = x1 \/ y0 = y1)) as [E|E];
        [apply Nse in E; congruence | apply IHse; lia]. }
    rewrite !(Hw r), !(Hw g), !(Hw b); try assumption; try lia;
      try (intros ? ?; try apply Inw; try apply Ine; try apply Isw;
           try apply Ise; assumption).
    set (N := area nw + area ne + area sw + area se) in *.
    assert (Hdiv : forall k,
               (k * area nw + k * area ne + k * area sw + k * area se) / N = k).
    { intros k. replace (k * area nw + k * area ne + k * area sw + k * area se)
        with (k * N) by (subst N; ring).
      apply Z.div_mul. lia. }
    rewrite !Hdiv. auto.
Qed.

End BuildAverage.

(** ** The construction and the rendering of a fresh tree *)

(** C1. For every source image (each dimension between 1 and 2^31), the
    constructor returns a tree, and [Render(1)] on that unpruned tree gives a
    pixel buffer with the dimensions of the image and, at every coordinate,
    the pixel of the image. *)
Theorem Render_reproduces_image {Alpha : Type} (defaultPixel : RGBAPixel Alpha)
        (img : PNG Alpha) (fuel : nat) :
  image_ok img ->
  (Z.to_nat (png_width img + png_height img) <= fuel)%nat ->
  exists t,
    QTree_of_PNG defaultPixel fuel img = Some t /\
    PNG_eq (Render defaultPixel t 1) img.
Proof.
  intros Himg Hfuel.
  destruct (QTree_of_PNG_Built defaultPixel img fuel Himg Hfuel)
    as (t & Ht & Hw & Hh & B).
  exists t. split; [exact Ht|].
  destruct Himg as [HW HH].
  unfold PNG_eq, Render.
  destruct (RenderNode_dims (root t) 1
              (blankPNG defaultPixel (u32 (width t * 1)) (u32 (height t * 1))))
    as [Dw Dh].
  rewrite Dw, Dh. cbn [blankPNG png_width png_height].
  rewrite !Z.mul_1_r, Hw, Hh.
  rewrite !u32_small by lia.
  split; [reflexivity|]. split; [reflexivity|].
  intros x y Hx Hy.
  rewrite RenderNode_paintedBy.
  - rewrite (Built_paintedBy _ _ _ _ _ B).
    destruct (inRect_reflect (0, 0) (png_width img - 1, png_height img - 1) x y)
      as [_|Hn]; [reflexivity|].
    cbn [fst snd] in Hn. lia.
  - eapply Built_coordsFit; eassumption.
  - unfold blankPNG. cbn [png_width]. lia.
  - unfold blankPNG. cbn [png_height]. lia.
Qed.

Lemma Render_reproduces_image_witness :
  image_ok image2x2 /\
  (Z.to_nat (png_width image2x2 + png_height image2x2) <= 4)%nat /\
  exists t, QTree_of_PNG white 4 image2x2 = Some t /\
            PNG_eq (Render white t 1) image2x2.
Proof.
  assert (H1 : image_ok image2x2) by (unfold image_ok; cbn; lia).
  assert (H2 : (Z.to_nat (png_width image2x2 + png_height image2x2) <= 4)%nat)
    by (cbn; lia).
  split; [exact H1|]. split; [exact H2|].
  exact (Render_reproduces_image white image2x2 4 H1 H2).
Defined.

(** C5. For every source image of width [W] and height [H], the leaf
    rectangles of the freshly built tree tile [[0,W) x [0,H)]: each pixel of
    that region lies in exactly one leaf rectangle, no pixel outside it lies
    in any, and every leaf rectangle has its corners in increasing order. *)
Theorem leaves_tile_image {Alpha : Type} (defaultPixel : RGBAPixel Alpha)
        (img : PNG Alpha) (fuel : nat) :
  image_ok img ->
  (Z.to_nat (png_width img + png_height img) <= fuel)%nat ->
  exists t,
    QTree_of_PNG defaultPixel fuel img = Some t /\
    (forall x y,
        coverCount x y (leaves (root t)) =
        if inRect (0, 0) (png_width img - 1, png_height img - 1) x y
        then 1%nat else 0%nat) /\
    Forall (fun l => l.1.1.1 <= l.1.2.1 /\ l.1.1.2 <= l.1.2.2) (leaves (root t)).
Proof.
  intros Himg Hfuel.
  destruct (QTree_of_PNG_Built defaultPixel img fuel Himg Hfuel)
    as (t & Ht & Hw & Hh & B).
  exists t. split; [exact Ht|]. split.
  - apply (Built_coverCount _ _ _ _ _ B).
  - apply (Built_leaves_increasing _ _ _ _ _ B).
Qed.

Lemma leaves_tile_image_witness :
  image_ok image2x2 /\
  (Z.to_nat (png_width image2x2 + png_height image2x2) <= 4)%nat /\
  exists t,
    QTree_of_PNG white 4 image2x2 = Some t /\
    (forall x y,
        coverCount x y (leaves (root t)) =
        if inRect (0, 0) (png_width image2x2 - 1, png_height image2x2 - 1) x y
        then 1%nat else 0%nat) /\
    Forall (fun l => l.1.1.1 <= l.1.2.1 /\ l.1.1.2 <= l.1.2.2) (leaves (root t)).
Proof.
  assert (H1 : image_ok image2x2) by (unfold image_ok; cbn; lia).
  assert (H2 : (Z.to_nat (png_width image2x2 + png_height image2x2) <= 4)%nat)
    by (cbn; lia).
  split; [exact H1|]. split; [exact H2|].
  exact (leaves_tile_image white image2x2 4 H1 H2).
Defined.

(** ** The stored averages *)

(** X21. For every source image whose channels are bytes, every internal node
    of the freshly built tree whose rectangle covers fewer than [2^32 / 255]
    pixels stores, in each colour channel, the integer-truncated
    area-weighted mean of the stored averages of its direct children. *)
Theorem Built_average_is_weighted_mean {Alpha : Type}
        (defaultPixel : RGBAPixel Alpha) (img : PNG Alpha) (fuel : nat) :
  image_ok img ->
  pixels_ok img ->
  (Z.to_nat (png_width img + png_height img) <= fuel)%nat ->
  exists t,
    QTree_of_PNG defaultPixel fuel img = Some t /\
    ForallInternal (fun n => 255 * area n < 2 ^ 32 -> meanOfChildren n) (root t).
Proof.
  intros Himg Hpx Hfuel.
  destruct (QTree_of_PNG_Built defaultPixel img fuel Himg Hfuel)
    as (t & Ht & Hw & Hh & B).
  exists t. split; [exact Ht|].
  apply (Built_meanOfChildren _ _ _ _ _ B Hpx).
Qed.


Lemma image2x2_pixels_ok : pixels_ok image2x2.
Proof.
  intros x y Hx Hy. cbn in Hx, Hy.
  unfold pixel_ok, image2x2, gray. cbn [getPixel r g b]. lia.
Qed.

Lemma Built_average_is_weighted_mean_witness :
  image_ok image2x2 /\ pixels_ok image2x2 /\
  (Z.to_nat (png_width image2x2 + png_height image2x2) <= 4)%nat /\
  exists t,
    QTree_of_PNG white 4 image2x2 = Some t /\
    ForallInternal (fun n => 255 * area n < 2 ^ 32 -> meanOfChildren n) (root t).
Proof.
  assert (H1 : image_ok image2x2) by (unfold image_ok; cbn; lia).
  assert (H2 : (Z.to_nat (png_width image2x2 + png_height image2x2) <= 4)%nat)
    by (cbn; lia).
  split; [exact H1|]. split; [exact image2x2_pixels_ok|]. split; [exact H2|].
  exact (Built_average_is_weighted_mean white image2x2 4 H1
           image2x2_pixels_ok H2).
Defined.

(** C2. The stored average of an internal node is not always the weighted
    mean of the averages of its children.  On the all-white image of
    8192 x 4096 pixels the constructor returns a tree whose root is an
    internal node; the weighted mean of the red channel of its four children
    is 255, and the root stores 127, because the sum [255 * 2^25] of the red
    channel wraps modulo [2^32] in the [unsigned int] accumulator. *)
Theorem Built_average_wraps_on_large_image :
  exists t,
    QTree_of_PNG white (Z.to_nat 12288) (whiteImage 8192 4096) = Some t /\
    IsLeaf (root t) = false /\
    r (avgOf white (root t)) = 127 /\
    match root t with
    | nullptr => False
    | mkNode _ _ _ nw ne sw se => weightedMean r nw ne sw se = 255
    end /\
    ~ ForallInternal meanOfChildren (root t).
Proof.
  destruct (QTree_of_PNG_Built white (whiteImage 8192 4096) (Z.to_nat 12288))
    as (t & Ht & Hw & Hh & B).
  { unfold image_ok. cbn. lia. }
  { cbn [whiteImage png_width png_height]. lia. }
  exists t. split; [exact Ht|]. clear Ht Hw Hh.
  destruct t as [rt w h]. cbn [root] in *.
  cbn [whiteImage png_width png_height] in B.
  change (8192 - 1) with 8191 in B. change (4096 - 1) with 4095 in B.
  pose proof (Built_IsLeaf _ _ _ _ _ B) as Hleaf.
  change (pair_eqb (0, 0) (8191, 4095)) with false in Hleaf.
  inversion B as [ | x0 y0 x1 y1 nw ne sw se Hok Hneq midX midY
                     Bnw Bne Nne Bsw Nsw Bse Nse Ex Ey Et ].
  subst x0 y0 x1 y1 midX midY rt.
  change ((0 + 8191) / 2) with 4095 in *.
  change ((0 + 4095) / 2) with 2047 in *.
  change (4095 + 1) with 4096 in *. change (2047 + 1) with 2048 in *.
  assert (Hx : 0 < 8191) by lia. assert (Hy : 0 < 4095) by lia.
  specialize (Bne Hx). specialize (Bsw Hy). specialize (Bse Hx Hy).
  assert (Hwhite : pixel_ok white) by (unfold pixel_ok; cbn; lia).
  assert (Hall : forall x y, getPixel (whiteImage 8192 4096) x y = white)
    by reflexivity.
  assert (Hchild : forall ul lr (c : Node Z),
             Built white (whiteImage 8192 4096) ul lr c ->
             (lr.1 - ul.1 + 1) * (lr.2 - ul.2 + 1) = 8388608 ->
             weighted r c = 255 * 8388608 /\ area c = 8388608).
  { intros ul lr c Bc Ha.
    pose proof (Built_area _ _ _ _ _ Bc) as Hac. rewrite Ha in Hac.
    destruct (Built_uniform white (whiteImage 8192 4096) white ul lr c
                Hwhite Hall Bc) as (Hr & _); [rewrite Hac; lia|].
    split; [|exact Hac].
    destruct c as [|u l p n1 n2 n3 n4]; [discriminate Hac|].
    cbn [weighted]. cbn [avgOf] in Hr. rewrite Hr, Hac. reflexivity. }
  destruct (Hchild _ _ _ Bnw) as [W1 A1]; [reflexivity|].
  destruct (Hchild _ _ _ Bne) as [W2 A2]; [reflexivity|].
  destruct (Hchild _ _ _ Bsw) as [W3 A3]; [reflexivity|].
  destruct (Hchild _ _ _ Bse) as [W4 A4]; [reflexivity|].
  assert (Hroot : r (CalculateAverageColor white nw ne sw se) = 127).
  { rewrite CalculateAverageColor_modular;
      rewrite ?W1, ?W2, ?W3, ?W4, ?A1, ?A2, ?A3, ?A4; [reflexivity|].
    vm_compute. discriminate. }
  split; [exact Hleaf|]. split; [exact Hroot|]. split.
  { unfold weightedMean. rewrite W1, W2, W3, W4, A1, A2, A3, A4.
    vm_compute. reflexivity. }
  intros HF. cbn [ForallInternal] in HF.
  destruct HF as [HF _]. specialize (HF Hleaf).
  cbn [meanOfChildren] in HF. destruct HF as [HF _].
  rewrite Hroot in HF. unfold weightedMean in HF.
  rewrite W1, W2, W3, W4, A1, A2, A3, A4 in HF. vm_compute in HF.
  discriminate HF.
Qed.

Lemma wrapped_quotient_below N :
  2 ^ 32 <= 255 * N -> 0 < N < 2 ^ 32 ->
  0 <= u32 (255 * N) / u32 N < 254.
Proof.
  intros Hb HN. rewrite (u32_small N) by lia.
  assert (Hw : 0 <= u32 (255 * N) <= 255 * N - 2 ^ 32).
  { unfold u32. pose proof (Z.mod_pos_bound (255 * N) (2 ^ 32) ltac:(lia)).
    split; [lia|].
    rewrite Z.mod_eq by lia.
    assert (1 <= 255 * N / 2 ^ 32) by (apply Z.div_le_lower_bound; lia).
    nia. }
  split.
  - apply Z.div_pos; lia.
  - apply Z.div_lt_upper_bound; lia.
Qed.

(** C10. The accumulators of [CalculateAverageColor] hold the weighted
    channel sums and the pixel count modulo [2^32].  Whenever the wrapped
    count is not zero, each stored channel is the quotient of the wrapped
    sum by the wrapped count, cut to a byte.  When [255 * count] is below
    [2^32] that is the truncated weighted mean; and for every count from
    [2^32 / 255] up to [2^32] there are children with that count (a white
    row) for which the stored red channel is not the weighted mean, so the
    bound cannot be relaxed. *)
Theorem average_sums_wrap {Alpha : Type} (defaultPixel : RGBAPixel Alpha) :
  (forall nw ne sw se : Node Alpha,
      addColor (addColor (addColor (addColor (mkSums 0 0 0 0) nw) ne) sw) se =
      mkSums (u32 (weighted r nw + weighted r ne + weighted r sw + weighted r se))
             (u32 (weighted g nw + weighted g ne + weighted g sw + weighted g se))
             (u32 (weighted b nw + weighted b ne + weighted b sw + weighted b se))
             (u32 (area nw + area ne + area sw + area se))) /\
  (forall nw ne sw se : Node Alpha,
      u32 (area nw + area ne + area sw + area se) <> 0 ->
      CalculateAverageColor defaultPixel nw ne sw se =
      mkRGBAPixel
        (u8 (u32 (weighted r nw + weighted r ne + weighted r sw + weighted r se)
             / u32 (area nw + area ne + area sw + area se)))
        (u8 (u32 (weighted g nw + weighted g ne + weighted g sw + weighted g se)
             / u32 (area nw + area ne + area sw + area se)))
        (u8 (u32 (weighted b nw + weighted b ne + weighted b sw + weighted b se)
             / u32 (area nw + area ne + area sw + area se)))
        (a defaultPixel)) /\
  (forall nw ne sw se : Node Alpha,
      childOk nw -> childOk ne -> childOk sw -> childOk se ->
      0 < area nw + area ne + area sw + area se ->
      255 * (area nw + area ne + area sw + area se) < 2 ^ 32 ->
      r (CalculateAverageColor defaultPixel nw ne sw se) =
        weightedMean r nw ne sw se /\
      g (CalculateAverageColor defaultPixel nw ne sw se) =
        weightedMean g nw ne sw se /\
      b (CalculateAverageColor defaultPixel nw ne sw se) =
        weightedMean b nw ne sw se) /\
  (forall (N : Z) (al : Alpha),
      2 ^ 32 <= 255 * N -> N < 2 ^ 32 ->
      childOk (whiteRow N al) /\ area (whiteRow N al) = N /\
      r (CalculateAverageColor defaultPixel (whiteRow N al) nullptr nullptr nullptr)
      <> weightedMean r (whiteRow N al) nullptr nullptr nullptr).
Proof.
  split; [apply CalculateAverageColor_sums|].
  split; [apply CalculateAverageColor_modular|].
  split.
  - intros nw ne sw se O1 O2 O3 O4 HN Hb.
    rewrite CalculateAverageColor_exact by assumption. cbn [r g b]. auto.
  - intros N al Hb HN.
    assert (HA : area (whiteRow N al) = N) by (cbn; lia).
    split; [unfold childOk, pixel_ok; cbn; lia|]. split; [exact HA|].
    rewrite CalculateAverageColor_modular.
    2:{ rewrite HA. cbn [area]. rewrite !Z.add_0_r, u32_small by lia. lia. }
    cbn [r]. unfold weightedMean.
    change (weighted r (whiteRow N al)) with (255 * area (whiteRow N al)).
    rewrite HA. cbn [weighted area]. rewrite !Z.add_0_r.
    pose proof (wrapped_quotient_below N Hb ltac:(lia)) as Hq.
    unfold u8. rewrite Z.mod_small by lia.
    replace ((255 * N) / N) with 255; [lia|].
    symmetry. apply Z.div_mul. lia.
Qed.

Lemma average_sums_wrap_witness :
  (u32 (area (grayLeaf 0 0 10) + area (grayLeaf 1 0 20) + area (grayLeaf 0 1 30)
        + area (grayLeaf 1 1 40)) <> 0 /\
   CalculateAverageColor white (grayLeaf 0 0 10) (grayLeaf 1 0 20)
                         (grayLeaf 0 1 30) (grayLeaf 1 1 40) = gray 25) /\
  (2 ^ 32 <= 255 * 2 ^ 25 /\ 2 ^ 25 < 2 ^ 32 /\
   r (CalculateAverageColor white (whiteRow (2 ^ 25) 1) nullptr nullptr nullptr)
   <> weightedMean r (whiteRow (2 ^ 25) 1) nullptr nullptr nullptr).
Proof.
  destruct (average_sums_wrap white) as (_ & Hmod & _ & Htight).
  assert (H1 : u32 (area (grayLeaf 0 0 10) + area (grayLeaf 1 0 20) +
                    area (grayLeaf 0 1 30) + area (grayLeaf 1 1 40)) <> 0)
    by (vm_compute; discriminate).
  assert (H2 : 2 ^ 32 <= 255 * 2 ^ 25) by lia.
  assert (H3 : 2 ^ 25 < 2 ^ 32) by lia.
  split.
  - split; [exact H1|].
    exact (Hmod (grayLeaf 0 0 10) (grayLeaf 1 0 20) (grayLeaf 0 1 30)
                (grayLeaf 1 1 40) H1).
  - split; [exact H2|]. split; [exact H3|].
    exact (proj2 (proj2 (Htight (2 ^ 25) 1 H2 H3))).
Defined.

Section AverageChannels.

Context {Alpha : Type}.
Variable defaultPixel : RGBAPixel Alpha.
Local Abbreviation Tree := (Node Alpha).




End AverageChannels.



(** ** Horizontal flip *)

Section FlipFacts.

Context {Alpha : Type}.
Local Abbreviation Pixel := (RGBAPixel Alpha).
Local Abbreviation Tree := (Node Alpha).

(** The update of the coordinates touches the rectangle of the node only,
    and the flip leaves the rectangle of the node it is called on alone, so
    the two commute. *)
Lemma FlipNodeHorizontal_Update W (t : Tree) :
  FlipNodeHorizontal W (UpdateCoordinatesAfterFlip W t) =
  UpdateCoordinatesAfterFlip W (FlipNodeHorizontal W t).
Proof. destruct t; reflexivity. Qed.

(** [FlipNodeHorizontal] in the order of the source: swap the children,
    update the coordinates of each child, then flip each child. *)
Lemma FlipNodeHorizontal_unfold W ul lr c (nw ne sw se : Tree) :
  FlipNodeHorizontal W (mkNode ul lr c nw ne sw se) =
  mkNode ul lr c
         (FlipNodeHorizontal W (UpdateCoordinatesAfterFlip W ne))
         (FlipNodeHorizontal W (UpdateCoordinatesAfterFlip W nw))
         (FlipNodeHorizontal W (UpdateCoordinatesAfterFlip W se))
         (FlipNodeHorizontal W (UpdateCoordinatesAfterFlip W sw)).
Proof. rewrite !FlipNodeHorizontal_Update. reflexivity. Qed.

Lemma isU32_range z : isU32 z = true -> 0 <= z < 2 ^ 32.
Proof. unfold isU32. rewrite andb_true_iff, Z.leb_le, Z.ltb_lt. tauto. Qed.

Lemma UpdateCoordinatesAfterFlip_twice W (t : Tree) :
  coordsU32 t = true ->
  UpdateCoordinatesAfterFlip W (UpdateCoordinatesAfterFlip W t) = t.
Proof.
  destruct t as [|[x0 y0] [x1 y1] c nw ne sw se]; [reflexivity|].
  cbn [coordsU32 fst snd]. rewrite !andb_true_iff.
  intros [[[[[[[H1 H2] H3] H4] _] _] _] _].
  apply isU32_range in H1, H3.
  cbn [UpdateCoordinatesAfterFlip fst snd].
  rewrite !u32_sub_sub by assumption. reflexivity.
Qed.

Lemma coordsU32_Update W (t : Tree) :
  coordsU32 t = true -> coordsU32 (UpdateCoordinatesAfterFlip W t) = true.
Proof.
  destruct t as [|[x0 y0] [x1 y1] c nw ne sw se]; [reflexivity|].
  cbn [coordsU32 UpdateCoordinatesAfterFlip fst snd]. rewrite !andb_true_iff.
  intros [[[[[[[H1 H2] H3] H4] H5] H6] H7] H8].
  repeat split; try assumption; unfold isU32;
    apply andb_true_iff; rewrite Z.leb_le, Z.ltb_lt;
    match goal with |- 0 <= u32 ?z /\ _ => pose proof (u32_range z) end; lia.
Qed.

Lemma coordsU32_Flip W (t : Tree) :
  coordsU32 t = true -> coordsU32 (FlipNodeHorizontal W t) = true.
Proof.
  induction t as [|ul lr c nw IH1 ne IH2 sw IH3 se IH4]; [reflexivity|].
  cbn [coordsU32 FlipNodeHorizontal]. rewrite !andb_true_iff.
  intros [[[[[[[H1 H2] H3] H4] H5] H6] H7] H8].
  repeat split; try assumption; apply coordsU32_Update; auto.
Qed.

(** Flipping a subtree twice gives the subtree back. *)
Lemma FlipNodeHorizontal_twice W (t : Tree) :
  coordsU32 t = true ->
  FlipNodeHorizontal W (FlipNodeHorizontal W t) = t.
Proof.
  induction t as [|ul lr c nw IH1 ne IH2 sw IH3 se IH4]; [reflexivity|].
  cbn [coordsU32]. rewrite !andb_true_iff.
  intros [[[[[[[H1 H2] H3] H4] H5] H6] H7] H8].
  cbn [FlipNodeHorizontal].
  rewrite !FlipNodeHorizontal_Update.
  rewrite IH1, IH2, IH3, IH4 by assumption.
  rewrite !UpdateCoordinatesAfterFlip_twice by assumption.
  reflexivity.
Qed.

End FlipFacts.

(** C6. For every tree whose coordinates are [unsigned int] values, two
    calls of [FlipHorizontal] give the tree back, node for node, and so every
    rendering of it, at scale 1 and at any other scale, is restored bit for
    bit. *)
Theorem FlipHorizontal_twice {Alpha : Type} (defaultPixel : RGBAPixel Alpha)
        (t : QTree Alpha) :
  coordsU32 (root t) = true ->
  FlipHorizontal (FlipHorizontal t) = t /\
  Render defaultPixel (FlipHorizontal (FlipHorizontal t)) 1 =
  Render defaultPixel t 1 /\
  forall scale,
    Render defaultPixel (FlipHorizontal (FlipHorizontal t)) scale =
    Render defaultPixel t scale.
Proof.
  intros Hc.
  assert (E : FlipHorizontal (FlipHorizontal t) = t).
  { destruct t as [rt w h]. unfold FlipHorizontal. cbn [root width height] in *.
    rewrite FlipNodeHorizontal_twice by assumption. reflexivity. }
  rewrite E. auto.
Qed.

Lemma tree2x2_built : QTree_of_PNG white 4 image2x2 = Some tree2x2.
Proof. vm_compute. reflexivity. Qed.

Lemma FlipHorizontal_twice_witness :
  coordsU32 (root tree2x2) = true /\
  FlipHorizontal (FlipHorizontal tree2x2) = tree2x2 /\
  Render white (FlipHorizontal (FlipHorizontal tree2x2)) 1 =
  Render white tree2x2 1 /\
  forall scale,
    Render white (FlipHorizontal (FlipHorizontal tree2x2)) scale =
    Render white tree2x2 scale.
Proof.
  assert (H : coordsU32 (root tree2x2) = true) by reflexivity.
  split; [exact H|]. exact (FlipHorizontal_twice white tree2x2 H).
Defined.

Section PaintFacts.

Context {Alpha : Type}.
Local Abbreviation Pixel := (RGBAPixel Alpha).
Local Abbreviation Tree := (Node Alpha).

Lemma rectIn_spec ul lr ul' lr' :
  rectIn ul lr ul' lr' = true <->
  ul'.1 <= ul.1 /\ lr.1 <= lr'.1 /\ ul'.2 <= ul.2 /\ lr.2 <= lr'.2.
Proof. unfold rectIn. rewrite !andb_true_iff, !Z.leb_le. tauto. Qed.

Lemma rectDisjoint_spec ul lr ul' lr' :
  rectDisjoint ul lr ul' lr' = true <->
  lr.1 < ul'.1 \/ lr'.1 < ul.1 \/ lr.2 < ul'.2 \/ lr'.2 < ul.2.
Proof. unfold rectDisjoint. rewrite !orb_true_iff, !Z.ltb_lt. tauto. Qed.

(** A tree paints inside the rectangle of its root only. *)
Lemma paintedBy_inside (t : Tree) x y p :
  rectsOk t = true -> paintedBy t x y = Some p ->
  match t with
  | nullptr => False
  | mkNode ul lr _ _ _ _ _ => ul.1 <= x <= lr.1 /\ ul.2 <= y <= lr.2
  end.
Proof.
  induction t as [|ul lr c nw IH1 ne IH2 sw IH3 se IH4]; [discriminate|].
  cbn [rectsOk paintedBy]. rewrite !andb_true_iff.
  intros (((((((((((((((Hx & Hy) & I1) & I2) & I3) & I4) & _) & _) & _) & _)
            & _) & _) & R1) & R2) & R3) & R4).
  destruct (IsLeaf _).
  - destruct (inRect_reflect ul lr x y); [tauto | discriminate].
  - assert (Hc : forall ch : Tree,
               childIn ul lr ch = true ->
               (rectsOk ch = true -> paintedBy ch x y = Some p ->
                match ch with
                | nullptr => False
                | mkNode ul' lr' _ _ _ _ _ =>
                    ul'.1 <= x <= lr'.1 /\ ul'.2 <= y <= lr'.2
                end) ->
               rectsOk ch = true -> paintedBy ch x y = Some p ->
               ul.1 <= x <= lr.1 /\ ul.2 <= y <= lr.2).
    { intros ch Hin IH Hr Hp. specialize (IH Hr Hp).
      destruct ch as [|ul' lr' ? ? ? ? ?]; [tauto|].
      cbn [childIn] in Hin. apply rectIn_spec in Hin. lia. }
    pose proof (Hc se I4 IH4 R4) as H4. pose proof (Hc sw I3 IH3 R3) as H3.
    pose proof (Hc ne I2 IH2 R2) as H2. pose proof (Hc nw I1 IH1 R1) as H1.
    clear Hc IH1 IH2 IH3 IH4.
    destruct (paintedBy se x y); [exact H4|].
    destruct (paintedBy sw x y); [exact H3|].
    destruct (paintedBy ne x y); [exact H2|].
    exact H1.
Qed.

(** Two children with disjoint rectangles never paint the same pixel. *)
Lemma paintedBy_disjoint (c d : Tree) x y p q :
  childrenDisjoint c d = true -> rectsOk c = true -> rectsOk d = true ->
  paintedBy c x y = Some p -> paintedBy d x y = Some q -> False.
Proof.
  intros Hd Rc Rd Pc Pd.
  pose proof (paintedBy_inside c x y p Rc Pc) as Ic.
  pose proof (paintedBy_inside d x y q Rd Pd) as Id.
  destruct c as [|ul lr ? ? ? ? ?]; [tauto|].
  destruct d as [|ul' lr' ? ? ? ? ?]; [tauto|].
  cbn [childrenDisjoint] in Hd. apply rectDisjoint_spec in Hd. lia.
Qed.

(** The children of a node whose rectangles are in order paint a pixel in
    the same way whatever the order in which they are drawn. *)
Lemma paintedBy_children_any_order ul lr (c : Pixel) (nw ne sw se : Tree) x y :
  rectsOk (mkNode ul lr c nw ne sw se) = true ->
  match paintedBy sw x y with
  | Some p => Some p
  | None =>
      match paintedBy se x y with
      | Some p => Some p
      | None =>
          match paintedBy nw x y with
          | Some p => Some p
          | None => paintedBy ne x y
          end
      end
  end =
  match paintedBy se x y with
  | Some p => Some p
  | None =>
      match paintedBy sw x y with
      | Some p => Some p
      | None =>
          match paintedBy ne x y with
          | Some p => Some p
          | None => paintedBy nw x y
          end
      end
  end.
Proof.
  cbn [rectsOk]. rewrite !andb_true_iff.
  intros (((((((((((((((Hx & Hy) & I1) & I2) & I3) & I4) & D12) & D13) & D14)
            & D23) & D24) & D34) & R1) & R2) & R3) & R4).
  destruct (paintedBy se x y) as [p4|] eqn:E4;
    destruct (paintedBy sw x y) as [p3|] eqn:E3;
    destruct (paintedBy ne x y) as [p2|] eqn:E2;
    destruct (paintedBy nw x y) as [p1|] eqn:E1; try reflexivity; exfalso;
    first [ exact (paintedBy_disjoint sw se x y _ _ D34 R3 R4 E3 E4)
          | exact (paintedBy_disjoint nw ne x y _ _ D12 R1 R2 E1 E2) ].
Qed.

Lemma childrenDisjoint_sym (c d : Tree) :
  childrenDisjoint c d = true -> childrenDisjoint d c = true.
Proof.
  destruct c as [|ul lr ? ? ? ? ?], d as [|ul' lr' ? ? ? ? ?]; try reflexivity.
  cbn [childrenDisjoint]. rewrite !rectDisjoint_spec. tauto.
Qed.

End PaintFacts.

Section MirrorFacts.

Context {Alpha : Type}.
Local Abbreviation Pixel := (RGBAPixel Alpha).
Local Abbreviation Tree := (Node Alpha).

Variables W H : Z.
Hypothesis W_range : 0 < W <= 2 ^ 31.

(** What a flip makes of a subtree below the root: its parent updates its
    coordinates and then flips it. *)
Local Abbreviation mirror c :=
  (UpdateCoordinatesAfterFlip W (FlipNodeHorizontal W c)).

Local Abbreviation inImage c := (childIn (0, 0) (W - 1, H - 1) c = true).

Lemma IsLeaf_mirror ul lr ul' lr' (p p' : Pixel) (nw ne sw se : Tree) :
  IsLeaf (mkNode ul' lr' p' (mirror ne) (mirror nw) (mirror se) (mirror sw)) =
  IsLeaf (mkNode ul lr p nw ne sw se).
Proof. destruct nw, ne, sw, se; reflexivity. Qed.

Lemma mirror_node ul lr (c : Pixel) (nw ne sw se : Tree) :
  mirror (mkNode ul lr c nw ne sw se) =
  mkNode (u32 (u32 (W - 1) - lr.1), ul.2) (u32 (u32 (W - 1) - ul.1), lr.2) c
         (mirror ne) (mirror nw) (mirror se) (mirror sw).
Proof. reflexivity. Qed.

Lemma mirror_coord z : 0 <= z <= W - 1 -> u32 (u32 (W - 1) - z) = W - 1 - z.
Proof. intros Hz. rewrite (u32_small (W - 1)) by lia. apply u32_small. lia. Qed.

Lemma childIn_trans ul lr (c : Tree) :
  childIn ul lr c = true -> rectIn ul lr (0, 0) (W - 1, H - 1) = true ->
  inImage c.
Proof.
  destruct c as [|ul' lr' ? ? ? ? ?]; [reflexivity|]. cbn [childIn].
  rewrite !rectIn_spec. cbn [fst snd]. lia.
Qed.

Lemma mirror_childIn ul lr (c : Tree) :
  ul.1 <= lr.1 -> rectIn ul lr (0, 0) (W - 1, H - 1) = true ->
  rectsOk c = true -> childIn ul lr c = true ->
  childIn (W - 1 - lr.1, ul.2) (W - 1 - ul.1, lr.2) (mirror c) = true.
Proof.
  destruct c as [|ul' lr' p nw ne sw se]; [reflexivity|].
  intros Hle Hin Hr Hc. rewrite mirror_node. cbn [childIn rectsOk] in *.
  rewrite !andb_true_iff in Hr.
  destruct Hr as (((((((((((((((Hx & Hy) & _) & _) & _) & _) & _) & _) & _)
                      & _) & _) & _) & _) & _) & _) & _).
  apply Z.leb_le in Hx, Hy.
  rewrite rectIn_spec in Hin, Hc. cbn [fst snd] in Hin.
  rewrite !mirror_coord by lia.
  apply rectIn_spec. cbn [fst snd]. lia.
Qed.

Lemma mirror_inImage (c : Tree) :
  rectsOk c = true -> inImage c -> inImage (mirror c).
Proof.
  destruct c as [|ul' lr' p nw ne sw se]; [reflexivity|].
  intros Hr Hc. rewrite mirror_node. cbn [childIn rectsOk] in *.
  rewrite !andb_true_iff in Hr.
  destruct Hr as (((((((((((((((Hx & Hy) & _) & _) & _) & _) & _) & _) & _)
                      & _) & _) & _) & _) & _) & _) & _).
  apply Z.leb_le in Hx, Hy.
  rewrite rectIn_spec in Hc. cbn [fst snd] in Hc.
  rewrite !mirror_coord by lia.
  apply rectIn_spec. cbn [fst snd]. lia.
Qed.

Lemma mirror_disjoint (c d : Tree) :
  rectsOk c = true -> rectsOk d = true -> inImage c -> inImage d ->
  childrenDisjoint c d = true ->
  childrenDisjoint (mirror c) (mirror d) = true.
Proof.
  destruct c as [|ul lr p nw ne sw se]; [reflexivity|].
  destruct d as [|ul' lr' p' nw' ne' sw' se']; [reflexivity|].
  intros Hr Hr' Hc Hc' Hd. rewrite !mirror_node.
  cbn [childIn childrenDisjoint rectsOk] in *.
  rewrite !andb_true_iff in Hr, Hr'.
  destruct Hr as (((((((((((((((Hx & Hy) & _) & _) & _) & _) & _) & _) & _)
                      & _) & _) & _) & _) & _) & _) & _).
  destruct Hr' as (((((((((((((((Hx' & Hy') & _) & _) & _) & _) & _) & _) & _)
                      & _) & _) & _) & _) & _) & _) & _).
  apply Z.leb_le in Hx, Hy, Hx', Hy'.
  rewrite rectIn_spec in Hc, Hc'. cbn [fst snd] in Hc, Hc'.
  rewrite rectDisjoint_spec in Hd.
  rewrite !mirror_coord by lia.
  apply rectDisjoint_spec. cbn [fst snd]. lia.
Qed.

(** The flip keeps the invariant of the rectangles. *)
Lemma mirror_rectsOk (c : Tree) :
  rectsOk c = true -> inImage c -> rectsOk (mirror c) = true.
Proof.
  induction c as [|ul lr p nw IH1 ne IH2 sw IH3 se IH4]; [reflexivity|].
  intros Hr Hc. rewrite mirror_node.
  pose proof Hr as Hr0.
  cbn [rectsOk] in Hr. rewrite !andb_true_iff in Hr.
  destruct Hr as (((((((((((((((Hx & Hy) & I1) & I2) & I3) & I4) & D12) & D13)
                      & D14) & D23) & D24) & D34) & R1) & R2) & R3) & R4).
  cbn [childIn] in Hc. pose proof Hc as Hc0.
  rewrite rectIn_spec in Hc. cbn [fst snd] in Hc.
  pose proof Hx as Hx'. apply Z.leb_le in Hx'.
  pose proof Hy as Hy'. apply Z.leb_le in Hy'.
  assert (J1 := childIn_trans _ _ _ I1 Hc0).
  assert (J2 := childIn_trans _ _ _ I2 Hc0).
  assert (J3 := childIn_trans _ _ _ I3 Hc0).
  assert (J4 := childIn_trans _ _ _ I4 Hc0).
  cbn [rectsOk fst snd].
  rewrite !mirror_coord by lia.
  rewrite IH1, IH2, IH3, IH4 by assumption.
  rewrite !(mirror_childIn ul lr) by assumption.
  rewrite (mirror_disjoint ne nw), (mirror_disjoint ne se),
    (mirror_disjoint ne sw), (mirror_disjoint nw se), (mirror_disjoint nw sw),
    (mirror_disjoint se sw)
    by (try assumption; apply childrenDisjoint_sym; assumption).
  rewrite Hy. replace (W - 1 - lr.1 <=? W - 1 - ul.1) with true
    by (symmetry; apply Z.leb_le; lia).
  reflexivity.
Qed.

(** What a flipped subtree paints at a column is what the subtree painted at
    the mirrored column. *)
Lemma mirror_paintedBy (c : Tree) x y :
  rectsOk c = true -> inImage c ->
  paintedBy (mirror c) (W - 1 - x) y = paintedBy c x y.
Proof.
  induction c as [|ul lr p nw IH1 ne IH2 sw IH3 se IH4]; [reflexivity|].
  intros Hr Hc. rewrite mirror_node.
  pose proof Hr as Hr0.
  cbn [rectsOk] in Hr. rewrite !andb_true_iff in Hr.
  destruct Hr as (((((((((((((((Hx & Hy) & I1) & I2) & I3) & I4) & D12) & D13)
                      & D14) & D23) & D24) & D34) & R1) & R2) & R3) & R4).
  cbn [childIn] in Hc. pose proof Hc as Hc0.
  rewrite rectIn_spec in Hc. cbn [fst snd] in Hc.
  apply Z.leb_le in Hx, Hy.
  assert (J1 := childIn_trans _ _ _ I1 Hc0).
  assert (J2 := childIn_trans _ _ _ I2 Hc0).
  assert (J3 := childIn_trans _ _ _ I3 Hc0).
  assert (J4 := childIn_trans _ _ _ I4 Hc0).
  cbn [paintedBy].
  rewrite (IsLeaf_mirror ul lr _ _ p p nw ne sw se).
  destruct (IsLeaf (mkNode ul lr p nw ne sw se)).
  - cbn [fst snd]. rewrite !mirror_coord by lia.
    destruct (inRect_reflect (W - 1 - lr.1, ul.2) (W - 1 - ul.1, lr.2)
                             (W - 1 - x) y) as [Hi|Hi];
      destruct (inRect_reflect ul lr x y) as [Hj|Hj];
      cbn [fst snd] in *; try reflexivity; exfalso; lia.
  - rewrite IH1, IH2, IH3, IH4 by assumption.
    apply (paintedBy_children_any_order ul lr p nw ne sw se x y Hr0).
Qed.

Lemma countNodes_mirror (c : Tree) : countNodes (mirror c) = countNodes c.
Proof.
  induction c as [|ul lr p nw IH1 ne IH2 sw IH3 se IH4]; [reflexivity|].
  rewrite mirror_node. cbn [countNodes]. rewrite IH1, IH2, IH3, IH4. lia.
Qed.

End MirrorFacts.

Section FlipRoot.

Context {Alpha : Type}.
Local Abbreviation Pixel := (RGBAPixel Alpha).
Local Abbreviation Tree := (Node Alpha).

Variables W H : Z.
Hypothesis W_range : 0 < W <= 2 ^ 31.
Hypothesis H_range : 0 < H <= 2 ^ 31.

Lemma rectsOk_coordsFit (t : Tree) :
  rectsOk t = true -> childIn (0, 0) (W - 1, H - 1) t = true -> coordsFit t.
Proof.
  induction t as [|ul lr p nw IH1 ne IH2 sw IH3 se IH4]; [intros; exact I|].
  intros Hr Hc.
  cbn [rectsOk] in Hr. rewrite !andb_true_iff in Hr.
  destruct Hr as (((((((((((((((Hx & Hy) & I1) & I2) & I3) & I4) & _) & _)
                      & _) & _) & _) & _) & R1) & R2) & R3) & R4).
  cbn [childIn] in Hc. pose proof Hc as Hc0.
  rewrite rectIn_spec in Hc. cbn [fst snd] in Hc.
  apply Z.leb_le in Hx, Hy.
  cbn [coordsFit]. repeat split; try lia;
    [apply IH1 | apply IH2 | apply IH3 | apply IH4]; try assumption;
    eapply childIn_trans; eassumption.
Qed.

(** The flip at the root: the rectangle of the root is the whole image and
    stays; the children are mirrored. *)
Lemma FlipNodeHorizontal_root_rectsOk (c : Pixel) (nw ne sw se : Tree) :
  rectsOk (mkNode (0, 0) (W - 1, H - 1) c nw ne sw se) = true ->
  rectsOk (FlipNodeHorizontal W (mkNode (0, 0) (W - 1, H - 1) c nw ne sw se))
  = true.
Proof.
  intros Hr. cbn [rectsOk] in Hr. rewrite !andb_true_iff in Hr.
  destruct Hr as (((((((((((((((Hx & Hy) & I1) & I2) & I3) & I4) & D12) & D13)
                      & D14) & D23) & D24) & D34) & R1) & R2) & R3) & R4).
  cbn [FlipNodeHorizontal rectsOk].
  rewrite !(mirror_rectsOk W H W_range) by assumption.
  rewrite !(mirror_inImage W H W_range) by assumption.
  rewrite (mirror_disjoint W H W_range ne nw),
    (mirror_disjoint W H W_range ne se), (mirror_disjoint W H W_range ne sw),
    (mirror_disjoint W H W_range nw se), (mirror_disjoint W H W_range nw sw),
    (mirror_disjoint W H W_range se sw)
    by (try assumption; apply childrenDisjoint_sym; assumption).
  rewrite Hx, Hy. reflexivity.
Qed.

Lemma FlipNodeHorizontal_root_paintedBy (c : Pixel) (nw ne sw se : Tree) x y :
  rectsOk (mkNode (0, 0) (W - 1, H - 1) c nw ne sw se) = true ->
  paintedBy (FlipNodeHorizontal W (mkNode (0, 0) (W - 1, H - 1) c nw ne sw se))
            (W - 1 - x) y =
  paintedBy (mkNode (0, 0) (W - 1, H - 1) c nw ne sw se) x y.
Proof.
  intros Hr0. pose proof Hr0 as Hr.
  cbn [rectsOk] in Hr. rewrite !andb_true_iff in Hr.
  destruct Hr as (((((((((((((((Hx & Hy) & I1) & I2) & I3) & I4) & D12) & D13)
                      & D14) & D23) & D24) & D34) & R1) & R2) & R3) & R4).
  cbn [FlipNodeHorizontal paintedBy].
  rewrite (IsLeaf_mirror W (0, 0) (W - 1, H - 1) _ _ c c nw ne sw se).
  destruct (IsLeaf (mkNode (0, 0) (W - 1, H - 1) c nw ne sw se)).
  - destruct (inRect_reflect (0, 0) (W - 1, H - 1) (W - 1 - x) y) as [Hi|Hi];
      destruct (inRect_reflect (0, 0) (W - 1, H - 1) x y) as [Hj|Hj];
      cbn [fst snd] in *; try reflexivity; exfalso; lia.
  - rewrite !(mirror_paintedBy W H W_range) by assumption.
    apply (paintedBy_children_any_order (0, 0) (W - 1, H - 1) c nw ne sw se
                                        x y Hr0).
Qed.

End FlipRoot.

Lemma treeOk_inv {Alpha : Type} (t : QTree Alpha) :
  treeOk t = true ->
  0 < width t <= 2 ^ 31 /\ 0 < height t <= 2 ^ 31 /\
  rectsOk (root t) = true /\
  (root t = nullptr \/
   exists c nw ne sw se,
     root t = mkNode (0, 0) (width t - 1, height t - 1) c nw ne sw se).
Proof.
  unfold treeOk. rewrite !andb_true_iff, !Z.ltb_lt, !Z.leb_le.
  intros (((((Hw1 & Hw2) & Hh1) & Hh2) & Hroot) & Hr).
  repeat split; try lia; try assumption.
  destruct (root t) as [|ul lr c nw ne sw se]; [left; reflexivity|].
  right. apply andb_true_iff in Hroot. destruct Hroot as [E1 E2].
  apply pair_eqb_eq in E1, E2. subst. eauto 10.
Qed.

(** X22. For every tree that satisfies the invariant of the data model (the
    root spans the image, corners in increasing order, children inside their
    parent and disjoint), [FlipHorizontal] keeps the width and the height,
    the pixel that [Render(1)] showed at column [x] is shown at column
    [width - 1 - x] of the same row afterwards, the flipped tree satisfies the
    invariant again, so every rectangle is still in increasing order, and the
    tree has as many nodes as before. *)
Theorem FlipHorizontal_mirrors {Alpha : Type} (defaultPixel : RGBAPixel Alpha)
        (t : QTree Alpha) :
  treeOk t = true ->
  width (FlipHorizontal t) = width t /\
  height (FlipHorizontal t) = height t /\
  png_width (Render defaultPixel (FlipHorizontal t) 1) =
    png_width (Render defaultPixel t 1) /\
  png_height (Render defaultPixel (FlipHorizontal t) 1) =
    png_height (Render defaultPixel t 1) /\
  (forall x y,
      0 <= x < width t -> 0 <= y < height t ->
      getPixel (Render defaultPixel (FlipHorizontal t) 1) (width t - 1 - x) y =
      getPixel (Render defaultPixel t 1) x y) /\
  treeOk (FlipHorizontal t) = true /\
  countNodes (root (FlipHorizontal t)) = countNodes (root t).
Proof.
  intros Hok.
  destruct (treeOk_inv t Hok) as (HW & HH & Hr & Hroot).
  destruct t as [rt w h]. cbn [root width height] in *.
  unfold FlipHorizontal, Render. cbn [root width height].
  split; [reflexivity|]. split; [reflexivity|].
  rewrite !Z.mul_1_r, !u32_small by lia.
  destruct (RenderNode_dims (FlipNodeHorizontal w rt) 1 (blankPNG defaultPixel w h))
    as [-> ->].
  destruct (RenderNode_dims rt 1 (blankPNG defaultPixel w h)) as [-> ->].
  split; [reflexivity|]. split; [reflexivity|].
  destruct Hroot as [->|(c & nw & ne & sw & se & ->)].
  - split; [reflexivity|]. split; [exact Hok | reflexivity].
  - pose proof (FlipNodeHorizontal_root_rectsOk w h HW c nw ne sw se Hr) as Hr'.
    split; [|split].
    + intros x y Hx Hy.
      rewrite !RenderNode_paintedBy.
      * rewrite (FlipNodeHorizontal_root_paintedBy w h HW c nw ne sw se x y Hr).
        reflexivity.
      * apply (rectsOk_coordsFit w h HW HH); [exact Hr|].
        cbn [childIn]. apply rectIn_spec. cbn [fst snd]. lia.
      * unfold blankPNG. cbn [png_width]. lia.
      * unfold blankPNG. cbn [png_height]. lia.
      * apply (rectsOk_coordsFit w h HW HH); [exact Hr'|].
        cbn [FlipNodeHorizontal childIn]. apply rectIn_spec. cbn [fst snd]. lia.
      * unfold blankPNG. cbn [png_width]. lia.
      * unfold blankPNG. cbn [png_height]. lia.
    + unfold treeOk. cbn [root width height].
      rewrite Hr'. cbn [FlipNodeHorizontal].
      rewrite !andb_true_iff, !Z.ltb_lt, !Z.leb_le.
      repeat split; try lia; apply pair_eqb_eq; reflexivity.
    + cbn [FlipNodeHorizontal countNodes].
      rewrite !(countNodes_mirror w). lia.
Qed.

Lemma FlipHorizontal_mirrors_witness :
  treeOk tree2x2 = true /\
  getPixel (Render white (FlipHorizontal tree2x2) 1) (2 - 1 - 0) 1 =
  getPixel (Render white tree2x2 1) 0 1.
Proof.
  assert (H : treeOk tree2x2 = true) by reflexivity.
  split; [exact H|].
  destruct (FlipHorizontal_mirrors white tree2x2 H) as (_ & _ & _ & _ & Hm & _).
  apply (Hm 0 1); cbn; lia.
Defined.

(** The invariant holds of every freshly built tree, and pruning keeps it. *)
Lemma QTree_of_PNG_treeOk {Alpha : Type} (defaultPixel : RGBAPixel Alpha)
      (img : PNG Alpha) (fuel : nat) :
  image_ok img ->
  (Z.to_nat (png_width img + png_height img) <= fuel)%nat ->
  exists t, QTree_of_PNG defaultPixel fuel img = Some t /\ treeOk t = true.
Proof.
  intros Himg Hfuel.
  destruct (QTree_of_PNG_Built defaultPixel img fuel Himg Hfuel)
    as (t & Ht & Hw & Hh & B).
  exists t. split; [exact Ht|].
  destruct Himg as [HW HH].
  unfold treeOk. rewrite (Built_rectsOk _ _ _ _ _ B), Hw, Hh.
  destruct (Built_shape _ _ _ _ _ B) as (c & nw & ne & sw & se & ->).
  rewrite !andb_true_iff, !Z.ltb_lt, !Z.leb_le.
  repeat split; try lia; apply pair_eqb_eq; reflexivity.
Qed.

(** ** Pruning *)

Section PruneFacts.

Context {Alpha : Type}.
Context {Dist : Type}.
Variable distanceTo : RGBAPixel Alpha -> RGBAPixel Alpha -> Dist.
Variable leD : Dist -> Dist -> bool.
Variable tolerance : Dist.
Local Abbreviation Tree := (Node Alpha).

(** Pruning keeps the rectangle and the average of the node it is called
    on. *)
Lemma PruneNode_shape ul lr c (nw ne sw se : Tree) :
  exists nw' ne' sw' se',
    PruneNode distanceTo leD (mkNode ul lr c nw ne sw se) tolerance =
    mkNode ul lr c nw' ne' sw' se'.
Proof.
  cbn [PruneNode]. destruct (IsLeaf _); [eauto 10|].
  destruct (CanPrune _ _ _ _ _); eauto 10.
Qed.

Lemma childIn_PruneNode ul lr (c : Tree) :
  childIn ul lr (PruneNode distanceTo leD c tolerance) = childIn ul lr c.
Proof.
  destruct c as [|ul' lr' p nw ne sw se]; [reflexivity|].
  destruct (PruneNode_shape ul' lr' p nw ne sw se) as (? & ? & ? & ? & ->).
  reflexivity.
Qed.

Lemma childrenDisjoint_PruneNode (c d : Tree) :
  childrenDisjoint (PruneNode distanceTo leD c tolerance)
                   (PruneNode distanceTo leD d tolerance) =
  childrenDisjoint c d.
Proof.
  destruct c as [|ul lr p nw ne sw se]; [reflexivity|].
  destruct (PruneNode_shape ul lr p nw ne sw se) as (? & ? & ? & ? & ->).
  destruct d as [|ul' lr' p' nw' ne' sw' se']; [reflexivity|].
  destruct (PruneNode_shape ul' lr' p' nw' ne' sw' se') as (? & ? & ? & ? & ->).
  reflexivity.
Qed.

Lemma PruneNode_rectsOk (t : Tree) :
  rectsOk t = true -> rectsOk (PruneNode distanceTo leD t tolerance) = true.
Proof.
  induction t as [|ul lr p nw IH1 ne IH2 sw IH3 se IH4]; [reflexivity|].
  intros Hr. cbn [PruneNode]. destruct (IsLeaf _); [exact Hr|].
  cbn [rectsOk] in Hr. rewrite !andb_true_iff in Hr.
  destruct Hr as (((((((((((((((Hx & Hy) & I1) & I2) & I3) & I4) & D12) & D13)
                      & D14) & D23) & D24) & D34) & R1) & R2) & R3) & R4).
  destruct (CanPrune _ _ _ _ _).
  - cbn [rectsOk ClearSubtree childIn childrenDisjoint]. rewrite Hx, Hy.
    reflexivity.
  - cbn [rectsOk]. rewrite !childIn_PruneNode, !childrenDisjoint_PruneNode.
    rewrite Hx, Hy, I1, I2, I3, I4, D12, D13, D14, D23, D24, D34.
    rewrite IH1, IH2, IH3, IH4 by assumption. reflexivity.
Qed.

(** Pruning keeps the invariant of the data model. *)
Lemma Prune_treeOk (t : QTree Alpha) :
  treeOk t = true -> treeOk (Prune distanceTo leD t tolerance) = true.
Proof.
  unfold treeOk, Prune. cbn [root width height].
  rewrite !andb_true_iff.
  intros (((((Hw1 & Hw2) & Hh1) & Hh2) & Hroot) & Hr).
  rewrite PruneNode_rectsOk by assumption.
  repeat split; try assumption.
  destruct (root t) as [|ul lr p nw ne sw se]; [reflexivity|].
  destruct (PruneNode_shape ul lr p nw ne sw se) as (? & ? & ? & ? & ->).
  exact Hroot.
Qed.

End PruneFacts.

Lemma tree4x1_built : QTree_of_PNG white 5 image4x1 = Some tree4x1.
Proof. vm_compute. reflexivity. Qed.

(** C3, where the code departs from it. On the tree of the image with the row
    [0 20 30 30], with any metric and tolerance for which gray levels that
    differ by 10 are within tolerance and the levels 0 and 20 are not: the
    leaf of colour 0 is farther than the tolerance from the average 20 that
    the root stores, so not every leaf beneath the root passes the test
    ([CanPrune] on the unpruned tree is false), and yet [Prune] collapses the
    root to a single leaf, since it judges the root by its two children after
    they have been collapsed to their averages 10 and 30. *)
Theorem Prune_judges_collapsed_children
        {Dist : Type} (distanceTo : RGBAPixel Z -> RGBAPixel Z -> Dist)
        (leD : Dist -> Dist -> bool) (tolerance : Dist) :
  leD (distanceTo (gray 0) (gray 10)) tolerance = true ->
  leD (distanceTo (gray 20) (gray 10)) tolerance = true ->
  leD (distanceTo (gray 30) (gray 30)) tolerance = true ->
  leD (distanceTo (gray 10) (gray 20)) tolerance = true ->
  leD (distanceTo (gray 30) (gray 20)) tolerance = true ->
  leD (distanceTo (gray 0) (gray 20)) tolerance = false ->
  QTree_of_PNG white 5 image4x1 = Some tree4x1 /\
  CanPrune distanceTo leD (root tree4x1) (avgOf white (root tree4x1)) tolerance
  = false /\
  root (Prune distanceTo leD tree4x1 tolerance) =
  mkNode (0, 0) (3, 0) (gray 20) nullptr nullptr nullptr nullptr.
Proof.
  intros H1 H2 H3 H4 H5 H6.
  split; [exact tree4x1_built|]. split.
  - cbn. unfold gray in *. rewrite H6. reflexivity.
  - cbn. unfold gray in *. rewrite H1, H2, H3. cbn. rewrite H4, H5. reflexivity.
Qed.

Lemma Prune_judges_collapsed_children_witness :
  Z.leb (manhattan (gray 0) (gray 20)) 30 = false /\
  CanPrune manhattan Z.leb (root tree4x1) (avgOf white (root tree4x1)) 30
  = false /\
  root (Prune manhattan Z.leb tree4x1 30) =
  mkNode (0, 0) (3, 0) (gray 20) nullptr nullptr nullptr nullptr.
Proof.
  assert (H6 : Z.leb (manhattan (gray 0) (gray 20)) 30 = false) by reflexivity.
  split; [exact H6|].
  exact (proj2 (Prune_judges_collapsed_children
                  manhattan Z.leb 30 eq_refl eq_refl eq_refl eq_refl eq_refl H6)).
Defined.

(** ** Rotation *)

(** Four rotations restore the width and the height of every tree. *)
Lemma RotateCCW_four_dimensions {Alpha : Type} (t : QTree Alpha) :
  width (RotateCCW (RotateCCW (RotateCCW (RotateCCW t)))) = width t /\
  height (RotateCCW (RotateCCW (RotateCCW (RotateCCW t)))) = height t.
Proof. split; reflexivity. Qed.

(** One rotation of the tree of the 2 x 2 image with rows [10 20] and
    [30 40]: the leaves get the rectangles [(1,0)-(1,0)], [(0,0)-(1,0)],
    [(1,1)-(1,0)] and [(0,1)-(1,0)], two of them with the lower corner above
    the upper one, and the rendering shows the row [10 10] over a row that
    is not drawn at all. *)
Lemma RotateCCW_2x2 :
  RotateCCW tree2x2 =
  mkQTree (mkNode (0, 0) (1, 1) (gray 25)
                  (mkNode (1, 0) (1, 0) (gray 30) nullptr nullptr nullptr nullptr)
                  (mkNode (0, 0) (1, 0) (gray 10) nullptr nullptr nullptr nullptr)
                  (mkNode (1, 1) (1, 0) (gray 40) nullptr nullptr nullptr nullptr)
                  (mkNode (0, 1) (1, 0) (gray 20) nullptr nullptr nullptr nullptr))
          2 2.
Proof. vm_compute. reflexivity. Qed.

(** C4, where the code departs from it. On the tree of the 2 x 2 image with
    rows [10 20] and [30 40], four calls of [RotateCCW] restore the width and
    the height, but [Render(1)] then shows the colour 20 at the pixel [(0,0)],
    where the original rendering has the colour 10, and leaves the pixel
    [(0,1)], originally of colour 30, as the fresh canvas had it. *)
Theorem RotateCCW_four_times_2x2 :
  QTree_of_PNG white 4 image2x2 = Some tree2x2 /\
  width (RotateCCW (RotateCCW (RotateCCW (RotateCCW tree2x2)))) = width tree2x2 /\
  height (RotateCCW (RotateCCW (RotateCCW (RotateCCW tree2x2)))) = height tree2x2 /\
  getPixel (Render white tree2x2 1) 0 0 = gray 10 /\
  getPixel (Render white
                   (RotateCCW (RotateCCW (RotateCCW (RotateCCW tree2x2)))) 1)
           0 0 = gray 20 /\
  getPixel (Render white tree2x2 1) 0 1 = gray 30 /\
  getPixel (Render white
                   (RotateCCW (RotateCCW (RotateCCW (RotateCCW tree2x2)))) 1)
           0 1 = white /\
  ~ PNG_eq (Render white
                   (RotateCCW (RotateCCW (RotateCCW (RotateCCW tree2x2)))) 1)
           (Render white tree2x2 1).
Proof.
  split; [exact tree2x2_built|].
  split; [reflexivity|]. split; [reflexivity|].
  split; [vm_compute; reflexivity|]. split; [vm_compute; reflexivity|].
  split; [vm_compute; reflexivity|]. split; [vm_compute; reflexivity|].
  intros (_ & _ & Hpx).
  specialize (Hpx 0 0 ltac:(vm_compute; split; congruence)
                      ltac:(vm_compute; split; congruence)).
  vm_compute in Hpx. discriminate Hpx.
Qed.

(** C7. [FlipHorizontal] does not mirror the rendering of every tree.  Build
    the tree of the column [10 20], prune it to a single leaf and rotate it:
    the tree has width 2 and height 1, and its one node, the root, has the
    rectangle [(0,0)-(0,1)].  [Render(1)] shows [15] at column 0 and an
    undrawn pixel at column 1.  After [FlipHorizontal] the rendering is the
    same, so the pixel of column 0 is not found at column [width - 1 - 0]:
    the flip remaps the rectangles of the children of a node and never the
    rectangle of the root. *)
Theorem FlipHorizontal_after_RotateCCW :
  QTree_of_PNG white 3 image1x2 = Some tree1x2 /\
  treeOk tree1x2 = true /\
  let t := RotateCCW (Prune manhattan Z.leb tree1x2 1000) in
  width t = 2 /\ height t = 1 /\
  root t = mkNode (0, 0) (0, 1) (gray 15) nullptr nullptr nullptr nullptr /\
  treeOk t = false /\
  redRows (Render white t 1) = [[15; 255]] /\
  redRows (Render white (FlipHorizontal t) 1) = [[15; 255]] /\
  root (FlipHorizontal t) = root t /\
  getPixel (Render white (FlipHorizontal t) 1) (width t - 1 - 0) 0 <>
  getPixel (Render white t 1) 0 0.
Proof.
  split; [vm_compute; reflexivity|]. split; [reflexivity|].
  cbv zeta.
  split; [reflexivity|]. split; [reflexivity|].
  split; [vm_compute; reflexivity|]. split; [vm_compute; reflexivity|].
  split; [vm_compute; reflexivity|]. split; [vm_compute; reflexivity|].
  split; [vm_compute; reflexivity|].
  vm_compute. discriminate.
Qed.

(** ** Worked examples *)

(** The example of the specification: a 2 x 2 image rendered at scale 2 gives
    a 4 x 4 buffer in which each 2 x 2 quadrant has one colour of the
    source. *)
Example Render_2x2_scale_2 :
  redRows (Render white tree2x2 2) =
  [[10; 10; 20; 20]; [10; 10; 20; 20]; [30; 30; 40; 40]; [30; 30; 40; 40]].
Proof. vm_compute. reflexivity. Qed.

Example FlipHorizontal_2x2 :
  redRows (Render white (FlipHorizontal tree2x2) 1) = [[20; 10]; [40; 30]].
Proof. vm_compute. reflexivity. Qed.

(** Pruning [tree2x2] with a tolerance that admits every colour leaves one
    leaf with the average of the root; with tolerance 0 nothing is pruned. *)
Example Prune_2x2_all :
  redRows (Render white (Prune manhattan Z.leb tree2x2 1000) 1) =
  [[25; 25]; [25; 25]].
Proof. vm_compute. reflexivity. Qed.

Example Prune_2x2_none : Prune manhattan Z.leb tree2x2 0 = tree2x2.
Proof. vm_compute. reflexivity. Qed.

(** ** Trees in a store *)

(** Set reasoning from the hypotheses about sets alone. *)
Ltac keep_sets :=
  repeat match goal with
         | H : ?T |- _ =>
             lazymatch T with
             | _ ∈ _ => fail
             | _ ∉ _ => fail
             | _ ## _ => fail
             | _ ⊆ _ => fail
             | @eq positive _ _ => fail
             | not (@eq positive _ _) => fail
             | _ => clear H
             end
         end.

Ltac sets := keep_sets; set_solver.

Section StoreFacts.

Context {Alpha : Type}.

Local Abbreviation Store := (gmap positive (Cell Alpha)).
Local Abbreviation LT := (LTree Alpha).

(** A store that agrees with [h] on the nodes of a tree holds the tree as
    well. *)
Lemma holds_agree (h h' : Store) (t : LT) :
  holds h t -> (forall l, l ∈ locs t -> h' !! l = h !! l) -> holds h' t.
Proof.
  induction t as [|l ul lr c nw IH1 ne IH2 sw IH3 se IH4]; [auto|].
  cbn [holds locs]. intros (Hl & H1 & H2 & H3 & H4) Hag.
  split; [rewrite Hag by sets; exact Hl|].
  repeat split; [apply IH1 | apply IH2 | apply IH3 | apply IH4];
    try assumption; intros l' Hl'; apply Hag; sets.
Qed.

Lemma holds_allocated (h : Store) (t : LT) l :
  holds h t -> l ∈ locs t -> is_Some (h !! l).
Proof.
  induction t as [|l0 ul lr c nw IH1 ne IH2 sw IH3 se IH4];
    cbn [holds locs]; [sets|].
  intros (Hl & H1 & H2 & H3 & H4) Hin.
  apply elem_of_union in Hin. destruct Hin as [Hin|Hin].
  - apply elem_of_singleton in Hin. subst. eauto.
  - repeat (apply elem_of_union in Hin; destruct Hin as [Hin|Hin]); auto.
Qed.

Lemma leafCell_IsLeaf ul lr c (nw ne sw se : LT) :
  leafCell (mkCell ul lr c (lroot nw) (lroot ne) (lroot sw) (lroot se)) =
  IsLeaf (mkNode ul lr c (erase nw) (erase ne) (erase sw) (erase se)).
Proof. destruct nw, ne, sw, se; reflexivity. Qed.

Lemma ldepth_children l ul lr c (nw ne sw se : LT) fuel :
  (ldepth (LNode l ul lr c nw ne sw se) < S fuel)%nat ->
  (ldepth nw < fuel)%nat /\ (ldepth ne < fuel)%nat /\
  (ldepth sw < fuel)%nat /\ (ldepth se < fuel)%nat.
Proof. cbn [ldepth]. lia. Qed.

(** Rendering from the store is rendering the tree that the store holds. *)
Lemma RenderNodeH_erase fuel (h : Store) (t : LT) scale canvas :
  holds h t -> (ldepth t < fuel)%nat ->
  RenderNodeH fuel h (lroot t) scale canvas =
  Some (RenderNode (erase t) scale canvas).
Proof.
  revert t canvas.
  induction fuel as [|fuel IH]; intros t canvas Hh Hd; [lia|].
  destruct t as [|l ul lr c nw ne sw se]; [reflexivity|].
  apply ldepth_children in Hd. destruct Hd as (D1 & D2 & D3 & D4).
  cbn [holds] in Hh. destruct Hh as (Hl & H1 & H2 & H3 & H4).
  cbn [RenderNodeH lroot erase RenderNode]. rewrite Hl. cbn [mbind option_bind].
  rewrite leafCell_IsLeaf. cbn [upLeft lowRight avg NW NE SW SE].
  destruct (IsLeaf _); [reflexivity|].
  rewrite (IH nw) by assumption. cbn [mbind option_bind].
  rewrite (IH ne) by assumption. cbn [mbind option_bind].
  rewrite (IH sw) by assumption. cbn [mbind option_bind].
  apply IH; assumption.
Qed.

Lemma agree_off_refl X (h : Store) : agree_off X h h.
Proof. intros l _. reflexivity. Qed.

Lemma agree_off_trans X Y (h1 h2 h3 : Store) :
  agree_off X h1 h2 -> agree_off Y h2 h3 -> agree_off (X ∪ Y) h1 h3.
Proof.
  intros H12 H23 l Hl. rewrite H23, H12 by sets. reflexivity.
Qed.

Lemma agree_off_mono X Y (h h' : Store) :
  X ⊆ Y -> agree_off X h h' -> agree_off Y h h'.
Proof. intros HXY Hag l Hl. apply Hag. sets. Qed.

Lemma agree_off_alter X (h h' : Store) f l :
  l ∈ X -> agree_off X h h' -> agree_off X h (alter f l h').
Proof.
  intros Hl Hag l' Hl'. rewrite lookup_alter_ne by sets. apply Hag, Hl'.
Qed.

Lemma holds_agree_off X (h h' : Store) (t : LT) :
  holds h t -> agree_off X h h' -> locs t ## X -> holds h' t.
Proof.
  intros Hh Hag Hd. apply (holds_agree h); [exact Hh|].
  intros l Hl. apply Hag. sets.
Qed.

(** One step of clearing the children of the node at [l]: given that
    [ClearSubtree] works with the fuel at hand, it frees the child and the
    assignment to the child pointer changes the node at [l] only. *)
Lemma clear_child fuel (h hk : Store) l ck (child : LT) f (X : gset positive) :
  (forall (h0 : Store) (t : LT),
      holds h0 t -> separate t -> (ldepth t < fuel)%nat ->
      exists h',
        ClearSubtreeH fuel h0 (lroot t) = Some h' /\
        agree_off (locs t) h0 h' /\
        (forall l0, l0 ∈ locs t -> h' !! l0 = None)) ->
  agree_off ({[l]} ∪ X) h hk ->
  (forall l', l' ∈ X -> hk !! l' = None) ->
  hk !! l = Some ck ->
  holds h child -> separate child -> (ldepth child < fuel)%nat ->
  l ∉ locs child -> locs child ## X ->
  exists hk',
    ClearSubtreeH fuel hk (lroot child) = Some hk' /\
    agree_off ({[l]} ∪ (X ∪ locs child)) h (alter f l hk') /\
    (forall l', l' ∈ X ∪ locs child -> alter f l hk' !! l' = None) /\
    alter f l hk' !! l = Some (f ck).
Proof.
  intros IH Hag HX Hk Hc Sc Dc Nc Dis.
  assert (NX : l ∉ X) by (intros Hin; rewrite (HX l Hin) in Hk; discriminate).
  destruct (IH hk child) as (hk' & E & Hag' & Hnone); try assumption.
  { apply (holds_agree_off ({[l]} ∪ X) h); [assumption..|sets]. }
  exists hk'. split; [exact E|]. split; [|split].
  - apply agree_off_alter; [sets|].
    apply (agree_off_mono (({[l]} ∪ X) ∪ locs child)); [sets|].
    eapply agree_off_trans; eassumption.
  - intros l' Hin. rewrite lookup_alter_ne by sets.
    apply elem_of_union in Hin. destruct Hin as [Hin|Hin].
    + rewrite Hag' by sets. apply HX, Hin.
    + apply Hnone, Hin.
  - rewrite lookup_alter_eq, Hag' by assumption.
    rewrite Hk. reflexivity.
Qed.

(** [ClearSubtree] frees the nodes of the tree and no other node. *)
Lemma ClearSubtreeH_spec fuel (h : Store) (t : LT) :
  holds h t -> separate t -> (ldepth t < fuel)%nat ->
  exists h',
    ClearSubtreeH fuel h (lroot t) = Some h' /\
    agree_off (locs t) h h' /\
    (forall l, l ∈ locs t -> h' !! l = None).
Proof.
  revert h t.
  induction fuel as [|fuel IH]; intros h t Hh Hs Hd; [lia|].
  destruct t as [|l ul lr c nw ne sw se].
  { exists h. split; [reflexivity|]. split; [apply agree_off_refl|].
    cbn. sets. }
  apply ldepth_children in Hd. destruct Hd as (D1 & D2 & D3 & D4).
  cbn [holds] in Hh. destruct Hh as (Hl & H1 & H2 & H3 & H4).
  cbn [separate] in Hs.
  destruct Hs as (Nl & S12 & S13 & S14 & S23 & S24 & S34 & P1 & P2 & P3 & P4).
  cbn [ClearSubtreeH lroot]. unfold store_NW, store_NE, store_SW, store_SE.
  rewrite Hl. cbn [mbind option_bind NW].
  destruct (clear_child fuel h h l
              (mkCell ul lr c (lroot nw) (lroot ne) (lroot sw) (lroot se)) nw
              (fun c0 => mkCell (upLeft c0) (lowRight c0) (avg c0) None
                                (NE c0) (SW c0) (SE c0)) ∅ IH)
    as (h1 & -> & A1 & N1 & L1);
    [apply agree_off_refl | sets | exact Hl | assumption.. | sets
     | sets |].
  cbn [mbind option_bind].
  rewrite L1. cbn [mbind option_bind NE upLeft lowRight avg SW SE].
  destruct (clear_child fuel h _ l _ ne
              (fun c0 => mkCell (upLeft c0) (lowRight c0) (avg c0) (NW c0)
                                None (SW c0) (SE c0)) _ IH A1 N1 L1)
    as (h2 & -> & A2 & N2 & L2); [assumption.. | sets | sets |].
  cbn [mbind option_bind].
  rewrite L2. cbn [mbind option_bind NW NE upLeft lowRight avg SW SE].
  destruct (clear_child fuel h _ l _ sw
              (fun c0 => mkCell (upLeft c0) (lowRight c0) (avg c0) (NW c0)
                                (NE c0) None (SE c0)) _ IH A2 N2 L2)
    as (h3 & -> & A3 & N3 & L3); [assumption.. | sets | sets |].
  cbn [mbind option_bind].
  rewrite L3. cbn [mbind option_bind NW NE upLeft lowRight avg SW SE].
  destruct (clear_child fuel h _ l _ se
              (fun c0 => mkCell (upLeft c0) (lowRight c0) (avg c0) (NW c0)
                                (NE c0) (SW c0) None) _ IH A3 N3 L3)
    as (h4 & -> & A4 & N4 & L4); [assumption.. | sets | sets |].
  cbn [mbind option_bind].
  rewrite L4. cbn [mbind option_bind].
  eexists. split; [reflexivity|]. split.
  - intros l' Hin. cbn [locs] in Hin.
    rewrite lookup_delete_ne by sets. apply A4. sets.
  - intros l' Hin. cbn [locs] in Hin.
    destruct (decide (l' = l)) as [->|Hne]; [apply lookup_delete_eq|].
    rewrite lookup_delete_ne by congruence. apply N4. sets.
Qed.

(** [ClearNode] frees the nodes of the tree and no other node. *)
Lemma ClearNodeH_spec fuel (h : Store) (t : LT) :
  holds h t -> separate t -> (ldepth t < fuel)%nat ->
  exists h',
    ClearNodeH fuel h (lroot t) = Some h' /\
    agree_off (locs t) h h' /\
    (forall l, l ∈ locs t -> h' !! l = None).
Proof.
  revert h t.
  induction fuel as [|fuel IH]; intros h t Hh Hs Hd; [lia|].
  destruct t as [|l ul lr c nw ne sw se].
  { exists h. split; [reflexivity|]. split; [apply agree_off_refl|].
    cbn. sets. }
  apply ldepth_children in Hd. destruct Hd as (D1 & D2 & D3 & D4).
  cbn [holds] in Hh. destruct Hh as (Hl & H1 & H2 & H3 & H4).
  cbn [separate] in Hs.
  destruct Hs as (Nl & S12 & S13 & S14 & S23 & S24 & S34 & P1 & P2 & P3 & P4).
  assert (stage : forall (X : gset positive) (hk : Store) (child : LT),
             agree_off X h hk ->
             (forall l', l' ∈ X -> hk !! l' = None) ->
             holds h child -> separate child -> (ldepth child < fuel)%nat ->
             locs child ## X ->
             exists hk',
               ClearNodeH fuel hk (lroot child) = Some hk' /\
               agree_off (X ∪ locs child) h hk' /\
               (forall l', l' ∈ X ∪ locs child -> hk' !! l' = None)).
  { intros X hk child Hag HX Hc Sc Dc Dis.
    destruct (IH hk child) as (hk' & E & Hag' & Hnone); try assumption.
    { apply (holds_agree_off X h); assumption. }
    exists hk'. split; [exact E|]. split.
    - eapply agree_off_trans; eassumption.
    - intros l' Hin. apply elem_of_union in Hin. destruct Hin as [Hin|Hin].
      + rewrite Hag' by sets. apply HX, Hin.
      + apply Hnone, Hin. }
  cbn [ClearNodeH lroot]. rewrite Hl. cbn [mbind option_bind NW].
  destruct (stage ∅ h nw) as (h1 & -> & A1 & N1);
    [apply agree_off_refl | sets | assumption.. | sets |].
  cbn [mbind option_bind]. rewrite (A1 l), Hl by sets.
  cbn [mbind option_bind NE].
  destruct (stage _ h1 ne A1 N1) as (h2 & -> & A2 & N2);
    [assumption.. | sets |].
  cbn [mbind option_bind]. rewrite (A2 l), Hl by sets.
  cbn [mbind option_bind SW].
  destruct (stage _ h2 sw A2 N2) as (h3 & -> & A3 & N3);
    [assumption.. | sets |].
  cbn [mbind option_bind]. rewrite (A3 l), Hl by sets.
  cbn [mbind option_bind SE].
  destruct (stage _ h3 se A3 N3) as (h4 & -> & A4 & N4);
    [assumption.. | sets |].
  cbn [mbind option_bind]. rewrite (A4 l), Hl by sets.
  cbn [mbind option_bind].
  eexists. split; [reflexivity|]. split.
  - intros l' Hin. cbn [locs] in Hin.
    rewrite lookup_delete_ne by sets. apply A4. sets.
  - intros l' Hin. cbn [locs] in Hin.
    destruct (decide (l' = l)) as [->|Hne]; [apply lookup_delete_eq|].
    rewrite lookup_delete_ne by congruence. apply N4. sets.
Qed.

Lemma holds_dom (h : Store) (t : LT) : holds h t -> locs t ⊆ dom h.
Proof.
  intros Hh l Hin. apply elem_of_dom. eapply holds_allocated; eassumption.
Qed.

(** [CopyNode] builds, at addresses that were not in use, a tree with the
    same rectangles, averages and shape, and leaves every node that was
    allocated as it was. *)
Lemma CopyNodeH_spec fuel (h : Store) (t : LT) :
  holds h t -> (ldepth t < fuel)%nat ->
  exists h' t',
    CopyNodeH fuel h (lroot t) = Some (h', lroot t') /\
    erase t' = erase t /\ ldepth t' = ldepth t /\
    holds h' t' /\ separate t' /\
    locs t' ## dom h /\ dom h' = dom h ∪ locs t' /\
    (forall l, l ∈ dom h -> h' !! l = h !! l).
Proof.
  revert h t.
  induction fuel as [|fuel IH]; intros h t Hh Hd; [lia|].
  destruct t as [|o ul lr c nw ne sw se].
  { exists h, LNull. cbn. repeat split; auto; set_solver. }
  apply ldepth_children in Hd. destruct Hd as (D1 & D2 & D3 & D4).
  pose proof (holds_dom _ _ Hh) as Hdom. cbn [locs] in Hdom.
  cbn [holds] in Hh. destruct Hh as (Hl & H1 & H2 & H3 & H4).
  cbn [CopyNodeH lroot]. rewrite Hl. cbn [mbind option_bind].
  unfold newNode. cbn [upLeft lowRight avg].
  set (n := fresh (dom h)).
  assert (Hn : n ∉ dom h) by apply is_fresh.
  assert (Hon : o <> n) by (intros ->; apply Hn, Hdom; set_solver).
  set (h0 := <[n := mkCell ul lr c None None None None]> h).
  (* copying one child and storing the pointer to the copy *)
  assert (stage : forall (hk : Store) (child : LT)
                          (f : option positive -> Cell Alpha -> Cell Alpha) ck,
             (forall l, l ∈ dom h -> hk !! l = h !! l) ->
             dom h ⊆ dom hk -> hk !! n = Some ck ->
             holds h child -> (ldepth child < fuel)%nat ->
             exists hk' child',
               CopyNodeH fuel hk (lroot child) = Some (hk', lroot child') /\
               erase child' = erase child /\ ldepth child' = ldepth child /\
               holds (alter (f (lroot child')) n hk') child' /\
               separate child' /\
               locs child' ## dom hk /\
               dom (alter (f (lroot child')) n hk') = dom hk ∪ locs child' /\
               (forall l, l ∈ dom hk -> l <> n ->
                          alter (f (lroot child')) n hk' !! l = hk !! l) /\
               alter (f (lroot child')) n hk' !! n = Some (f (lroot child') ck)).
  { intros hk child f ck Hag Hsub Hk Hc Dc.
    assert (Hck : holds hk child).
    { apply (holds_agree h); [exact Hc|]. intros l Hin. apply Hag.
      apply (holds_dom _ _ Hc), Hin. }
    destruct (IH hk child Hck Dc)
      as (hk' & child' & E & Q1 & Q2 & Q3 & Q4 & Q5 & Q6 & Q7).
    assert (Hnk : n ∈ dom hk) by (apply elem_of_dom; eauto).
    exists hk', child'. split; [exact E|]. split; [exact Q1|].
    split; [exact Q2|]. split; [|split; [exact Q4|]]; [|split; [exact Q5|]].
    - apply (holds_agree hk'); [exact Q3|]. intros l Hin.
      apply lookup_alter_ne. intros <-. sets.
    - split; [rewrite dom_alter_L; exact Q6|]. split.
      + intros l Hin Hne. rewrite lookup_alter_ne by congruence. apply Q7, Hin.
      + rewrite lookup_alter_eq, Q7, Hk by assumption. reflexivity. }
  assert (Hag0 : forall l, l ∈ dom h -> h0 !! l = h !! l).
  { intros l Hin. unfold h0. apply lookup_insert_ne. intros <-. tauto. }
  assert (Hsub0 : dom h ⊆ dom h0) by (unfold h0; rewrite dom_insert_L; sets).
  assert (Hd0 : dom h0 = dom h ∪ {[n]}) by (unfold h0; rewrite dom_insert_L; sets).
  assert (Hn0 : h0 !! n = Some (mkCell ul lr c None None None None))
    by (unfold h0; apply lookup_insert_eq).
  assert (Ho : o ∈ dom h) by (apply Hdom; sets).
  rewrite (Hag0 o Ho), Hl. cbn [mbind option_bind NW].
  unfold store_NW, store_NE, store_SW, store_SE.
  destruct (stage h0 nw
              (fun p c0 => mkCell (upLeft c0) (lowRight c0) (avg c0) p
                                (NE c0) (SW c0) (SE c0)) _ Hag0 Hsub0 Hn0 H1 D1)
    as (h1 & nw' & -> & E1 & G1 & Q1 & T1 & F1 & M1 & A1 & L1).
  cbn [mbind option_bind].
  assert (Hag1 : forall l, l ∈ dom h -> _ !! l = h !! l)
    by (intros l Hin; rewrite A1, Hag0 by (try apply Hsub0; congruence); reflexivity).
  rewrite (Hag1 o Ho), Hl. cbn [mbind option_bind NE].
  assert (Hsub1 : dom h ⊆ dom _) by (rewrite M1; sets).
  destruct (stage _ ne
              (fun p c0 => mkCell (upLeft c0) (lowRight c0) (avg c0) (NW c0)
                                p (SW c0) (SE c0)) _ Hag1 Hsub1 L1 H2 D2)
    as (h2 & ne' & -> & E2 & G2 & Q2 & T2 & F2 & M2 & A2 & L2).
  cbn [mbind option_bind].
  assert (Hag2 : forall l, l ∈ dom h -> _ !! l = h !! l)
    by (intros l Hin; rewrite A2, Hag1 by (try apply Hsub1; congruence); reflexivity).
  rewrite (Hag2 o Ho), Hl. cbn [mbind option_bind SW].
  assert (Hsub2 : dom h ⊆ dom _) by (rewrite M2; sets).
  destruct (stage _ sw
              (fun p c0 => mkCell (upLeft c0) (lowRight c0) (avg c0) (NW c0)
                                (NE c0) p (SE c0)) _ Hag2 Hsub2 L2 H3 D3)
    as (h3 & sw' & -> & E3 & G3 & Q3 & T3 & F3 & M3 & A3 & L3).
  cbn [mbind option_bind].
  assert (Hag3 : forall l, l ∈ dom h -> _ !! l = h !! l)
    by (intros l Hin; rewrite A3, Hag2 by (try apply Hsub2; congruence); reflexivity).
  rewrite (Hag3 o Ho), Hl. cbn [mbind option_bind SE].
  assert (Hsub3 : dom h ⊆ dom _) by (rewrite M3; sets).
  destruct (stage _ se
              (fun p c0 => mkCell (upLeft c0) (lowRight c0) (avg c0) (NW c0)
                                (NE c0) (SW c0) p) _ Hag3 Hsub3 L3 H4 D4)
    as (h4 & se' & -> & E4 & G4 & Q4 & T4 & F4 & M4 & A4 & L4).
  cbn [mbind option_bind].
  assert (Hag4 : forall l, l ∈ dom h -> _ !! l = h !! l)
    by (intros l Hin; rewrite A4, Hag3 by (try apply Hsub3; congruence); reflexivity).
  eexists. exists (LNode n ul lr c nw' ne' sw' se').
  split; [reflexivity|].
  split; [cbn [erase]; congruence|]. split; [cbn [ldepth]; congruence|].
  rewrite Hd0 in M1, F1.
  rewrite M1 in M2, F2. rewrite M2 in M3, F3. rewrite M3 in M4, F4.
  assert (N1 : n ∉ locs nw') by sets. assert (N2 : n ∉ locs ne') by sets.
  assert (N3 : n ∉ locs sw') by sets. assert (N4 : n ∉ locs se') by sets.
  split.
  { cbn [holds]. split; [rewrite L4; reflexivity|]. repeat split.
    - apply (holds_agree _ _ _ Q1). intros l Hin.
      assert (l <> n) by (intros ->; tauto).
      rewrite A4, A3, A2; try assumption; try reflexivity;
        rewrite ?M3, ?M2, ?M1; sets.
    - apply (holds_agree _ _ _ Q2). intros l Hin.
      assert (l <> n) by (intros ->; tauto).
      rewrite A4, A3; try assumption; try reflexivity;
        rewrite ?M3, ?M2, ?M1; sets.
    - apply (holds_agree _ _ _ Q3). intros l Hin.
      assert (l <> n) by (intros ->; tauto).
      rewrite A4; try assumption; try reflexivity;
        rewrite ?M3, ?M2, ?M1; sets.
    - exact Q4. }
  split.
  { cbn [separate]. repeat split; try assumption; sets. }
  split; [cbn [locs]; sets|].
  split; [rewrite M4; cbn [locs]; sets | exact Hag4].
Qed.

End StoreFacts.

Section StorePrune.

Context {Alpha : Type}.
Context {Dist : Type}.
Variable distanceTo : RGBAPixel Alpha -> RGBAPixel Alpha -> Dist.
Variable leD : Dist -> Dist -> bool.

Local Abbreviation Store := (gmap positive (Cell Alpha)).
Local Abbreviation LT := (LTree Alpha).

Lemma CanPruneH_erase fuel (h : Store) (t : LT) avgColor tolerance :
  holds h t -> (ldepth t < fuel)%nat ->
  CanPruneH distanceTo leD fuel h (lroot t) avgColor tolerance =
  Some (CanPrune distanceTo leD (erase t) avgColor tolerance).
Proof.
  revert t.
  induction fuel as [|fuel IH]; intros t Hh Hd; [lia|].
  destruct t as [|l ul lr c nw ne sw se]; [reflexivity|].
  apply ldepth_children in Hd. destruct Hd as (D1 & D2 & D3 & D4).
  cbn [holds] in Hh. destruct Hh as (Hl & H1 & H2 & H3 & H4).
  cbn [CanPruneH lroot erase CanPrune]. rewrite Hl. cbn [mbind option_bind].
  rewrite leafCell_IsLeaf. cbn [upLeft lowRight avg NW NE SW SE].
  destruct (IsLeaf _); [reflexivity|].
  rewrite (IH nw) by assumption. cbn [mbind option_bind].
  destruct (CanPrune distanceTo leD (erase nw) avgColor tolerance);
    cbn [negb andb]; [|reflexivity].
  rewrite (IH ne) by assumption. cbn [mbind option_bind].
  destruct (CanPrune distanceTo leD (erase ne) avgColor tolerance);
    cbn [negb andb]; [|reflexivity].
  rewrite (IH sw) by assumption. cbn [mbind option_bind].
  destruct (CanPrune distanceTo leD (erase sw) avgColor tolerance);
    cbn [negb andb]; [|reflexivity].
  apply IH; assumption.
Qed.

(** [PruneNode] on a tree in the store prunes the tree as [PruneNode] on the
    tree itself does, and changes no node outside the tree. *)
Lemma PruneNodeH_spec fuel (h : Store) (t : LT) tolerance :
  holds h t -> separate t -> (S (ldepth t) < fuel)%nat ->
  exists h' t',
    PruneNodeH distanceTo leD fuel h (lroot t) tolerance = Some h' /\
    holds h' t' /\ separate t' /\ lroot t' = lroot t /\
    erase t' = PruneNode distanceTo leD (erase t) tolerance /\
    locs t' ⊆ locs t /\ (ldepth t' <= ldepth t)%nat /\
    agree_off (locs t) h h'.
Proof.
  revert h t.
  induction fuel as [|fuel IH]; intros h t Hh Hs Hd; [lia|].
  destruct t as [|l ul lr c nw ne sw se].
  { exists h, LNull. repeat split; try reflexivity; try exact I;
      try apply agree_off_refl. }
  assert (Hd' : (ldepth (LNode l ul lr c nw ne sw se) < fuel)%nat) by lia.
  pose proof Hd' as Hdt.
  destruct fuel as [|fuel']; [lia|].
  apply ldepth_children in Hd'. destruct Hd' as (D1 & D2 & D3 & D4).
  remember (S fuel') as fuel eqn:Efuel.
  pose proof Hh as Hh0. pose proof Hs as Hs0.
  cbn [holds] in Hh. destruct Hh as (Hl & H1 & H2 & H3 & H4).
  cbn [separate] in Hs.
  destruct Hs as (Nl & S12 & S13 & S14 & S23 & S24 & S34 & P1 & P2 & P3 & P4).
  cbn [PruneNodeH lroot]. rewrite Hl. cbn [mbind option_bind].
  rewrite leafCell_IsLeaf.
  destruct (IsLeaf (mkNode ul lr c (erase nw) (erase ne) (erase sw) (erase se)))
    eqn:Eleaf.
  { exists h, (LNode l ul lr c nw ne sw se).
    split; [reflexivity|]. split; [exact Hh0|]. split; [exact Hs0|].
    split; [reflexivity|]. split.
    - cbn [erase PruneNode]. rewrite Eleaf. reflexivity.
    - split; [reflexivity|]. split; [lia | apply agree_off_refl]. }
  (* pruning one child *)
  assert (stage : forall (X : gset positive) (hk : Store) (child : LT),
             agree_off X h hk ->
             holds h child -> separate child -> (ldepth child < fuel')%nat ->
             locs child ## X ->
             exists hk' child',
               PruneNodeH distanceTo leD fuel hk (lroot child) tolerance
               = Some hk' /\
               holds hk' child' /\ separate child' /\
               lroot child' = lroot child /\
               erase child' = PruneNode distanceTo leD (erase child) tolerance /\
               locs child' ⊆ locs child /\
               (ldepth child' <= ldepth child)%nat /\
               agree_off (X ∪ locs child) h hk' /\
               agree_off (locs child) hk hk').
  { intros X hk child Hag Hc Sc Dc Dis.
    destruct (IH hk child) as (hk' & child' & E & Q1 & Q2 & Q3 & Q4 & Q5 & Q6 & Q7);
      [apply (holds_agree_off X h); assumption | assumption | lia |].
    exists hk', child'. repeat split; try assumption.
    eapply agree_off_trans; eassumption. }
  cbn [NW NE SW SE avg].
  destruct (stage ∅ h nw) as (h1 & nw' & -> & Q1 & T1 & R1 & E1 & L1 & G1 & A1 & B1);
    [apply agree_off_refl | assumption.. | sets |].
  cbn [mbind option_bind]. rewrite (A1 l), Hl by sets.
  cbn [mbind option_bind NE].
  destruct (stage _ h1 ne A1) as (h2 & ne' & -> & Q2 & T2 & R2 & E2 & L2 & G2 & A2 & B2);
    [assumption.. | sets |].
  cbn [mbind option_bind]. rewrite (A2 l), Hl by sets.
  cbn [mbind option_bind SW].
  destruct (stage _ h2 sw A2) as (h3 & sw' & -> & Q3 & T3 & R3 & E3 & L3 & G3 & A3 & B3);
    [assumption.. | sets |].
  cbn [mbind option_bind]. rewrite (A3 l), Hl by sets.
  cbn [mbind option_bind SE].
  destruct (stage _ h3 se A3) as (h4 & se' & -> & Q4 & T4 & R4 & E4 & L4 & G4 & A4 & B4);
    [assumption.. | sets |].
  cbn [mbind option_bind]. rewrite (A4 l), Hl by sets.
  cbn [mbind option_bind avg NW].
  (* the node with its pruned children *)
  set (tm := LNode l ul lr c nw' ne' sw' se').
  assert (Hl4 : h4 !! l =
                Some (mkCell ul lr c (lroot nw') (lroot ne') (lroot sw') (lroot se')))
    by (rewrite (A4 l), Hl, R1, R2, R3, R4 by sets; reflexivity).
  assert (Hm : holds h4 tm).
  { cbn [tm holds]. split; [exact Hl4|]. repeat split.
    - apply (holds_agree_off (locs se) h3); [|assumption|sets].
      apply (holds_agree_off (locs sw) h2); [|assumption|sets].
      apply (holds_agree_off (locs ne) h1); [assumption..|sets].
    - apply (holds_agree_off (locs se) h3); [|assumption|sets].
      apply (holds_agree_off (locs sw) h2); [assumption..|sets].
    - apply (holds_agree_off (locs se) h3); [assumption..|sets].
    - assumption. }
  assert (Sm : separate tm).
  { cbn [tm separate]. repeat split; try assumption; sets. }
  assert (Dm : (ldepth tm <= ldepth (LNode l ul lr c nw ne sw se))%nat)
    by (cbn [tm ldepth]; lia).
  assert (Lm : locs tm ⊆ locs (LNode l ul lr c nw ne sw se))
    by (cbn [tm locs]; sets).
  assert (Am : agree_off (locs (LNode l ul lr c nw ne sw se)) h h4).
  { apply (agree_off_mono (∅ ∪ locs nw ∪ locs ne ∪ locs sw ∪ locs se));
      [cbn [locs]; sets | exact A4]. }
  change (Some l) with (lroot tm).
  rewrite (CanPruneH_erase fuel h4 tm c tolerance Hm) by lia.
  cbn [mbind option_bind].
  assert (Em : erase tm =
               mkNode ul lr c (PruneNode distanceTo leD (erase nw) tolerance)
                      (PruneNode distanceTo leD (erase ne) tolerance)
                      (PruneNode distanceTo leD (erase sw) tolerance)
                      (PruneNode distanceTo leD (erase se) tolerance))
    by (cbn [tm erase]; rewrite E1, E2, E3, E4; reflexivity).
  assert (EP : PruneNode distanceTo leD
                 (erase (LNode l ul lr c nw ne sw se)) tolerance =
               if CanPrune distanceTo leD (erase tm) c tolerance
               then mkNode ul lr c nullptr nullptr nullptr nullptr
               else erase tm).
  { cbn [erase PruneNode]. rewrite Eleaf, Em. reflexivity. }
  destruct (CanPrune distanceTo leD (erase tm) c tolerance).
  2:{ exists h4, tm. split; [reflexivity|]. split; [exact Hm|].
      split; [exact Sm|]. split; [reflexivity|]. split; [congruence|].
      split; [exact Lm|]. split; [exact Dm | exact Am]. }
  (* the children are cleared *)
  cbn [tm holds] in Hm. destruct Hm as (_ & M1 & M2 & M3 & M4).
  cbn [tm separate] in Sm.
  destruct Sm as (Nl' & S12' & S13' & S14' & S23' & S24' & S34' & _).
  unfold store_NW, store_NE, store_SW, store_SE.
  rewrite <- R1.
  destruct (clear_child fuel h4 h4 l
              (mkCell ul lr c (lroot nw') (lroot ne') (lroot sw') (lroot se'))
              nw'
              (fun c0 => mkCell (upLeft c0) (lowRight c0) (avg c0) None
                                (NE c0) (SW c0) (SE c0)) ∅
              (ClearSubtreeH_spec fuel))
    as (h5 & -> & A5 & N5 & L5);
    [apply agree_off_refl | sets | exact Hl4 | assumption.. | lia
     | sets | sets |].
  cbn [mbind option_bind].
  rewrite L5. cbn [mbind option_bind NE upLeft lowRight avg SW SE].
  destruct (clear_child fuel h4 _ l _ ne'
              (fun c0 => mkCell (upLeft c0) (lowRight c0) (avg c0) (NW c0)
                                None (SW c0) (SE c0)) _
              (ClearSubtreeH_spec fuel) A5 N5 L5)
    as (h6 & -> & A6 & N6 & L6); [assumption.. | lia | sets | sets |].
  cbn [mbind option_bind].
  rewrite L6. cbn [mbind option_bind NW NE upLeft lowRight avg SW SE].
  destruct (clear_child fuel h4 _ l _ sw'
              (fun c0 => mkCell (upLeft c0) (lowRight c0) (avg c0) (NW c0)
                                (NE c0) None (SE c0)) _
              (ClearSubtreeH_spec fuel) A6 N6 L6)
    as (h7 & -> & A7 & N7 & L7); [assumption.. | lia | sets | sets |].
  cbn [mbind option_bind].
  rewrite L7. cbn [mbind option_bind NW NE upLeft lowRight avg SW SE].
  destruct (clear_child fuel h4 _ l _ se'
              (fun c0 => mkCell (upLeft c0) (lowRight c0) (avg c0) (NW c0)
                                (NE c0) (SW c0) None) _
              (ClearSubtreeH_spec fuel) A7 N7 L7)
    as (h8 & -> & A8 & N8 & L8); [assumption.. | lia | sets | sets |].
  cbn [mbind option_bind].
  eexists. exists (LNode l ul lr c LNull LNull LNull LNull).
  split; [reflexivity|]. split.
  { cbn [holds lroot]. split; [|tauto]. rewrite L8. reflexivity. }
  split; [cbn; sets|]. split; [reflexivity|].
  split; [rewrite EP; reflexivity|].
  split; [cbn [locs]; sets|]. split; [cbn [ldepth]; lia|].
  intros l' Hin. rewrite A8 by (cbn [locs] in Hin; sets).
  apply Am, Hin.
Qed.

End StorePrune.

(** ** Trees that share no node *)

Section WorldFacts.

Context {Alpha : Type}.

Local Abbreviation LT := (LTree Alpha).

(** The rendering of an object depends on the object and on the nodes of its
    tree alone. *)
Lemma owns_frame (wd wd' : World Alpha) this w hgt (t : LT) :
  owns wd this w hgt t ->
  trees wd' !! this = trees wd !! this ->
  (forall l, l ∈ locs t -> nodes wd' !! l = nodes wd !! l) ->
  owns wd' this w hgt t.
Proof.
  intros (Ht & Hh & Hs) Et Hn. split; [congruence|]. split; [|exact Hs].
  apply (holds_agree (nodes wd)); assumption.
Qed.

Lemma CopyW_spec fuel (wd : World Alpha) (this other : positive) w hgt (t : LT) :
  owns wd other w hgt t -> this <> other -> (ldepth t < fuel)%nat ->
  exists wd1 t',
    CopyW fuel this other wd = Some wd1 /\
    owns wd1 other w hgt t /\ owns wd1 this w hgt t' /\
    erase t' = erase t /\ ldepth t' = ldepth t /\ locs t' ## locs t.
Proof.
  intros (Ht & Hh & Hs) Hne Hd. unfold CopyW. rewrite Ht.
  cbn [mbind option_bind rootH widthH heightH].
  destruct (CopyNodeH_spec fuel (nodes wd) t Hh Hd)
    as (h' & t' & -> & E & G & Hh' & Hs' & Hfresh & Hdom & Hag).
  cbn [mbind option_bind].
  pose proof (holds_dom _ _ Hh) as Hsub.
  eexists. exists t'. split; [reflexivity|].
  split; [|split; [|split; [exact E|split; [exact G|]]]].
  - split; [|split; [|exact Hs]].
    + cbn [trees]. rewrite lookup_insert_ne by congruence. exact Ht.
    + cbn [nodes]. apply (holds_agree (nodes wd)); [exact Hh|].
      intros l Hin. apply Hag, Hsub, Hin.
  - split; [|split; [exact Hh'|exact Hs']].
    cbn [trees]. apply lookup_insert_eq.
  - set_solver.
Qed.

Lemma ClearW_spec fuel (wd : World Alpha) (this other : positive)
      w hgt (t : LT) w' hgt' (tc : LT) :
  owns wd other w hgt t -> owns wd this w' hgt' tc ->
  this <> other -> locs tc ## locs t -> (ldepth tc < fuel)%nat ->
  exists wd1,
    ClearW fuel this wd = Some wd1 /\
    owns wd1 other w hgt t /\ owns wd1 this 0 0 LNull.
Proof.
  intros Ho (Ht & Hh & Hs) Hne Hdis Hd. unfold ClearW. rewrite Ht.
  cbn [mbind option_bind rootH].
  destruct (ClearNodeH_spec fuel (nodes wd) tc Hh Hs Hd) as (h' & -> & Hag & _).
  cbn [mbind option_bind].
  eexists. split; [reflexivity|]. split.
  - apply (owns_frame wd); [exact Ho | |].
    + cbn [trees]. apply lookup_insert_ne. congruence.
    + intros l Hin. cbn [nodes]. apply Hag. set_solver.
  - split; [|split; exact I]. cbn [trees lroot]. apply lookup_insert_eq.
Qed.

End WorldFacts.

Section WorldPrune.

Context {Alpha : Type}.
Variable defaultPixel : RGBAPixel Alpha.
Context {Dist : Type}.
Variable distanceTo : RGBAPixel Alpha -> RGBAPixel Alpha -> Dist.
Variable leD : Dist -> Dist -> bool.

Local Abbreviation LT := (LTree Alpha).

(** Rendering an object renders the tree it owns. *)
Lemma RenderW_owns fuel (wd : World Alpha) this w hgt (t : LT) scale :
  owns wd this w hgt t -> (ldepth t < fuel)%nat ->
  RenderW defaultPixel fuel this scale wd =
  Some (Render defaultPixel (mkQTree (erase t) w hgt) scale).
Proof.
  intros (Ht & Hh & _) Hd. unfold RenderW, Render. rewrite Ht.
  cbn [mbind option_bind rootH widthH heightH root width height].
  apply RenderNodeH_erase; assumption.
Qed.

Lemma PruneW_spec fuel (wd : World Alpha) (this other : positive)
      w hgt (t : LT) w' hgt' (tc : LT) tolerance :
  owns wd other w hgt t -> owns wd this w' hgt' tc ->
  locs tc ## locs t -> (S (ldepth tc) < fuel)%nat ->
  exists wd2 tc',
    PruneW distanceTo leD fuel this tolerance wd = Some wd2 /\
    owns wd2 other w hgt t /\ owns wd2 this w' hgt' tc' /\
    erase tc' = PruneNode distanceTo leD (erase tc) tolerance /\
    locs tc' ## locs t.
Proof.
  intros Ho (Ht & Hh & Hs) Hdis Hd. unfold PruneW. rewrite Ht.
  cbn [mbind option_bind rootH].
  destruct (PruneNodeH_spec distanceTo leD fuel (nodes wd) tc tolerance Hh Hs Hd)
    as (h' & tc' & -> & Hh' & Hs' & Hr & He & Hl & _ & Hag).
  cbn [mbind option_bind].
  eexists. exists tc'. split; [reflexivity|]. split; [|split; [|split]].
  - apply (owns_frame wd); [exact Ho | reflexivity |].
    intros l Hin. cbn [nodes]. apply Hag. set_solver.
  - split; [|split; assumption]. cbn [trees]. rewrite Hr. exact Ht.
  - exact He.
  - set_solver.
Qed.

(** After a copy, pruning the copy leaves the original as it was. *)
Lemma prune_copy_isolated fuel (wd wd1 : World Alpha) (orig cp : positive)
      w hgt (t t' : LT) :
  owns wd orig w hgt t ->
  owns wd1 orig w hgt t -> owns wd1 cp w hgt t' ->
  ldepth t' = ldepth t -> locs t' ## locs t ->
  (S (ldepth t) < fuel)%nat ->
  forall tolerance,
  exists wd2,
    PruneW distanceTo leD fuel cp tolerance wd1 = Some wd2 /\
    owns wd2 orig w hgt t /\
    forall scale,
      RenderW defaultPixel fuel orig scale wd2 =
      RenderW defaultPixel fuel orig scale wd /\
      RenderW defaultPixel fuel orig scale wd =
      Some (Render defaultPixel (mkQTree (erase t) w hgt) scale).
Proof.
  intros Ho Ho1 Hc1 G Hdis Hd tolerance.
  destruct (PruneW_spec fuel wd1 cp orig w hgt t w hgt t' tolerance Ho1 Hc1 Hdis)
    as (wd2 & tc' & E & Ho2 & _); [lia|].
  exists wd2. split; [exact E|]. split; [exact Ho2|].
  intros scale.
  rewrite (RenderW_owns fuel wd2 orig w hgt t scale Ho2) by lia.
  rewrite (RenderW_owns fuel wd orig w hgt t scale Ho) by lia.
  auto.
Qed.

End WorldPrune.

(** C8. Take a [QTree] object [orig] that owns its tree, and a second object
    [cp].  Copy-constructing [cp] from [orig], and likewise assigning [orig]
    to [cp] when [cp] owns a tree of its own, succeeds and leaves two trees
    that are equal up to the addresses of their nodes and have no node in
    common; pruning the copy, with any tolerance, then succeeds and every
    rendering of [orig] is what it was before the copy was made. *)
Theorem copy_is_isolated {Alpha Dist : Type} (defaultPixel : RGBAPixel Alpha)
        (distanceTo : RGBAPixel Alpha -> RGBAPixel Alpha -> Dist)
        (leD : Dist -> Dist -> bool)
        (wd : World Alpha) (orig cp : positive) (w h : Z) (t : LTree Alpha)
        (fuel : nat) :
  owns wd orig w h t -> cp <> orig -> (S (ldepth t) < fuel)%nat ->
  (exists wd1,
      copyConstructW fuel cp orig wd = Some wd1 /\
      isolatedCopy defaultPixel distanceTo leD fuel wd wd1 orig cp w h t) /\
  (forall w' h' (tc : LTree Alpha),
      owns wd cp w' h' tc -> locs tc ## locs t -> (ldepth tc < fuel)%nat ->
      exists wd1,
        assignW fuel cp orig wd = Some wd1 /\
        isolatedCopy defaultPixel distanceTo leD fuel wd wd1 orig cp w h t).
Proof.
  intros Ho Hne Hd. split.
  - destruct (CopyW_spec fuel wd cp orig w h t Ho Hne)
      as (wd1 & t' & E & Ho1 & Hc1 & Er & G & Hdis); [lia|].
    exists wd1. split; [exact E|]. exists t'.
    split; [exact Ho1|]. split; [exact Hc1|]. split; [exact Er|].
    split; [exact Hdis|].
    exact (prune_copy_isolated defaultPixel distanceTo leD fuel wd wd1 orig cp
                               w h t t' Ho Ho1 Hc1 G Hdis Hd).
  - intros w' h' tc Hc Hdis0 Hdc.
    destruct (ClearW_spec fuel wd cp orig w h t w' h' tc Ho Hc Hne Hdis0 Hdc)
      as (wd0 & E0 & Ho0 & _).
    destruct (CopyW_spec fuel wd0 cp orig w h t Ho0 Hne)
      as (wd1 & t' & E & Ho1 & Hc1 & Er & G & Hdis); [lia|].
    exists wd1. split.
    + unfold assignW. rewrite decide_False by exact Hne.
      rewrite E0. cbn [mbind option_bind]. exact E.
    + exists t'.
      split; [exact Ho1|]. split; [exact Hc1|]. split; [exact Er|].
      split; [exact Hdis|].
      exact (prune_copy_isolated defaultPixel distanceTo leD fuel wd wd1 orig cp
                                 w h t t' Ho Ho1 Hc1 G Hdis Hd).
Qed.

Lemma world2x2_owns : owns world2x2 1 2 2 ltree2x2.
Proof.
  split; [reflexivity|]. split.
  - cbn [holds ltree2x2 world2x2 nodes lroot]. repeat split; reflexivity.
  - cbn [separate ltree2x2 locs]. repeat split; set_solver.
Qed.

Lemma copy_is_isolated_witness :
  owns world2x2 1 2 2 ltree2x2 /\ 2%positive <> 1%positive /\
  (S (ldepth ltree2x2) < 4)%nat /\
  exists wd1,
    copyConstructW 4 2 1 world2x2 = Some wd1 /\
    isolatedCopy white manhattan Z.leb 4 world2x2 wd1 1 2 2 2 ltree2x2.
Proof.
  assert (H1 : owns world2x2 1 2 2 ltree2x2) by exact world2x2_owns.
  assert (H2 : 2%positive <> 1%positive) by discriminate.
  assert (H3 : (S (ldepth ltree2x2) < 4)%nat) by (cbn; lia).
  split; [exact H1|]. split; [exact H2|]. split; [exact H3|].
  exact (proj1 (copy_is_isolated white manhattan Z.leb world2x2 1 2 2 2
                                 ltree2x2 4 H1 H2 H3)).
Defined.

(** * Further properties *)

(** ** Pruning *)

Section PruneMore.

Context {Alpha : Type}.
Context {Dist : Type}.
Variable distanceTo : RGBAPixel Alpha -> RGBAPixel Alpha -> Dist.
Variable leD : Dist -> Dist -> bool.
Variable tolerance : Dist.
Local Abbreviation Tree := (Node Alpha).
Local Abbreviation P := (fun t : Tree => PruneNode distanceTo leD t tolerance).

Lemma PruneNode_nullptr_iff (t : Tree) : P t = nullptr <-> t = nullptr.
Proof.
  destruct t as [|ul lr c nw ne sw se]; [tauto|].
  destruct (PruneNode_shape distanceTo leD tolerance ul lr c nw ne sw se)
    as (? & ? & ? & ? & E).
  cbn beta. rewrite E. split; discriminate.
Qed.

(** A node that is not a leaf has a child, and so has the node with pruned
    children. *)
Lemma IsLeaf_pruned_children ul lr c (nw ne sw se : Tree) :
  IsLeaf (mkNode ul lr c (P nw) (P ne) (P sw) (P se)) =
  IsLeaf (mkNode ul lr c nw ne sw se).
Proof.
  pose proof (PruneNode_nullptr_iff nw) as H1.
  pose proof (PruneNode_nullptr_iff ne) as H2.
  pose proof (PruneNode_nullptr_iff sw) as H3.
  pose proof (PruneNode_nullptr_iff se) as H4.
  cbn beta in *.
  destruct nw, ne, sw, se; cbn [IsLeaf];
    repeat match goal with
           | H : _ <-> nullptr = nullptr |- _ =>
               rewrite (proj2 H eq_refl); clear H
           | H : ?x = nullptr <-> mkNode _ _ _ _ _ _ _ = nullptr |- _ =>
               let E := fresh "E" in
               destruct x eqn:E;
               [exfalso; pose proof (proj1 H eq_refl); discriminate | clear H]
           end; reflexivity.
Qed.

Lemma PruneNode_twice (t : Tree) : P (P t) = P t.
Proof.
  induction t as [|ul lr c nw IH1 ne IH2 sw IH3 se IH4]; [reflexivity|].
  cbn beta in *. cbn [PruneNode].
  destruct (IsLeaf (mkNode ul lr c nw ne sw se)) eqn:El.
  - cbn [PruneNode]. rewrite El. reflexivity.
  - destruct (CanPrune distanceTo leD
                (mkNode ul lr c (P nw) (P ne) (P sw) (P se)) c tolerance) eqn:Ec.
    + reflexivity.
    + cbn [PruneNode]. rewrite IsLeaf_pruned_children, El.
      rewrite IH1, IH2, IH3, IH4. cbn beta. rewrite Ec. reflexivity.
Qed.

Lemma CanPrune_everything (t : Tree) avgColor :
  (forall p q, leD (distanceTo p q) tolerance = true) ->
  CanPrune distanceTo leD t avgColor tolerance = true.
Proof.
  intros Hall.
  induction t as [|ul lr c nw IH1 ne IH2 sw IH3 se IH4]; [reflexivity|].
  cbn [CanPrune]. destruct (IsLeaf _); [apply Hall|].
  rewrite IH1, IH2, IH3, IH4. reflexivity.
Qed.

Lemma PruneNode_everything (t : Tree) :
  (forall p q, leD (distanceTo p q) tolerance = true) ->
  P t = match t with
        | nullptr => nullptr
        | mkNode ul lr c _ _ _ _ => mkNode ul lr c nullptr nullptr nullptr nullptr
        end.
Proof.
  intros Hall. destruct t as [|ul lr c nw ne sw se]; [reflexivity|].
  cbn beta. cbn [PruneNode].
  destruct (IsLeaf (mkNode ul lr c nw ne sw se)) eqn:El.
  - destruct nw, ne, sw, se; try discriminate El. reflexivity.
  - rewrite CanPrune_everything by assumption. reflexivity.
Qed.

(** The rectangle of a node plays no part in [CanPrune]. *)
Lemma CanPrune_rect ul lr ul' lr' c (nw ne sw se : Tree) avgColor :
  CanPrune distanceTo leD (mkNode ul lr c nw ne sw se) avgColor tolerance =
  CanPrune distanceTo leD (mkNode ul' lr' c nw ne sw se) avgColor tolerance.
Proof. destruct nw, ne, sw, se; reflexivity. Qed.

Lemma PruneNode_maximal (defaultPixel : RGBAPixel Alpha) (t : Tree) :
  ForallInternal
    (fun n => CanPrune distanceTo leD n (avgOf defaultPixel n) tolerance = false)
    (P t) /\
  (countNodes (P t) <= countNodes t)%nat.
Proof.
  induction t as [|ul lr c nw IH1 ne IH2 sw IH3 se IH4];
    [cbn; auto|].
  cbn beta in *. cbn [PruneNode].
  destruct (IsLeaf (mkNode ul lr c nw ne sw se)) eqn:El.
  - destruct nw, ne, sw, se; try discriminate El.
    cbn. repeat split; auto. discriminate.
  - destruct (CanPrune distanceTo leD
                (mkNode ul lr c (P nw) (P ne) (P sw) (P se)) c tolerance) eqn:Ec.
    + cbn [ClearSubtree ForallInternal IsLeaf countNodes].
      repeat split; auto; try discriminate. lia.
    + cbn [ForallInternal countNodes avgOf]. cbn beta.
      repeat split; try tauto; lia.
Qed.

End PruneMore.

(** X1. Pruning a second time with the same tolerance changes nothing: for
    every tree and tolerance, [Prune] after [Prune] gives the tree of the
    first [Prune]. *)
Theorem Prune_idempotent {Alpha Dist : Type}
        (distanceTo : RGBAPixel Alpha -> RGBAPixel Alpha -> Dist)
        (leD : Dist -> Dist -> bool) (tolerance : Dist) (t : QTree Alpha) :
  Prune distanceTo leD (Prune distanceTo leD t tolerance) tolerance =
  Prune distanceTo leD t tolerance.
Proof.
  unfold Prune. cbn [root width height].
  rewrite (PruneNode_twice distanceTo leD tolerance). reflexivity.
Qed.

(** X2. With a tolerance that accepts every pair of colours, [Prune] collapses
    every tree to a single leaf that keeps the rectangle and the average of
    the root. *)
Theorem Prune_collapses_when_all_within {Alpha Dist : Type}
        (distanceTo : RGBAPixel Alpha -> RGBAPixel Alpha -> Dist)
        (leD : Dist -> Dist -> bool) (tolerance : Dist) (t : QTree Alpha) :
  (forall p q, leD (distanceTo p q) tolerance = true) ->
  root (Prune distanceTo leD t tolerance) =
  match root t with
  | nullptr => nullptr
  | mkNode ul lr c _ _ _ _ => mkNode ul lr c nullptr nullptr nullptr nullptr
  end /\
  width (Prune distanceTo leD t tolerance) = width t /\
  height (Prune distanceTo leD t tolerance) = height t.
Proof.
  intros Hall. unfold Prune. cbn [root width height].
  rewrite (PruneNode_everything distanceTo leD tolerance) by assumption. auto.
Qed.

Lemma Prune_collapses_when_all_within_witness :
  (forall p q, Z.leb (zeroDistance p q) 0 = true) /\
  root (Prune zeroDistance Z.leb tree2x2 0) =
  mkNode (0, 0) (1, 1) (gray 25) nullptr nullptr nullptr nullptr.
Proof.
  assert (H : forall p q, Z.leb (zeroDistance p q) 0 = true)
    by (intros p q; reflexivity).
  split; [exact H|].
  exact (proj1 (Prune_collapses_when_all_within zeroDistance Z.leb 0 tree2x2 H)).
Defined.

(** X3. [Prune] prunes as high as it can and only removes nodes: in the
    pruned tree no internal node passes [CanPrune] against its own average,
    and the pruned tree has at most as many nodes as the tree had. *)
Theorem Prune_leaves_nothing_prunable {Alpha Dist : Type}
        (defaultPixel : RGBAPixel Alpha)
        (distanceTo : RGBAPixel Alpha -> RGBAPixel Alpha -> Dist)
        (leD : Dist -> Dist -> bool) (tolerance : Dist) (t : QTree Alpha) :
  ForallInternal
    (fun n => CanPrune distanceTo leD n (avgOf defaultPixel n) tolerance = false)
    (root (Prune distanceTo leD t tolerance)) /\
  (countNodes (root (Prune distanceTo leD t tolerance)) <= countNodes (root t))%nat.
Proof.
  unfold Prune. cbn [root].
  apply (PruneNode_maximal distanceTo leD tolerance).
Qed.

Section PruneNothing.

Context {Alpha : Type}.
Context {Dist : Type}.
Variable distanceTo : RGBAPixel Alpha -> RGBAPixel Alpha -> Dist.
Variable leD : Dist -> Dist -> bool.
Variable tolerance : Dist.
Hypothesis none_within : forall p q, leD (distanceTo p q) tolerance = false.
Local Abbreviation Tree := (Node Alpha).

Lemma CanPrune_nothing (t : Tree) avgColor :
  t <> nullptr -> CanPrune distanceTo leD t avgColor tolerance = false.
Proof.
  induction t as [|ul lr c nw IH1 ne IH2 sw IH3 se IH4]; [congruence|].
  intros _. cbn [CanPrune].
  destruct (IsLeaf (mkNode ul lr c nw ne sw se)) eqn:El; [apply none_within|].
  destruct nw as [|? ? ? ? ? ? ?]; [|rewrite IH1 by discriminate; reflexivity].
  destruct ne as [|? ? ? ? ? ? ?]; [|rewrite IH2 by discriminate; reflexivity].
  destruct sw as [|? ? ? ? ? ? ?]; [|rewrite IH3 by discriminate; reflexivity].
  destruct se as [|? ? ? ? ? ? ?];
    [discriminate El | rewrite IH4 by discriminate; reflexivity].
Qed.

Lemma PruneNode_nothing (t : Tree) : PruneNode distanceTo leD t tolerance = t.
Proof.
  induction t as [|ul lr c nw IH1 ne IH2 sw IH3 se IH4]; [reflexivity|].
  cbn [PruneNode]. destruct (IsLeaf _); [reflexivity|].
  rewrite IH1, IH2, IH3, IH4, CanPrune_nothing by discriminate. reflexivity.
Qed.

End PruneNothing.

(** X4. With a tolerance that accepts no pair of colours, [Prune] leaves every
    tree as it is. *)
Theorem Prune_changes_nothing_when_none_within {Alpha Dist : Type}
        (distanceTo : RGBAPixel Alpha -> RGBAPixel Alpha -> Dist)
        (leD : Dist -> Dist -> bool) (tolerance : Dist) (t : QTree Alpha) :
  (forall p q, leD (distanceTo p q) tolerance = false) ->
  Prune distanceTo leD t tolerance = t.
Proof.
  intros Hnone. unfold Prune.
  rewrite (PruneNode_nothing distanceTo leD tolerance Hnone).
  destruct t; reflexivity.
Qed.

Lemma Prune_changes_nothing_when_none_within_witness :
  (forall p q, Z.ltb (zeroDistance p q) 0 = false) /\
  Prune zeroDistance Z.ltb tree2x2 0 = tree2x2.
Proof.
  assert (H : forall p q, Z.ltb (zeroDistance p q) 0 = false)
    by (intros p q; reflexivity).
  split; [exact H|].
  exact (Prune_changes_nothing_when_none_within zeroDistance Z.ltb 0 tree2x2 H).
Defined.

(** ** Pruning and the transforms *)

Section PruneTransforms.

Context {Alpha : Type}.
Context {Dist : Type}.
Variable distanceTo : RGBAPixel Alpha -> RGBAPixel Alpha -> Dist.
Variable leD : Dist -> Dist -> bool.
Variable tolerance : Dist.
Local Abbreviation Tree := (Node Alpha).
Local Abbreviation P t := (PruneNode distanceTo leD t tolerance).
Local Abbreviation CP t a := (CanPrune distanceTo leD t a tolerance).

Lemma CanPrune_Update W (t : Tree) a :
  CP (UpdateCoordinatesAfterFlip W t) a = CP t a.
Proof.
  destruct t as [|ul lr c nw ne sw se]; [reflexivity|].
  cbn [UpdateCoordinatesAfterFlip]. apply CanPrune_rect.
Qed.

Lemma CanPrune_Flip W (t : Tree) a : CP (FlipNodeHorizontal W t) a = CP t a.
Proof.
  induction t as [|ul lr c nw IH1 ne IH2 sw IH3 se IH4]; [reflexivity|].
  cbn beta in *. cbn [FlipNodeHorizontal CanPrune].
  rewrite (IsLeaf_mirror W ul lr ul lr c c nw ne sw se).
  destruct (IsLeaf (mkNode ul lr c nw ne sw se)); [reflexivity|].
  rewrite !CanPrune_Update. cbn beta. rewrite IH1, IH2, IH3, IH4.
  destruct (CanPrune distanceTo leD nw a tolerance),
    (CanPrune distanceTo leD ne a tolerance),
    (CanPrune distanceTo leD sw a tolerance),
    (CanPrune distanceTo leD se a tolerance); reflexivity.
Qed.

Lemma PruneNode_Update W (t : Tree) :
  P (UpdateCoordinatesAfterFlip W t) = UpdateCoordinatesAfterFlip W (P t).
Proof.
  destruct t as [|ul lr c nw ne sw se]; [reflexivity|].
  cbn beta. cbn [UpdateCoordinatesAfterFlip PruneNode].
  replace (IsLeaf (mkNode (u32 (u32 (W - 1) - lr.1), ul.2)
                          (u32 (u32 (W - 1) - ul.1), lr.2) c nw ne sw se))
    with (IsLeaf (mkNode ul lr c nw ne sw se))
    by (destruct nw, ne, sw, se; reflexivity).
  destruct (IsLeaf (mkNode ul lr c nw ne sw se)); [reflexivity|].
  rewrite (CanPrune_rect distanceTo leD tolerance
             (u32 (u32 (W - 1) - lr.1), ul.2)
             (u32 (u32 (W - 1) - ul.1), lr.2) ul lr).
  destruct (CanPrune distanceTo leD _ c tolerance); reflexivity.
Qed.

Lemma PruneNode_Flip W (t : Tree) :
  P (FlipNodeHorizontal W t) = FlipNodeHorizontal W (P t).
Proof.
  induction t as [|ul lr c nw IH1 ne IH2 sw IH3 se IH4]; [reflexivity|].
  cbn beta in *. cbn [FlipNodeHorizontal PruneNode].
  rewrite (IsLeaf_mirror W ul lr ul lr c c nw ne sw se).
  destruct (IsLeaf (mkNode ul lr c nw ne sw se)) eqn:El; [reflexivity|].
  rewrite !PruneNode_Update. cbn beta. rewrite IH1, IH2, IH3, IH4.
  change (mkNode ul lr c
            (UpdateCoordinatesAfterFlip W (FlipNodeHorizontal W (P ne)))
            (UpdateCoordinatesAfterFlip W (FlipNodeHorizontal W (P nw)))
            (UpdateCoordinatesAfterFlip W (FlipNodeHorizontal W (P se)))
            (UpdateCoordinatesAfterFlip W (FlipNodeHorizontal W (P sw))))
    with (FlipNodeHorizontal W (mkNode ul lr c (P nw) (P ne) (P sw) (P se))).
  rewrite CanPrune_Flip. cbn beta.
  destruct (CanPrune distanceTo leD
              (mkNode ul lr c (P nw) (P ne) (P sw) (P se)) c tolerance);
    reflexivity.
Qed.

Lemma RotateNodeCCW_nullptr_iff (t : Tree) ul lr :
  RotateNodeCCW t ul lr = nullptr <-> t = nullptr.
Proof. destruct t; cbn; split; congruence. Qed.

Lemma IsLeaf_rotated ul lr ul' lr' c c' (nw ne sw se : Tree) a1 b1 a2 b2 a3 b3 a4 b4 :
  IsLeaf (mkNode ul' lr' c' (RotateNodeCCW sw a1 b1) (RotateNodeCCW nw a2 b2)
                 (RotateNodeCCW se a3 b3) (RotateNodeCCW ne a4 b4)) =
  IsLeaf (mkNode ul lr c nw ne sw se).
Proof. destruct nw, ne, sw, se; reflexivity. Qed.

Lemma CanPrune_Rotate (t : Tree) a :
  forall ul lr, CP (RotateNodeCCW t ul lr) a = CP t a.
Proof.
  induction t as [|ul0 lr0 c nw IH1 ne IH2 sw IH3 se IH4]; [reflexivity|].
  intros ul lr. cbn beta in *. cbn [RotateNodeCCW CanPrune].
  rewrite (IsLeaf_rotated ul0 lr0 _ _ c c nw ne sw se).
  destruct (IsLeaf (mkNode ul0 lr0 c nw ne sw se)); [reflexivity|].
  rewrite IH1, IH2, IH3, IH4.
  destruct (CanPrune distanceTo leD nw a tolerance),
    (CanPrune distanceTo leD ne a tolerance),
    (CanPrune distanceTo leD sw a tolerance),
    (CanPrune distanceTo leD se a tolerance); reflexivity.
Qed.

Lemma PruneNode_Rotate (t : Tree) :
  forall ul lr, P (RotateNodeCCW t ul lr) = RotateNodeCCW (P t) ul lr.
Proof.
  induction t as [|ul0 lr0 c nw IH1 ne IH2 sw IH3 se IH4]; [reflexivity|].
  intros ul lr. cbn beta in *. cbn [RotateNodeCCW PruneNode].
  rewrite (IsLeaf_rotated ul0 lr0 _ _ c c nw ne sw se).
  destruct (IsLeaf (mkNode ul0 lr0 c nw ne sw se)) eqn:El; [reflexivity|].
  rewrite IH1, IH2, IH3, IH4.
  match goal with
  | |- context [CanPrune distanceTo leD ?n c tolerance] =>
      change n with (RotateNodeCCW (mkNode ul0 lr0 c (P nw) (P ne) (P sw) (P se))
                                   ul lr)
  end.
  rewrite CanPrune_Rotate. cbn beta.
  destruct (CanPrune distanceTo leD
              (mkNode ul0 lr0 c (P nw) (P ne) (P sw) (P se)) c tolerance);
    reflexivity.
Qed.

End PruneTransforms.

(** X5. Pruning and flipping commute: for every tree and tolerance, flipping
    the pruned tree gives the same tree as pruning the flipped tree. *)
Theorem Prune_FlipHorizontal_commute {Alpha Dist : Type}
        (distanceTo : RGBAPixel Alpha -> RGBAPixel Alpha -> Dist)
        (leD : Dist -> Dist -> bool) (tolerance : Dist) (t : QTree Alpha) :
  Prune distanceTo leD (FlipHorizontal t) tolerance =
  FlipHorizontal (Prune distanceTo leD t tolerance).
Proof.
  unfold Prune, FlipHorizontal. cbn [root width height].
  rewrite (PruneNode_Flip distanceTo leD tolerance). reflexivity.
Qed.

(** X6. Pruning and rotating commute: for every tree and tolerance, rotating
    the pruned tree gives the same tree as pruning the rotated tree. *)
Theorem Prune_RotateCCW_commute {Alpha Dist : Type}
        (distanceTo : RGBAPixel Alpha -> RGBAPixel Alpha -> Dist)
        (leD : Dist -> Dist -> bool) (tolerance : Dist) (t : QTree Alpha) :
  Prune distanceTo leD (RotateCCW t) tolerance =
  RotateCCW (Prune distanceTo leD t tolerance).
Proof.
  unfold Prune, RotateCCW. cbn [root width height].
  rewrite (PruneNode_Rotate distanceTo leD tolerance). reflexivity.
Qed.

(** ** Rendering at any scale *)

Section RenderScale.

Context {Alpha : Type}.
Local Abbreviation Pixel := (RGBAPixel Alpha).
Local Abbreviation Tree := (Node Alpha).

Lemma scaled_range s lo hi v :
  0 < s -> (lo * s <= v < (hi + 1) * s <-> lo <= v / s <= hi).
Proof.
  intros Hs.
  pose proof (Z.mul_div_le v s Hs) as H1.
  pose proof (Z.mul_succ_div_gt v s Hs) as H2.
  split; intros [A B]; split; nia.
Qed.

Lemma loopRange_scaled s lo hi v :
  0 < s ->
  bool_decide (v ∈ loopRange (lo * s) ((hi + 1) * s)) =
  (lo <=? v / s) && (v / s <=? hi).
Proof.
  intros Hs.
  destruct (bool_decide_reflect (v ∈ loopRange (lo * s) ((hi + 1) * s)))
    as [E|E]; rewrite elem_of_loopRange, scaled_range in E by exact Hs;
    destruct (Z.leb_spec0 lo (v / s)), (Z.leb_spec0 (v / s) hi);
    try reflexivity; lia.
Qed.

(** At scale [s], the canvas holds at [(x,y)] the colour of the last leaf
    drawn over the pixel [(x/s, y/s)] and its former colour if there is
    none. *)
Lemma RenderNode_scaled (t : Tree) s cv x y :
  0 < s -> coordsFitScale s t ->
  0 <= x < png_width cv -> 0 <= y < png_height cv ->
  getPixel (RenderNode t s cv) x y =
  match paintedBy t (x / s) (y / s) with
  | Some p => p
  | None => getPixel cv x y
  end.
Proof.
  intros Hs. revert cv.
  induction t as [|ul lr c nw IH1 ne IH2 sw IH3 se IH4];
    intros cv Hfit Hx Hy; [reflexivity|].
  cbn [RenderNode paintedBy]. cbn [coordsFitScale] in Hfit.
  destruct Hfit as (Hc & F1 & F2 & F3 & F4).
  destruct (IsLeaf _).
  - rewrite fillRect_get.
    rewrite (u32_small (lr.1 + 1)), (u32_small (lr.2 + 1)) by nia.
    rewrite !u32_small by nia.
    rewrite !loopRange_scaled by exact Hs.
    replace (x <? png_width cv) with true by (symmetry; apply Z.ltb_lt; lia).
    replace (y <? png_height cv) with true by (symmetry; apply Z.ltb_lt; lia).
    rewrite !andb_true_r. unfold inRect.
    rewrite andb_assoc.
    destruct ((ul.1 <=? x / s) && (x / s <=? lr.1) && (ul.2 <=? y / s) &&
              (y / s <=? lr.2)); reflexivity.
  - set (cv1 := RenderNode nw s cv).
    set (cv2 := RenderNode ne s cv1).
    set (cv3 := RenderNode sw s cv2).
    destruct (RenderNode_dims nw s cv) as [W1 H1].
    destruct (RenderNode_dims ne s cv1) as [W2 H2].
    destruct (RenderNode_dims sw s cv2) as [W3 H3].
    fold cv1 in W1, H1. fold cv2 in W2, H2. fold cv3 in W3, H3.
    rewrite IH4 by (auto; lia).
    destruct (paintedBy se (x / s) (y / s)); [reflexivity|].
    subst cv3. rewrite IH3 by (auto; lia).
    destruct (paintedBy sw (x / s) (y / s)); [reflexivity|].
    subst cv2. rewrite IH2 by (auto; lia).
    destruct (paintedBy ne (x / s) (y / s)); [reflexivity|].
    subst cv1. apply IH1; auto.
Qed.

Lemma childIn_inside ul lr ul' lr' (c : Tree) :
  rectIn ul lr ul' lr' = true -> childIn ul lr c = true ->
  childIn ul' lr' c = true.
Proof.
  destruct c as [|a b p nw ne sw se]; [reflexivity|]. cbn [childIn].
  rewrite !rectIn_spec. lia.
Qed.

(** A tree that satisfies the invariant and lies in a [W] by [H] image fits
    every scale [s] for which [W * s] and [H * s] are below [2^32]. *)
Lemma rectsOk_coordsFitScale W H s (t : Tree) :
  0 < s -> W * s < 2 ^ 32 -> H * s < 2 ^ 32 ->
  rectsOk t = true -> childIn (0, 0) (W - 1, H - 1) t = true ->
  coordsFitScale s t.
Proof.
  intros Hs HW HH.
  induction t as [|ul lr p nw IH1 ne IH2 sw IH3 se IH4]; [intros; exact I|].
  intros Hr Hc.
  cbn [rectsOk] in Hr. rewrite !andb_true_iff in Hr.
  destruct Hr as (((((((((((((((Hx & Hy) & I1) & I2) & I3) & I4) & _) & _)
                      & _) & _) & _) & _) & R1) & R2) & R3) & R4).
  cbn [childIn] in Hc. pose proof Hc as Hc0.
  rewrite rectIn_spec in Hc. cbn [fst snd] in Hc.
  apply Z.leb_le in Hx, Hy.
  cbn [coordsFitScale]. repeat split; try nia;
    [apply IH1 | apply IH2 | apply IH3 | apply IH4]; try assumption;
    eapply childIn_inside; eassumption.
Qed.

(** What a tree paints at a pixel is the colour of one of its leaves whose
    rectangle holds the pixel; it paints nothing where no leaf lies. *)
Lemma paintedBy_leaf (t : Tree) x y p :
  paintedBy t x y = Some p ->
  exists ul lr, In (ul, lr, p) (leaves t) /\ inRect ul lr x y = true.
Proof.
  revert p. induction t as [|ul lr c nw IH1 ne IH2 sw IH3 se IH4];
    intros p; [discriminate|].
  cbn [paintedBy leaves]. destruct (IsLeaf _).
  - destruct (inRect ul lr x y) eqn:E; [|discriminate].
    intros [= <-]. exists ul, lr. split; [left; reflexivity | exact E].
  - intros Hp.
    destruct (paintedBy se x y) as [q|].
    { destruct (IH4 q eq_refl) as (a & b & Hin & Hr). injection Hp as <-.
      exists a, b. split; [|exact Hr]. rewrite !in_app_iff. auto. }
    destruct (paintedBy sw x y) as [q|].
    { destruct (IH3 q eq_refl) as (a & b & Hin & Hr). injection Hp as <-.
      exists a, b. split; [|exact Hr]. rewrite !in_app_iff. auto. }
    destruct (paintedBy ne x y) as [q|].
    { destruct (IH2 q eq_refl) as (a & b & Hin & Hr). injection Hp as <-.
      exists a, b. split; [|exact Hr]. rewrite !in_app_iff. auto. }
    destruct (IH1 p Hp) as (a & b & Hin & Hr).
    exists a, b. split; [|exact Hr]. rewrite !in_app_iff. auto.
Qed.

Lemma paintedBy_None (t : Tree) x y :
  paintedBy t x y = None -> coverCount x y (leaves t) = 0%nat.
Proof.
  induction t as [|ul lr c nw IH1 ne IH2 sw IH3 se IH4]; [reflexivity|].
  cbn [paintedBy leaves]. destruct (IsLeaf _).
  - destruct (inRect ul lr x y) eqn:E; [discriminate|]. intros _.
    unfold coverCount. cbn [filter list_filter fst snd].
    rewrite decide_False by (rewrite E; discriminate). reflexivity.
  - destruct (paintedBy se x y); [discriminate|].
    destruct (paintedBy sw x y); [discriminate|].
    destruct (paintedBy ne x y); [discriminate|].
    intros Hp. rewrite !coverCount_app, IH1, IH2, IH3, IH4 by auto.
    reflexivity.
Qed.

Lemma coverCount_In x y (L : list (Z * Z * (Z * Z) * Pixel)) ul lr p :
  In (ul, lr, p) L -> inRect ul lr x y = true -> coverCount x y L <> 0%nat.
Proof.
  intros Hin Hr. unfold coverCount.
  assert (Hf : (ul, lr, p) ∈ filter (fun l => inRect l.1.1 l.1.2 x y = true) L).
  { apply list_elem_of_filter. split; [exact Hr|].
    apply list_elem_of_In. exact Hin. }
  destruct (filter _ L); [inversion Hf | discriminate].
Qed.

End RenderScale.

Section LeafFacts.

Context {Alpha : Type}.
Local Abbreviation Pixel := (RGBAPixel Alpha).
Local Abbreviation Tree := (Node Alpha).

(** In a tree that satisfies the invariant no two leaves hold the same
    pixel. *)
Lemma rectsOk_coverCount (t : Tree) x y :
  rectsOk t = true -> (coverCount x y (leaves t) <= 1)%nat.
Proof.
  induction t as [|ul lr c nw IH1 ne IH2 sw IH3 se IH4]; [cbn; lia|].
  intros Hr. cbn [rectsOk] in Hr. rewrite !andb_true_iff in Hr.
  destruct Hr as (((((((((((((((Hx & Hy) & I1) & I2) & I3) & I4) & D12) & D13)
                      & D14) & D23) & D24) & D34) & R1) & R2) & R3) & R4).
  cbn [leaves]. destruct (IsLeaf _).
  - unfold coverCount. cbn [filter list_filter].
    destruct (decide _); cbn; lia.
  - rewrite !coverCount_app.
    specialize (IH1 R1). specialize (IH2 R2).
    specialize (IH3 R3). specialize (IH4 R4).
    pose proof (paintedBy_None nw x y) as N1.
    pose proof (paintedBy_None ne x y) as N2.
    pose proof (paintedBy_None sw x y) as N3.
    pose proof (paintedBy_None se x y) as N4.
    destruct (paintedBy nw x y) eqn:E1, (paintedBy ne x y) eqn:E2,
      (paintedBy sw x y) eqn:E3, (paintedBy se x y) eqn:E4;
      try (exfalso;
           first [ exact (paintedBy_disjoint nw ne x y _ _ D12 R1 R2 E1 E2)
                 | exact (paintedBy_disjoint nw sw x y _ _ D13 R1 R3 E1 E3)
                 | exact (paintedBy_disjoint nw se x y _ _ D14 R1 R4 E1 E4)
                 | exact (paintedBy_disjoint ne sw x y _ _ D23 R2 R3 E2 E3)
                 | exact (paintedBy_disjoint ne se x y _ _ D24 R2 R4 E2 E4)
                 | exact (paintedBy_disjoint sw se x y _ _ D34 R3 R4 E3 E4) ]);
      repeat match goal with
             | H : None = None -> _ |- _ => specialize (H eq_refl)
             end; lia.
Qed.

Lemma rectsOk_leaves_increasing (t : Tree) :
  rectsOk t = true ->
  Forall (fun l => l.1.1.1 <= l.1.2.1 /\ l.1.1.2 <= l.1.2.2) (leaves t).
Proof.
  induction t as [|ul lr c nw IH1 ne IH2 sw IH3 se IH4];
    [intros; apply Forall_nil_2|].
  intros Hr. cbn [rectsOk] in Hr. rewrite !andb_true_iff in Hr.
  destruct Hr as (((((((((((((((Hx & Hy) & _) & _) & _) & _) & _) & _)
                      & _) & _) & _) & _) & R1) & R2) & R3) & R4).
  apply Z.leb_le in Hx, Hy.
  cbn [leaves]. destruct (IsLeaf _).
  - constructor; [cbn [fst snd]; lia | constructor].
  - rewrite !Forall_app. auto.
Qed.

Lemma treeOk_root_in_image (t : QTree Alpha) :
  treeOk t = true ->
  childIn (0, 0) (width t - 1, height t - 1) (root t) = true.
Proof.
  intros Hok. destruct (treeOk_inv t Hok) as (_ & _ & _ & [E | E]).
  - rewrite E. reflexivity.
  - destruct E as (c & nw & ne & sw & se & ->). cbn [childIn].
    apply rectIn_spec. cbn [fst snd]. lia.
Qed.

(** [Render] on a tree that satisfies the invariant, at a scale that fits. *)
Lemma Render_treeOk defaultPixel (t : QTree Alpha) scale :
  treeOk t = true -> 0 < scale ->
  width t * scale < 2 ^ 32 -> height t * scale < 2 ^ 32 ->
  png_width (Render defaultPixel t scale) = width t * scale /\
  png_height (Render defaultPixel t scale) = height t * scale /\
  forall x y,
    0 <= x < width t * scale -> 0 <= y < height t * scale ->
    getPixel (Render defaultPixel t scale) x y =
    match paintedBy (root t) (x / scale) (y / scale) with
    | Some p => p
    | None => defaultPixel
    end.
Proof.
  intros Hok Hs HW HH.
  pose proof (treeOk_root_in_image t Hok) as Hin.
  destruct (treeOk_inv t Hok) as (Hw & Hh & Hr & _).
  unfold Render.
  destruct (RenderNode_dims (root t) scale
              (blankPNG defaultPixel (u32 (width t * scale))
                        (u32 (height t * scale)))) as [Dw Dh].
  rewrite Dw, Dh. cbn [blankPNG png_width png_height].
  rewrite !u32_small by nia.
  split; [reflexivity|]. split; [reflexivity|].
  intros x y Hx Hy.
  rewrite RenderNode_scaled; [reflexivity | exact Hs | | |].
  - exact (rectsOk_coordsFitScale (width t) (height t) scale (root t)
             Hs HW HH Hr Hin).
  - unfold blankPNG. cbn [png_width]. lia.
  - unfold blankPNG. cbn [png_height]. lia.
Qed.

End LeafFacts.

Section PruneTiling.

Context {Alpha : Type}.
Variable defaultPixel : RGBAPixel Alpha.
Context {Dist : Type}.
Variable distanceTo : RGBAPixel Alpha -> RGBAPixel Alpha -> Dist.
Variable leD : Dist -> Dist -> bool.
Variable tolerance : Dist.
Local Abbreviation Tree := (Node Alpha).
Local Abbreviation P t := (PruneNode distanceTo leD t tolerance).

(** The leaves of a pruned built node still cover each pixel of its
    rectangle once and no pixel outside it. *)
Lemma Built_PruneNode_coverCount img ul lr (t : Tree) :
  Built defaultPixel img ul lr t ->
  forall x y,
    coverCount x y (leaves (P t)) = if inRect ul lr x y then 1%nat else 0%nat.
Proof.
  induction 1 as [x0 y0 Hxy | x0 y0 x1 y1 nw ne sw se Hok Hneq midX midY
                          Bnw IHnw Bne IHne Nne Bsw IHsw Nsw Bse IHse Nse];
    intros x y.
  - unfold coverCount. cbn [PruneNode leaves IsLeaf filter list_filter].
    cbn [fst snd].
    destruct (inRect (x0, y0) (x0, y0) x y); cbn.
    + rewrite decide_True by reflexivity. reflexivity.
    + rewrite decide_False by discriminate. reflexivity.
  - cbn [PruneNode].
    rewrite (Built_IsLeaf _ _ _ _ _
               (Built_split defaultPixel img x0 y0 x1 y1 nw ne sw se Hok Hneq
                            Bnw Bne Nne Bsw Nsw Bse Nse)).
    replace (pair_eqb (x0, y0) (x1, y1)) with false
      by (symmetry; apply pair_eqb_neq; assumption).
    destruct (CanPrune _ _ _ _ _).
    + unfold coverCount. cbn [ClearSubtree leaves IsLeaf filter list_filter].
      cbn [fst snd].
      destruct (inRect (x0, y0) (x1, y1) x y); cbn.
      * rewrite decide_True by reflexivity. reflexivity.
      * rewrite decide_False by discriminate. reflexivity.
    + cbn [leaves].
      rewrite (IsLeaf_pruned_children distanceTo leD tolerance).
      rewrite (Built_IsLeaf _ _ _ _ _
                 (Built_split defaultPixel img x0 y0 x1 y1 nw ne sw se Hok Hneq
                              Bnw Bne Nne Bsw Nsw Bse Nse)).
      replace (pair_eqb (x0, y0) (x1, y1)) with false
        by (symmetry; apply pair_eqb_neq; assumption).
      rewrite !coverCount_app.
      midpoints.
      built_children; rewrite ?IHnw, ?IHne, ?IHsw, ?IHse;
        cbn [PruneNode leaves];
        change (coverCount x y []) with 0%nat;
        inRect_cases; try reflexivity; exfalso; lia.
Qed.

End PruneTiling.

(** X7. For every source image (each dimension between 1 and 2^31) and every
    scale [s > 0] with [width * s] and [height * s] below 2^32, [Render(s)] on
    the freshly built tree gives a buffer of [width * s] by [height * s]
    pixels in which the pixel [(x, y)] is the pixel [(x / s, y / s)] of the
    image: every source pixel becomes an [s] by [s] block. *)
Theorem Render_scales_image {Alpha : Type} (defaultPixel : RGBAPixel Alpha)
        (img : PNG Alpha) (fuel : nat) (scale : Z) :
  image_ok img ->
  (Z.to_nat (png_width img + png_height img) <= fuel)%nat ->
  0 < scale ->
  png_width img * scale < 2 ^ 32 -> png_height img * scale < 2 ^ 32 ->
  exists t,
    QTree_of_PNG defaultPixel fuel img = Some t /\
    png_width (Render defaultPixel t scale) = png_width img * scale /\
    png_height (Render defaultPixel t scale) = png_height img * scale /\
    forall x y,
      0 <= x < png_width img * scale -> 0 <= y < png_height img * scale ->
      getPixel (Render defaultPixel t scale) x y =
      getPixel img (x / scale) (y / scale).
Proof.
  intros Himg Hfuel Hs HW HH.
  destruct (QTree_of_PNG_Built defaultPixel img fuel Himg Hfuel)
    as (t & Ht & Hw & Hh & B).
  exists t. split; [exact Ht|].
  assert (Hok : treeOk t = true).
  { destruct Himg as [HW0 HH0].
    unfold treeOk. rewrite (Built_rectsOk _ _ _ _ _ B), Hw, Hh.
    destruct (Built_shape _ _ _ _ _ B) as (c & nw & ne & sw & se & ->).
    rewrite !andb_true_iff, !Z.ltb_lt, !Z.leb_le.
    repeat split; try lia; apply pair_eqb_eq; reflexivity. }
  rewrite <- Hw in HW. rewrite <- Hh in HH.
  destruct (Render_treeOk defaultPixel t scale Hok Hs HW HH) as (Dw & Dh & Hp).
  rewrite Dw, Dh, Hw, Hh. split; [reflexivity|]. split; [reflexivity|].
  intros x y Hx Hy. rewrite Hp by (rewrite ?Hw, ?Hh; assumption).
  rewrite (Built_paintedBy _ _ _ _ _ B).
  destruct (inRect_reflect (0, 0) (png_width img - 1, png_height img - 1)
              (x / scale) (y / scale)) as [_|Hn]; [reflexivity|].
  exfalso. apply Hn. cbn [fst snd].
  pose proof (proj1 (scaled_range scale 0 (png_width img - 1) x Hs)) as Sx.
  pose proof (proj1 (scaled_range scale 0 (png_height img - 1) y Hs)) as Sy.
  split; [apply Sx | apply Sy]; lia.
Qed.

Lemma Render_scales_image_witness :
  image_ok image2x2 /\
  (Z.to_nat (png_width image2x2 + png_height image2x2) <= 4)%nat /\
  0 < 3 /\ png_width image2x2 * 3 < 2 ^ 32 /\ png_height image2x2 * 3 < 2 ^ 32 /\
  exists t,
    QTree_of_PNG white 4 image2x2 = Some t /\
    png_width (Render white t 3) = png_width image2x2 * 3 /\
    png_height (Render white t 3) = png_height image2x2 * 3 /\
    forall x y,
      0 <= x < png_width image2x2 * 3 -> 0 <= y < png_height image2x2 * 3 ->
      getPixel (Render white t 3) x y = getPixel image2x2 (x / 3) (y / 3).
Proof.
  assert (H1 : image_ok image2x2) by (unfold image_ok; cbn; lia).
  assert (H2 : (Z.to_nat (png_width image2x2 + png_height image2x2) <= 4)%nat)
    by (cbn; lia).
  assert (H3 : 0 < 3) by lia.
  assert (H4 : png_width image2x2 * 3 < 2 ^ 32) by (cbn; lia).
  assert (H5 : png_height image2x2 * 3 < 2 ^ 32) by (cbn; lia).
  split; [exact H1|]. split; [exact H2|]. split; [exact H3|].
  split; [exact H4|]. split; [exact H5|].
  exact (Render_scales_image white image2x2 4 3 H1 H2 H3 H4 H5).
Defined.

(** X8. On every tree that satisfies the invariant of the data model, pruned
    or flipped or not, and at every scale [s > 0] with [width * s] and
    [height * s] below 2^32, [Render(s)] gives a [width * s] by [height * s]
    buffer; at most one leaf rectangle holds the pixel [(x / s, y / s)]; the
    pixel [(x, y)] of the buffer has the stored average of that leaf, and is
    a default pixel when there is no such leaf. *)
Theorem Render_draws_leaves {Alpha : Type} (defaultPixel : RGBAPixel Alpha)
        (t : QTree Alpha) (scale : Z) :
  treeOk t = true -> 0 < scale ->
  width t * scale < 2 ^ 32 -> height t * scale < 2 ^ 32 ->
  png_width (Render defaultPixel t scale) = width t * scale /\
  png_height (Render defaultPixel t scale) = height t * scale /\
  forall x y,
    0 <= x < width t * scale -> 0 <= y < height t * scale ->
    (coverCount (x / scale) (y / scale) (leaves (root t)) <= 1)%nat /\
    (coverCount (x / scale) (y / scale) (leaves (root t)) = 0%nat ->
     getPixel (Render defaultPixel t scale) x y = defaultPixel) /\
    (coverCount (x / scale) (y / scale) (leaves (root t)) = 1%nat ->
     exists ul lr,
       In (ul, lr, getPixel (Render defaultPixel t scale) x y)
          (leaves (root t)) /\
       inRect ul lr (x / scale) (y / scale) = true).
Proof.
  intros Hok Hs HW HH.
  destruct (Render_treeOk defaultPixel t scale Hok Hs HW HH) as (Dw & Dh & Hp).
  split; [exact Dw|]. split; [exact Dh|].
  intros x y Hx Hy. rewrite (Hp x y Hx Hy).
  destruct (treeOk_inv t Hok) as (_ & _ & Hr & _).
  split; [apply rectsOk_coverCount; exact Hr|].
  destruct (paintedBy (root t) (x / scale) (y / scale)) as [p|] eqn:E.
  - destruct (paintedBy_leaf _ _ _ _ E) as (ul & lr & Hin & Hrect).
    split.
    + intros H0. exfalso.
      exact (coverCount_In _ _ _ _ _ _ Hin Hrect H0).
    + intros _. exists ul, lr. auto.
  - apply paintedBy_None in E. split; [reflexivity|]. intros H1. lia.
Qed.

Lemma Render_draws_leaves_witness :
  treeOk tree2x2 = true /\ 0 < 2 /\
  width tree2x2 * 2 < 2 ^ 32 /\ height tree2x2 * 2 < 2 ^ 32 /\
  png_width (Render white tree2x2 2) = width tree2x2 * 2.
Proof.
  assert (H1 : treeOk tree2x2 = true) by reflexivity.
  assert (H2 : 0 < 2) by lia.
  assert (H3 : width tree2x2 * 2 < 2 ^ 32) by (cbn; lia).
  assert (H4 : height tree2x2 * 2 < 2 ^ 32) by (cbn; lia).
  split; [exact H1|]. split; [exact H2|]. split; [exact H3|].
  split; [exact H4|].
  exact (proj1 (Render_draws_leaves white tree2x2 2 H1 H2 H3 H4)).
Defined.

(** X9. For every source image and every tolerance, the leaf rectangles of the
    pruned tree still tile the image: each pixel of [[0,W) x [0,H)] lies in
    exactly one leaf rectangle of the pruned tree, no pixel outside it lies
    in any, every leaf rectangle has its corners in increasing order, and
    the pruned tree satisfies the invariant of the data model. *)
Theorem Prune_keeps_tiling {Alpha Dist : Type} (defaultPixel : RGBAPixel Alpha)
        (distanceTo : RGBAPixel Alpha -> RGBAPixel Alpha -> Dist)
        (leD : Dist -> Dist -> bool) (img : PNG Alpha) (fuel : nat)
        (tolerance : Dist) :
  image_ok img ->
  (Z.to_nat (png_width img + png_height img) <= fuel)%nat ->
  exists t,
    QTree_of_PNG defaultPixel fuel img = Some t /\
    (forall x y,
        coverCount x y (leaves (root (Prune distanceTo leD t tolerance))) =
        if inRect (0, 0) (png_width img - 1, png_height img - 1) x y
        then 1%nat else 0%nat) /\
    Forall (fun l => l.1.1.1 <= l.1.2.1 /\ l.1.1.2 <= l.1.2.2)
           (leaves (root (Prune distanceTo leD t tolerance))) /\
    treeOk (Prune distanceTo leD t tolerance) = true.
Proof.
  intros Himg Hfuel.
  destruct (QTree_of_PNG_Built defaultPixel img fuel Himg Hfuel)
    as (t & Ht & Hw & Hh & B).
  exists t. split; [exact Ht|].
  assert (Hok : treeOk t = true).
  { destruct Himg as [HW0 HH0].
    unfold treeOk. rewrite (Built_rectsOk _ _ _ _ _ B), Hw, Hh.
    destruct (Built_shape _ _ _ _ _ B) as (c & nw & ne & sw & se & ->).
    rewrite !andb_true_iff, !Z.ltb_lt, !Z.leb_le.
    repeat split; try lia; apply pair_eqb_eq; reflexivity. }
  pose proof (Prune_treeOk distanceTo leD tolerance t Hok) as Hok'.
  split; [|split; [|exact Hok']].
  - apply (Built_PruneNode_coverCount defaultPixel distanceTo leD tolerance
             _ _ _ _ B).
  - apply rectsOk_leaves_increasing.
    destruct (treeOk_inv _ Hok') as (_ & _ & Hr & _). exact Hr.
Qed.

Lemma Prune_keeps_tiling_witness :
  image_ok image2x2 /\
  (Z.to_nat (png_width image2x2 + png_height image2x2) <= 4)%nat /\
  exists t,
    QTree_of_PNG white 4 image2x2 = Some t /\
    (forall x y,
        coverCount x y (leaves (root (Prune manhattan Z.leb t 10))) =
        if inRect (0, 0) (png_width image2x2 - 1, png_height image2x2 - 1) x y
        then 1%nat else 0%nat) /\
    Forall (fun l => l.1.1.1 <= l.1.2.1 /\ l.1.1.2 <= l.1.2.2)
           (leaves (root (Prune manhattan Z.leb t 10))) /\
    treeOk (Prune manhattan Z.leb t 10) = true.
Proof.
  assert (H1 : image_ok image2x2) by (unfold image_ok; cbn; lia).
  assert (H2 : (Z.to_nat (png_width image2x2 + png_height image2x2) <= 4)%nat)
    by (cbn; lia).
  split; [exact H1|]. split; [exact H2|].
  exact (Prune_keeps_tiling white manhattan Z.leb image2x2 4 10 H1 H2).
Defined.

(** X10. [Render] never resizes its canvas: for every tree and every scale the
    buffer it returns is [width * scale] by [height * scale] pixels, both
    taken modulo 2^32, so that it is empty at scale 0; and it consists of
    default pixels alone when the tree has no root. *)
Theorem Render_dimensions {Alpha : Type} (defaultPixel : RGBAPixel Alpha)
        (t : QTree Alpha) (scale : Z) :
  png_width (Render defaultPixel t scale) = u32 (width t * scale) /\
  png_height (Render defaultPixel t scale) = u32 (height t * scale) /\
  png_width (Render defaultPixel t 0) = 0 /\
  png_height (Render defaultPixel t 0) = 0 /\
  (root t = nullptr ->
   forall x y, getPixel (Render defaultPixel t scale) x y = defaultPixel).
Proof.
  unfold Render.
  destruct (RenderNode_dims (root t) scale
              (blankPNG defaultPixel (u32 (width t * scale))
                        (u32 (height t * scale)))) as [-> ->].
  destruct (RenderNode_dims (root t) 0
              (blankPNG defaultPixel (u32 (width t * 0))
                        (u32 (height t * 0)))) as [-> ->].
  cbn [blankPNG png_width png_height]. rewrite !Z.mul_0_r.
  repeat split; try reflexivity.
  intros E x y. rewrite E. reflexivity.
Qed.

Lemma FlipHorizontal_treeOk {Alpha : Type} (t : QTree Alpha) :
  treeOk t = true -> treeOk (FlipHorizontal t) = true.
Proof.
  intros Hok.
  destruct (treeOk_inv t Hok) as (HW & HH & Hr & Hroot).
  destruct t as [rt w h]. cbn [root width height] in *.
  destruct Hroot as [->|(c & nw & ne & sw & se & ->)]; [exact Hok|].
  pose proof (FlipNodeHorizontal_root_rectsOk w h HW c nw ne sw se Hr) as Hr'.
  unfold treeOk, FlipHorizontal. cbn [root width height].
  rewrite Hr'. cbn [FlipNodeHorizontal].
  rewrite !andb_true_iff, !Z.ltb_lt, !Z.leb_le.
  repeat split; try lia; apply pair_eqb_eq; reflexivity.
Qed.

Lemma FlipHorizontal_paintedBy {Alpha : Type} (t : QTree Alpha) x y :
  treeOk t = true ->
  paintedBy (root (FlipHorizontal t)) (width t - 1 - x) y =
  paintedBy (root t) x y.
Proof.
  intros Hok.
  destruct (treeOk_inv t Hok) as (HW & HH & Hr & Hroot).
  destruct t as [rt w h]. cbn [root width height] in *.
  unfold FlipHorizontal. cbn [root].
  destruct Hroot as [->|(c & nw & ne & sw & se & ->)]; [reflexivity|].
  apply (FlipNodeHorizontal_root_paintedBy w h HW c nw ne sw se x y Hr).
Qed.

Lemma div_mirror W s x :
  0 < s -> (W * s - 1 - x) / s = W - 1 - x / s.
Proof.
  intros Hs. symmetry.
  pose proof (Z.div_mod x s ltac:(lia)) as Hx.
  pose proof (Z.mod_pos_bound x s Hs) as Hr.
  apply (Z.div_unique _ s _ (s - 1 - x mod s)); [left; lia | lia].
Qed.

(** X11. On every tree that satisfies the invariant of the data model and at
    every scale [s > 0] with [width * s] and [height * s] below 2^32, the
    rendering of the flipped tree is the mirror image of the rendering of
    the tree: the pixel at column [x] is found at column
    [width * s - 1 - x] of the same row. *)
Theorem FlipHorizontal_mirrors_at_scale {Alpha : Type}
        (defaultPixel : RGBAPixel Alpha) (t : QTree Alpha) (scale : Z) :
  treeOk t = true -> 0 < scale ->
  width t * scale < 2 ^ 32 -> height t * scale < 2 ^ 32 ->
  png_width (Render defaultPixel (FlipHorizontal t) scale) =
    png_width (Render defaultPixel t scale) /\
  png_height (Render defaultPixel (FlipHorizontal t) scale) =
    png_height (Render defaultPixel t scale) /\
  forall x y,
    0 <= x < width t * scale -> 0 <= y < height t * scale ->
    getPixel (Render defaultPixel (FlipHorizontal t) scale)
             (width t * scale - 1 - x) y =
    getPixel (Render defaultPixel t scale) x y.
Proof.
  intros Hok Hs HW HH.
  pose proof (FlipHorizontal_treeOk t Hok) as Hok'.
  destruct (Render_treeOk defaultPixel t scale Hok Hs HW HH) as (Dw & Dh & Hp).
  destruct (Render_treeOk defaultPixel (FlipHorizontal t) scale Hok' Hs HW HH)
    as (Dw' & Dh' & Hp').
  change (width (FlipHorizontal t)) with (width t) in *.
  change (height (FlipHorizontal t)) with (height t) in *.
  split; [congruence|]. split; [congruence|].
  intros x y Hx Hy.
  rewrite Hp' by lia. rewrite Hp by lia.
  rewrite div_mirror by exact Hs.
  rewrite FlipHorizontal_paintedBy by exact Hok. reflexivity.
Qed.

Lemma FlipHorizontal_mirrors_at_scale_witness :
  treeOk tree2x2 = true /\ 0 < 3 /\
  width tree2x2 * 3 < 2 ^ 32 /\ height tree2x2 * 3 < 2 ^ 32 /\
  getPixel (Render white (FlipHorizontal tree2x2) 3) (width tree2x2 * 3 - 1 - 4) 1 =
  getPixel (Render white tree2x2 3) 4 1.
Proof.
  assert (H1 : treeOk tree2x2 = true) by reflexivity.
  assert (H2 : 0 < 3) by lia.
  assert (H3 : width tree2x2 * 3 < 2 ^ 32) by (cbn; lia).
  assert (H4 : height tree2x2 * 3 < 2 ^ 32) by (cbn; lia).
  split; [exact H1|]. split; [exact H2|]. split; [exact H3|].
  split; [exact H4|].
  destruct (FlipHorizontal_mirrors_at_scale white tree2x2 3 H1 H2 H3 H4)
    as (_ & _ & Hm).
  apply (Hm 4 1); cbn; lia.
Defined.

(** ** The shape of a fresh tree *)

Section BuildShape.

Context {Alpha : Type}.
Variable defaultPixel : RGBAPixel Alpha.
Local Abbreviation Pixel := (RGBAPixel Alpha).
Local Abbreviation Tree := (Node Alpha).

(** The leaves of a built node are the pixels of its rectangle, and it has
    fewer than twice as many nodes as leaves. *)
Lemma Built_leaves_pixels img ul lr (t : Tree) :
  Built defaultPixel img ul lr t ->
  Forall (fun l => l.1.1 = l.1.2 /\ l.2 = getPixel img l.1.1.1 l.1.1.2)
         (leaves t) /\
  Z.of_nat (length (leaves t)) = area t /\
  (countNodes t < 2 * length (leaves t))%nat.
Proof.
  induction 1 as [x0 y0 Hxy | x0 y0 x1 y1 nw ne sw se Hok Hneq midX midY
                          Bnw IHnw Bne IHne Nne Bsw IHsw Nsw Bse IHse Nse].
  - cbn. split; [|split; lia]. constructor; [auto | constructor].
  - cbn [leaves].
    rewrite (Built_IsLeaf _ _ _ _ _
               (Built_split defaultPixel img x0 y0 x1 y1 nw ne sw se Hok Hneq
                            Bnw Bne Nne Bsw Nsw Bse Nse)).
    replace (pair_eqb (x0, y0) (x1, y1)) with false
      by (symmetry; apply pair_eqb_neq; assumption).
    midpoints.
    built_children;
      repeat match goal with
             | B : Built _ _ _ _ ?c, IH : _ /\ _ = area ?c /\ _ |- _ =>
                 let F := fresh "F" in
                 let L := fresh "L" in
                 let C := fresh "C" in
                 destruct IH as (F & L & C);
                 rewrite (Built_area _ _ _ _ _ B) in L; cbn [fst snd] in L
             end;
      cbn [leaves countNodes area fst snd];
      rewrite ?app_nil_r, !Forall_app, !length_app;
      (split; [repeat split; auto using Forall_nil_2|]);
      cbn [length]; (split; [nia | lia]).
Qed.

Lemma Built_nullPattern img ul lr (t : Tree) :
  Built defaultPixel img ul lr t -> nullPattern t.
Proof.
  induction 1 as [x0 y0 Hxy | x0 y0 x1 y1 nw ne sw se Hok Hneq midX midY
                          Bnw IHnw Bne IHne Nne Bsw IHsw Nsw Bse IHse Nse].
  - cbn. repeat split; auto; discriminate.
  - cbn [nullPattern fst snd].
    built_children; built_shapes;
      (split; [intros _; repeat split; intros; try discriminate;
               try reflexivity; try congruence; lia
              | repeat match goal with |- _ /\ _ => split end;
                first [assumption | exact I]]).
Qed.

Lemma Built_nwLargerHalf img ul lr (t : Tree) :
  Built defaultPixel img ul lr t -> nwLargerHalf t.
Proof.
  induction 1 as [x0 y0 Hxy | x0 y0 x1 y1 nw ne sw se Hok Hneq midX midY
                          Bnw IHnw Bne IHne Nne Bsw IHsw Nsw Bse IHse Nse].
  - cbn. repeat split; auto; discriminate.
  - cbn [nwLargerHalf fst snd]. split.
    + intros _. destruct (Built_shape _ _ _ _ _ Bnw) as (c & ? & ? & ? & ? & ->).
      cbn [fst snd]. unfold region_ok in Hok. cbn [fst snd] in Hok.
      subst midX midY.
      split; [reflexivity|]. split; Z.div_mod_to_equations; lia.
    + built_children; repeat split; auto; exact I.
Qed.

End BuildShape.

(** X12. The freshly built tree of a [W] by [H] image subdivides down to single
    pixels: every leaf rectangle is one pixel and stores the colour of the
    image there, there are [W * H] leaves, and the tree has fewer than
    [2 * W * H] nodes. *)
Theorem fresh_leaves_are_pixels {Alpha : Type} (defaultPixel : RGBAPixel Alpha)
        (img : PNG Alpha) (fuel : nat) :
  image_ok img ->
  (Z.to_nat (png_width img + png_height img) <= fuel)%nat ->
  exists t,
    QTree_of_PNG defaultPixel fuel img = Some t /\
    Forall (fun l => l.1.1 = l.1.2 /\ l.2 = getPixel img l.1.1.1 l.1.1.2)
           (leaves (root t)) /\
    Z.of_nat (length (leaves (root t))) = png_width img * png_height img /\
    Z.of_nat (countNodes (root t)) < 2 * (png_width img * png_height img).
Proof.
  intros Himg Hfuel.
  destruct (QTree_of_PNG_Built defaultPixel img fuel Himg Hfuel)
    as (t & Ht & Hw & Hh & B).
  exists t. split; [exact Ht|].
  destruct (Built_leaves_pixels defaultPixel _ _ _ _ B) as (F & L & C).
  rewrite (Built_area _ _ _ _ _ B) in L. cbn [fst snd] in L.
  split; [exact F|]. split; lia.
Qed.

Lemma fresh_leaves_are_pixels_witness :
  image_ok image2x2 /\
  (Z.to_nat (png_width image2x2 + png_height image2x2) <= 4)%nat /\
  exists t,
    QTree_of_PNG white 4 image2x2 = Some t /\
    Forall (fun l => l.1.1 = l.1.2 /\ l.2 = getPixel image2x2 l.1.1.1 l.1.1.2)
           (leaves (root t)) /\
    Z.of_nat (length (leaves (root t))) =
    png_width image2x2 * png_height image2x2 /\
    Z.of_nat (countNodes (root t)) <
    2 * (png_width image2x2 * png_height image2x2).
Proof.
  assert (H1 : image_ok image2x2) by (unfold image_ok; cbn; lia).
  assert (H2 : (Z.to_nat (png_width image2x2 + png_height image2x2) <= 4)%nat)
    by (cbn; lia).
  split; [exact H1|]. split; [exact H2|].
  exact (fresh_leaves_are_pixels white image2x2 4 H1 H2).
Defined.

(** X13. The freshly built tree follows the split rule of the constructor: its
    root spans the whole image; every internal node has a north-west child,
    lacks the two eastern children exactly when its rectangle is one pixel
    wide and the two southern ones exactly when it is one pixel tall; and the
    north-west child starts at the corner of its parent and takes the larger
    half of the columns and of the rows. *)
Theorem fresh_tree_split_rule {Alpha : Type} (defaultPixel : RGBAPixel Alpha)
        (img : PNG Alpha) (fuel : nat) :
  image_ok img ->
  (Z.to_nat (png_width img + png_height img) <= fuel)%nat ->
  exists t c nw ne sw se,
    QTree_of_PNG defaultPixel fuel img = Some t /\
    width t = png_width img /\ height t = png_height img /\
    root t = mkNode (0, 0) (png_width img - 1, png_height img - 1) c
                    nw ne sw se /\
    nullPattern (root t) /\ nwLargerHalf (root t).
Proof.
  intros Himg Hfuel.
  destruct (QTree_of_PNG_Built defaultPixel img fuel Himg Hfuel)
    as (t & Ht & Hw & Hh & B).
  destruct (Built_shape _ _ _ _ _ B) as (c & nw & ne & sw & se & E).
  exists t, c, nw, ne, sw, se.
  split; [exact Ht|]. split; [exact Hw|]. split; [exact Hh|].
  split; [exact E|]. split.
  - exact (Built_nullPattern defaultPixel _ _ _ _ B).
  - exact (Built_nwLargerHalf defaultPixel _ _ _ _ B).
Qed.

Lemma fresh_tree_split_rule_witness :
  image_ok image4x1 /\
  (Z.to_nat (png_width image4x1 + png_height image4x1) <= 5)%nat /\
  exists t c nw ne sw se,
    QTree_of_PNG white 5 image4x1 = Some t /\
    width t = png_width image4x1 /\ height t = png_height image4x1 /\
    root t = mkNode (0, 0) (png_width image4x1 - 1, png_height image4x1 - 1) c
                    nw ne sw se /\
    nullPattern (root t) /\ nwLargerHalf (root t).
Proof.
  assert (H1 : image_ok image4x1) by (unfold image_ok; cbn; lia).
  assert (H2 : (Z.to_nat (png_width image4x1 + png_height image4x1) <= 5)%nat)
    by (cbn; lia).
  split; [exact H1|]. split; [exact H2|].
  exact (fresh_tree_split_rule white image4x1 5 H1 H2).
Defined.

(** ** What a rotation keeps *)

Section RotateFacts.

Context {Alpha : Type}.
Local Abbreviation Pixel := (RGBAPixel Alpha).
Local Abbreviation Tree := (Node Alpha).

Lemma RotateNodeCCW_countNodes (t : Tree) :
  forall ul lr, countNodes (RotateNodeCCW t ul lr) = countNodes t.
Proof.
  induction t as [|ul0 lr0 c nw IH1 ne IH2 sw IH3 se IH4]; [reflexivity|].
  intros ul lr. cbn [RotateNodeCCW countNodes].
  rewrite IH1, IH2, IH3, IH4. lia.
Qed.

Lemma RotateNodeCCW_colours (t : Tree) :
  forall ul lr,
    map snd (leaves (RotateNodeCCW t ul lr)) ≡ₚ map snd (leaves t).
Proof.
  induction t as [|ul0 lr0 c nw IH1 ne IH2 sw IH3 se IH4]; [reflexivity|].
  intros ul lr. cbn [RotateNodeCCW leaves].
  rewrite (IsLeaf_rotated ul0 lr0 _ _ c c nw ne sw se).
  destruct (IsLeaf (mkNode ul0 lr0 c nw ne sw se)); [reflexivity|].
  rewrite !map_app, IH1, IH2, IH3, IH4.
  solve_Permutation.
Qed.

End RotateFacts.

(** X14. [RotateCCW] exchanges the width and the height of the tree and
    rearranges its nodes without losing or recolouring any: the rotated tree
    has as many nodes as before and its leaves carry the same colours, each
    as often as before. *)
Theorem RotateCCW_keeps_nodes_and_colours {Alpha : Type} (t : QTree Alpha) :
  width (RotateCCW t) = height t /\
  height (RotateCCW t) = width t /\
  countNodes (root (RotateCCW t)) = countNodes (root t) /\
  map snd (leaves (root (RotateCCW t))) ≡ₚ map snd (leaves (root t)).
Proof.
  unfold RotateCCW. cbn [root width height].
  split; [reflexivity|]. split; [reflexivity|]. split.
  - apply RotateNodeCCW_countNodes.
  - apply RotateNodeCCW_colours.
Qed.

(** X15. [RotateCCW] swaps the recorded width and height but gives the root
    the rectangle it had: on a tree that satisfies the invariant of the data
    model, the root of the rotated tree still spans [width] columns and
    [height] rows of the original, so that for every tree that is not square
    the rotated tree no longer satisfies the invariant. *)
Theorem RotateCCW_keeps_root_rectangle {Alpha : Type} (t : QTree Alpha) :
  treeOk t = true -> root t <> nullptr ->
  (exists c nw ne sw se,
      root (RotateCCW t) =
      mkNode (0, 0) (width t - 1, height t - 1) c nw ne sw se) /\
  (width t <> height t -> treeOk (RotateCCW t) = false).
Proof.
  intros Hok Hroot.
  destruct (treeOk_inv t Hok) as (Hw & Hh & _ & [E | E]); [contradiction|].
  destruct E as (c & nw & ne & sw & se & E).
  assert (R : exists nw' ne' sw' se',
             root (RotateCCW t) =
             mkNode (0, 0) (width t - 1, height t - 1) c nw' ne' sw' se').
  { unfold RotateCCW. cbn [root]. rewrite E. cbn [RotateNodeCCW fst snd].
    rewrite (u32_small (height t - 1)), (u32_small (width t - 1)) by lia.
    rewrite u32_sub_sub by lia. rewrite Z.sub_0_r.
    rewrite (u32_small (height t - 1)) by lia. eauto 10. }
  destruct R as (nw' & ne' & sw' & se' & R).
  split; [eauto 10|].
  intros Hne. unfold treeOk. rewrite R.
  replace (pair_eqb (width t - 1, height t - 1)
                    (width (RotateCCW t) - 1, height (RotateCCW t) - 1))
    with false.
  - rewrite !andb_false_r. reflexivity.
  - symmetry. apply pair_eqb_neq. unfold RotateCCW. cbn [width height].
    intros [= E1 E2]. lia.
Qed.

Lemma RotateCCW_keeps_root_rectangle_witness :
  treeOk tree4x1 = true /\ root tree4x1 <> nullptr /\
  treeOk (RotateCCW tree4x1) = false.
Proof.
  assert (H1 : treeOk tree4x1 = true) by reflexivity.
  assert (H2 : root tree4x1 <> nullptr) by discriminate.
  split; [exact H1|]. split; [exact H2|].
  apply (proj2 (RotateCCW_keeps_root_rectangle tree4x1 H1 H2)).
  cbn. lia.
Defined.

(** ** Memory: what the operations free and allocate *)

Section StorePruneFrees.

Context {Alpha : Type}.
Context {Dist : Type}.
Variable distanceTo : RGBAPixel Alpha -> RGBAPixel Alpha -> Dist.
Variable leD : Dist -> Dist -> bool.

Local Abbreviation Store := (gmap positive (Cell Alpha)).
Local Abbreviation LT := (LTree Alpha).

(** [PruneNode] on a tree in the store prunes the tree as [PruneNode] on the
    tree itself does, changes no node outside the tree and frees every node
    it removes from the tree. *)
Lemma PruneNodeH_frees fuel (h : Store) (t : LT) tolerance :
  holds h t -> separate t -> (S (ldepth t) < fuel)%nat ->
  exists h' t',
    PruneNodeH distanceTo leD fuel h (lroot t) tolerance = Some h' /\
    holds h' t' /\ separate t' /\ lroot t' = lroot t /\
    erase t' = PruneNode distanceTo leD (erase t) tolerance /\
    locs t' ⊆ locs t /\ (ldepth t' <= ldepth t)%nat /\
    agree_off (locs t) h h' /\
    (forall l0, l0 ∈ locs t -> l0 ∉ locs t' -> h' !! l0 = None).
Proof.
  revert h t.
  induction fuel as [|fuel IH]; intros h t Hh Hs Hd; [lia|].
  destruct t as [|l ul lr c nw ne sw se].
  { exists h, LNull. repeat split; try reflexivity; try exact I;
      try apply agree_off_refl. cbn [locs]. intros l0 Hin. sets. }
  assert (Hd' : (ldepth (LNode l ul lr c nw ne sw se) < fuel)%nat) by lia.
  pose proof Hd' as Hdt.
  destruct fuel as [|fuel']; [lia|].
  apply ldepth_children in Hd'. destruct Hd' as (D1 & D2 & D3 & D4).
  remember (S fuel') as fuel eqn:Efuel.
  pose proof Hh as Hh0. pose proof Hs as Hs0.
  cbn [holds] in Hh. destruct Hh as (Hl & H1 & H2 & H3 & H4).
  cbn [separate] in Hs.
  destruct Hs as (Nl & S12 & S13 & S14 & S23 & S24 & S34 & P1 & P2 & P3 & P4).
  cbn [PruneNodeH lroot]. rewrite Hl. cbn [mbind option_bind].
  rewrite leafCell_IsLeaf.
  destruct (IsLeaf (mkNode ul lr c (erase nw) (erase ne) (erase sw) (erase se)))
    eqn:Eleaf.
  { exists h, (LNode l ul lr c nw ne sw se).
    split; [reflexivity|]. split; [exact Hh0|]. split; [exact Hs0|].
    split; [reflexivity|]. split.
    - cbn [erase PruneNode]. rewrite Eleaf. reflexivity.
    - split; [reflexivity|]. split; [lia|].
      split; [apply agree_off_refl|]. intros l0 Hin Hout. contradiction. }
  (* pruning one child *)
  assert (stage : forall (X : gset positive) (hk : Store) (child : LT),
             agree_off X h hk ->
             holds h child -> separate child -> (ldepth child < fuel')%nat ->
             locs child ## X ->
             exists hk' child',
               PruneNodeH distanceTo leD fuel hk (lroot child) tolerance
               = Some hk' /\
               holds hk' child' /\ separate child' /\
               lroot child' = lroot child /\
               erase child' = PruneNode distanceTo leD (erase child) tolerance /\
               locs child' ⊆ locs child /\
               (ldepth child' <= ldepth child)%nat /\
               agree_off (X ∪ locs child) h hk' /\
               agree_off (locs child) hk hk' /\
               (forall l0, l0 ∈ locs child -> l0 ∉ locs child' ->
                           hk' !! l0 = None)).
  { intros X hk child Hag Hc Sc Dc Dis.
    destruct (IH hk child)
      as (hk' & child' & E & Q1 & Q2 & Q3 & Q4 & Q5 & Q6 & Q7 & Q8);
      [apply (holds_agree_off X h); assumption | assumption | lia |].
    exists hk', child'.
    split; [exact E|]. split; [exact Q1|]. split; [exact Q2|].
    split; [exact Q3|]. split; [exact Q4|]. split; [exact Q5|].
    split; [exact Q6|]. split; [|split; [exact Q7 | exact Q8]].
    eapply agree_off_trans; eassumption. }
  cbn [NW NE SW SE avg].
  destruct (stage ∅ h nw) as (h1 & nw' & -> & Q1 & T1 & R1 & E1 & L1 & G1 & A1 & B1 & F1);
    [apply agree_off_refl | assumption.. | sets |].
  cbn [mbind option_bind]. rewrite (A1 l), Hl by sets.
  cbn [mbind option_bind NE].
  destruct (stage _ h1 ne A1) as (h2 & ne' & -> & Q2 & T2 & R2 & E2 & L2 & G2 & A2 & B2 & F2);
    [assumption.. | sets |].
  cbn [mbind option_bind]. rewrite (A2 l), Hl by sets.
  cbn [mbind option_bind SW].
  destruct (stage _ h2 sw A2) as (h3 & sw' & -> & Q3 & T3 & R3 & E3 & L3 & G3 & A3 & B3 & F3);
    [assumption.. | sets |].
  cbn [mbind option_bind]. rewrite (A3 l), Hl by sets.
  cbn [mbind option_bind SE].
  destruct (stage _ h3 se A3) as (h4 & se' & -> & Q4 & T4 & R4 & E4 & L4 & G4 & A4 & B4 & F4);
    [assumption.. | sets |].
  cbn [mbind option_bind]. rewrite (A4 l), Hl by sets.
  cbn [mbind option_bind avg NW].
  (* the node with its pruned children *)
  set (tm := LNode l ul lr c nw' ne' sw' se').
  assert (Hl4 : h4 !! l =
                Some (mkCell ul lr c (lroot nw') (lroot ne') (lroot sw') (lroot se')))
    by (rewrite (A4 l), Hl, R1, R2, R3, R4 by sets; reflexivity).
  assert (Hm : holds h4 tm).
  { cbn [tm holds]. split; [exact Hl4|]. repeat split.
    - apply (holds_agree_off (locs se) h3); [|assumption|sets].
      apply (holds_agree_off (locs sw) h2); [|assumption|sets].
      apply (holds_agree_off (locs ne) h1); [assumption..|sets].
    - apply (holds_agree_off (locs se) h3); [|assumption|sets].
      apply (holds_agree_off (locs sw) h2); [assumption..|sets].
    - apply (holds_agree_off (locs se) h3); [assumption..|sets].
    - assumption. }
  assert (Sm : separate tm).
  { cbn [tm separate]. repeat split; try assumption; sets. }
  assert (Dm : (ldepth tm <= ldepth (LNode l ul lr c nw ne sw se))%nat)
    by (cbn [tm ldepth]; lia).
  assert (Lm : locs tm ⊆ locs (LNode l ul lr c nw ne sw se))
    by (cbn [tm locs]; sets).
  assert (Am : agree_off (locs (LNode l ul lr c nw ne sw se)) h h4).
  { apply (agree_off_mono (∅ ∪ locs nw ∪ locs ne ∪ locs sw ∪ locs se));
      [cbn [locs]; sets | exact A4]. }
  assert (K1 : forall l0, l0 ∈ locs nw -> l0 ∉ locs nw' -> h4 !! l0 = None).
  { intros l0 Hin Hout. rewrite B4, B3, B2 by sets. exact (F1 l0 Hin Hout). }
  assert (K2 : forall l0, l0 ∈ locs ne -> l0 ∉ locs ne' -> h4 !! l0 = None).
  { intros l0 Hin Hout. rewrite B4, B3 by sets. exact (F2 l0 Hin Hout). }
  assert (K3 : forall l0, l0 ∈ locs sw -> l0 ∉ locs sw' -> h4 !! l0 = None).
  { intros l0 Hin Hout. rewrite B4 by sets. exact (F3 l0 Hin Hout). }
  assert (K4 : forall l0, l0 ∈ locs se -> l0 ∉ locs se' -> h4 !! l0 = None)
    by exact F4.
  assert (K : forall l0,
             l0 ∈ locs nw ∪ locs ne ∪ (locs sw ∪ locs se) ->
             l0 ∉ locs nw' ∪ locs ne' ∪ (locs sw' ∪ locs se') ->
             h4 !! l0 = None).
  { intros l0 Hin Hout.
    assert (O1 : l0 ∉ locs nw') by sets. assert (O2 : l0 ∉ locs ne') by sets.
    assert (O3 : l0 ∉ locs sw') by sets. assert (O4 : l0 ∉ locs se') by sets.
    rewrite !elem_of_union in Hin. destruct Hin as [[Hin|Hin]|[Hin|Hin]];
      [apply K1 | apply K2 | apply K3 | apply K4]; assumption. }
  clear K1 K2 K3 K4 F1 F2 F3 F4.
  change (Some l) with (lroot tm).
  rewrite (CanPruneH_erase distanceTo leD fuel h4 tm c tolerance Hm) by lia.
  cbn [mbind option_bind].
  assert (Em : erase tm =
               mkNode ul lr c (PruneNode distanceTo leD (erase nw) tolerance)
                      (PruneNode distanceTo leD (erase ne) tolerance)
                      (PruneNode distanceTo leD (erase sw) tolerance)
                      (PruneNode distanceTo leD (erase se) tolerance))
    by (cbn [tm erase]; rewrite E1, E2, E3, E4; reflexivity).
  assert (EP : PruneNode distanceTo leD
                 (erase (LNode l ul lr c nw ne sw se)) tolerance =
               if CanPrune distanceTo leD (erase tm) c tolerance
               then mkNode ul lr c nullptr nullptr nullptr nullptr
               else erase tm).
  { cbn [erase PruneNode]. rewrite Eleaf, Em. reflexivity. }
  destruct (CanPrune distanceTo leD (erase tm) c tolerance).
  2:{ exists h4, tm. split; [reflexivity|]. split; [exact Hm|].
      split; [exact Sm|]. split; [reflexivity|]. split; [congruence|].
      split; [exact Lm|]. split; [exact Dm|]. split; [exact Am|].
      intros l0 Hin Hout. cbn [locs tm] in Hin, Hout.
      apply K; [|sets].
      assert (l0 <> l) by sets. sets. }
  (* the children are cleared *)
  cbn [tm holds] in Hm. destruct Hm as (_ & M1 & M2 & M3 & M4).
  cbn [tm separate] in Sm.
  destruct Sm as (Nl' & S12' & S13' & S14' & S23' & S24' & S34' & _).
  unfold store_NW, store_NE, store_SW, store_SE.
  rewrite <- R1.
  destruct (clear_child fuel h4 h4 l
              (mkCell ul lr c (lroot nw') (lroot ne') (lroot sw') (lroot se'))
              nw'
              (fun c0 => mkCell (upLeft c0) (lowRight c0) (avg c0) None
                                (NE c0) (SW c0) (SE c0)) ∅
              (ClearSubtreeH_spec fuel))
    as (h5 & -> & A5 & N5 & L5);
    [apply agree_off_refl | sets | exact Hl4 | assumption.. | lia
     | sets | sets |].
  cbn [mbind option_bind].
  rewrite L5. cbn [mbind option_bind NE upLeft lowRight avg SW SE].
  destruct (clear_child fuel h4 _ l _ ne'
              (fun c0 => mkCell (upLeft c0) (lowRight c0) (avg c0) (NW c0)
                                None (SW c0) (SE c0)) _
              (ClearSubtreeH_spec fuel) A5 N5 L5)
    as (h6 & -> & A6 & N6 & L6); [assumption.. | lia | sets | sets |].
  cbn [mbind option_bind].
  rewrite L6. cbn [mbind option_bind NW NE upLeft lowRight avg SW SE].
  destruct (clear_child fuel h4 _ l _ sw'
              (fun c0 => mkCell (upLeft c0) (lowRight c0) (avg c0) (NW c0)
                                (NE c0) None (SE c0)) _
              (ClearSubtreeH_spec fuel) A6 N6 L6)
    as (h7 & -> & A7 & N7 & L7); [assumption.. | lia | sets | sets |].
  cbn [mbind option_bind].
  rewrite L7. cbn [mbind option_bind NW NE upLeft lowRight avg SW SE].
  destruct (clear_child fuel h4 _ l _ se'
              (fun c0 => mkCell (upLeft c0) (lowRight c0) (avg c0) (NW c0)
                                (NE c0) (SW c0) None) _
              (ClearSubtreeH_spec fuel) A7 N7 L7)
    as (h8 & -> & A8 & N8 & L8); [assumption.. | lia | sets | sets |].
  cbn [mbind option_bind].
  eexists. exists (LNode l ul lr c LNull LNull LNull LNull).
  split; [reflexivity|]. split.
  { cbn [holds lroot]. split; [|tauto]. rewrite L8. reflexivity. }
  split; [cbn; sets|]. split; [reflexivity|].
  split; [rewrite EP; reflexivity|].
  split; [cbn [locs]; sets|]. split; [cbn [ldepth]; lia|]. split.
  { intros l' Hin. rewrite A8 by (cbn [locs] in Hin; sets).
    apply Am, Hin. }
  intros l0 Hin Hout. cbn [locs] in Hin, Hout.
  assert (Hl0 : l0 <> l) by sets.
  assert (Hin' : l0 ∈ locs nw ∪ locs ne ∪ (locs sw ∪ locs se)) by sets.
  destruct (decide (l0 ∈ locs nw' ∪ locs ne' ∪ (locs sw' ∪ locs se')))
    as [Hc|Hc].
  - apply N8. sets.
  - rewrite A8 by sets. apply K; assumption.
Qed.

End StorePruneFrees.

Section WorldMemory.

Context {Alpha : Type}.
Local Abbreviation Store := (gmap positive (Cell Alpha)).
Local Abbreviation LT := (LTree Alpha).

(** The addresses in use after nodes were freed. *)
Lemma dom_after_free (h h' : Store) (X Y : gset positive) :
  Y ⊆ X -> X ⊆ dom h -> Y ⊆ dom h' ->
  agree_off X h h' ->
  (forall l, l ∈ X -> l ∉ Y -> h' !! l = None) ->
  dom h' = dom h ∖ (X ∖ Y).
Proof.
  intros HYX HX HY Hag Hfree. apply set_eq. intros l.
  rewrite elem_of_difference, elem_of_difference.
  destruct (decide (l ∈ X)) as [Hin|Hout].
  - destruct (decide (l ∈ Y)) as [HinY|HoutY].
    + split; [intros _|intros _; apply HY, HinY].
      split; [apply HX, Hin | tauto].
    + split.
      * intros Hd. apply elem_of_dom in Hd. rewrite (Hfree l Hin HoutY) in Hd.
        destruct Hd as [? Hd]. discriminate.
      * tauto.
  - rewrite !elem_of_dom, (Hag l Hout). tauto.
Qed.

End WorldMemory.

(** X16. [Clear] on an object that owns its tree succeeds, frees exactly the
    nodes of the tree, leaves every other node and every other object as it
    was, and resets the object to the null root with width and height 0.
    Clearing again then changes nothing, and [Render] on the cleared object
    gives an empty buffer at every scale. *)
Theorem Clear_frees_the_tree {Alpha : Type} (defaultPixel : RGBAPixel Alpha)
        (wd : World Alpha) (this : positive) (w h : Z) (t : LTree Alpha)
        (fuel : nat) :
  owns wd this w h t -> (ldepth t < fuel)%nat ->
  exists wd1,
    ClearW fuel this wd = Some wd1 /\
    trees wd1 = <[this := mkQTreeObj None 0 0]> (trees wd) /\
    dom (nodes wd1) = dom (nodes wd) ∖ locs t /\
    (forall l, l ∉ locs t -> nodes wd1 !! l = nodes wd !! l) /\
    ClearW fuel this wd1 = Some wd1 /\
    forall scale,
    exists img,
      RenderW defaultPixel fuel this scale wd1 = Some img /\
      png_width img = 0 /\ png_height img = 0.
Proof.
  intros (Ht & Hh & Hs) Hd. unfold ClearW at 1. rewrite Ht.
  cbn [mbind option_bind rootH].
  destruct (ClearNodeH_spec fuel (nodes wd) t Hh Hs Hd) as (h' & -> & Hag & Hn).
  cbn [mbind option_bind].
  eexists. split; [reflexivity|]. cbn [trees nodes].
  split; [reflexivity|]. split; [|split; [exact Hag|split]].
  - rewrite (dom_after_free (nodes wd) h' (locs t) ∅).
    + f_equal. set_solver.
    + set_solver.
    + apply holds_dom, Hh.
    + set_solver.
    + exact Hag.
    + intros l Hin _. apply Hn, Hin.
  - unfold ClearW. cbn [trees nodes]. rewrite lookup_insert_eq.
    cbn [mbind option_bind rootH].
    destruct fuel as [|fuel']; [lia|]. cbn [ClearNodeH mbind option_bind].
    rewrite insert_insert_eq. reflexivity.
  - intros scale. unfold RenderW. cbn [trees nodes].
    rewrite lookup_insert_eq. cbn [mbind option_bind rootH widthH heightH].
    destruct fuel as [|fuel']; [lia|]. cbn [RenderNodeH].
    eexists. split; [reflexivity|]. split; reflexivity.
Qed.

Lemma Clear_frees_the_tree_witness :
  owns world2x2 1 2 2 ltree2x2 /\ (ldepth ltree2x2 < 3)%nat /\
  exists wd1,
    ClearW 3 1 world2x2 = Some wd1 /\
    trees wd1 = <[1%positive := mkQTreeObj None 0 0]> (trees world2x2) /\
    dom (nodes wd1) = dom (nodes world2x2) ∖ locs ltree2x2 /\
    (forall l, l ∉ locs ltree2x2 -> nodes wd1 !! l = nodes world2x2 !! l) /\
    ClearW 3 1 wd1 = Some wd1 /\
    forall scale,
    exists img,
      RenderW white 3 1 scale wd1 = Some img /\
      png_width img = 0 /\ png_height img = 0.
Proof.
  assert (H1 : owns world2x2 1 2 2 ltree2x2) by exact world2x2_owns.
  assert (H2 : (ldepth ltree2x2 < 3)%nat) by (cbn; lia).
  split; [exact H1|]. split; [exact H2|].
  exact (Clear_frees_the_tree white world2x2 1 2 2 ltree2x2 3 H1 H2).
Defined.

(** X17. [Prune] on an object that owns its tree succeeds and does in the
    store what [Prune] does on the tree: the object then owns the pruned
    tree, at addresses of the old one; every node that was pruned away is
    freed, no other node and no object changes, and [Render] on the object
    gives the rendering of the pruned tree at every scale. *)
Theorem Prune_frees_what_it_removes {Alpha Dist : Type}
        (defaultPixel : RGBAPixel Alpha)
        (distanceTo : RGBAPixel Alpha -> RGBAPixel Alpha -> Dist)
        (leD : Dist -> Dist -> bool)
        (wd : World Alpha) (this : positive) (w h : Z) (t : LTree Alpha)
        (fuel : nat) (tolerance : Dist) :
  owns wd this w h t -> (S (ldepth t) < fuel)%nat ->
  exists wd2 t',
    PruneW distanceTo leD fuel this tolerance wd = Some wd2 /\
    owns wd2 this w h t' /\
    mkQTree (erase t') w h =
    Prune distanceTo leD (mkQTree (erase t) w h) tolerance /\
    trees wd2 = trees wd /\
    locs t' ⊆ locs t /\
    dom (nodes wd2) = dom (nodes wd) ∖ (locs t ∖ locs t') /\
    (forall l, l ∉ locs t -> nodes wd2 !! l = nodes wd !! l) /\
    forall scale,
      RenderW defaultPixel fuel this scale wd2 =
      Some (Render defaultPixel
                   (Prune distanceTo leD (mkQTree (erase t) w h) tolerance)
                   scale).
Proof.
  intros (Ht & Hh & Hs) Hd. unfold PruneW. rewrite Ht.
  cbn [mbind option_bind rootH].
  destruct (PruneNodeH_frees distanceTo leD fuel (nodes wd) t tolerance Hh Hs Hd)
    as (h' & t' & -> & Hh' & Hs' & Hr & He & Hl & Hdp & Hag & Hfree).
  cbn [mbind option_bind].
  assert (Ho : owns (mkWorld h' (trees wd)) this w h t').
  { split; [|split; assumption]. cbn [trees]. rewrite Hr. exact Ht. }
  assert (EP : mkQTree (erase t') w h =
               Prune distanceTo leD (mkQTree (erase t) w h) tolerance).
  { unfold Prune. cbn [root width height]. rewrite He. reflexivity. }
  eexists. exists t'. split; [reflexivity|]. split; [exact Ho|].
  split; [exact EP|]. cbn [trees nodes]. split; [reflexivity|].
  split; [exact Hl|]. split; [|split; [exact Hag|]].
  - apply dom_after_free; try assumption; apply holds_dom; assumption.
  - intros scale. rewrite <- EP.
    apply (RenderW_owns defaultPixel fuel _ this w h t' scale Ho). lia.
Qed.

Lemma Prune_frees_what_it_removes_witness :
  owns world2x2 1 2 2 ltree2x2 /\ (S (ldepth ltree2x2) < 4)%nat /\
  exists wd2 t',
    PruneW manhattan Z.leb 4 1 100 world2x2 = Some wd2 /\
    owns wd2 1 2 2 t' /\
    mkQTree (erase t') 2 2 =
    Prune manhattan Z.leb (mkQTree (erase ltree2x2) 2 2) 100.
Proof.
  assert (H1 : owns world2x2 1 2 2 ltree2x2) by exact world2x2_owns.
  assert (H2 : (S (ldepth ltree2x2) < 4)%nat) by (cbn; lia).
  split; [exact H1|]. split; [exact H2|].
  destruct (Prune_frees_what_it_removes white manhattan Z.leb world2x2 1 2 2
              ltree2x2 4 100 H1 H2) as (wd2 & t' & E & Ho & EP & _).
  exists wd2, t'. auto.
Defined.

(** X18. [Copy] from an object that owns its tree succeeds and allocates a
    tree of its own for the target: the new nodes are at addresses that were
    not in use, every node that existed and every other object stays as it
    was, the new tree equals the source tree up to the addresses, and
    [Render] on the target gives what [Render] on the source gives, at every
    scale. *)
Theorem Copy_allocates_fresh_nodes {Alpha : Type}
        (defaultPixel : RGBAPixel Alpha)
        (wd : World Alpha) (this other : positive) (w h : Z) (t : LTree Alpha)
        (fuel : nat) :
  owns wd other w h t -> (ldepth t < fuel)%nat ->
  exists wd1 t',
    CopyW fuel this other wd = Some wd1 /\
    owns wd1 this w h t' /\ erase t' = erase t /\
    locs t' ## dom (nodes wd) /\
    dom (nodes wd1) = dom (nodes wd) ∪ locs t' /\
    (forall l, l ∈ dom (nodes wd) -> nodes wd1 !! l = nodes wd !! l) /\
    (forall o, o <> this -> trees wd1 !! o = trees wd !! o) /\
    forall scale,
      RenderW defaultPixel fuel this scale wd1 =
      RenderW defaultPixel fuel other scale wd.
Proof.
  intros Ho Hd. pose proof Ho as (Ht & Hh & Hs). unfold CopyW. rewrite Ht.
  cbn [mbind option_bind rootH widthH heightH].
  destruct (CopyNodeH_spec fuel (nodes wd) t Hh Hd)
    as (h' & t' & -> & E & G & Hh' & Hs' & Hfresh & Hdom & Hag).
  cbn [mbind option_bind].
  assert (Ho' : owns (mkWorld h' (<[this := mkQTreeObj (lroot t') w h]> (trees wd)))
                     this w h t').
  { split; [|split; assumption]. cbn [trees]. apply lookup_insert_eq. }
  eexists. exists t'. split; [reflexivity|]. split; [exact Ho'|].
  split; [exact E|]. cbn [nodes trees]. split; [exact Hfresh|].
  split; [exact Hdom|]. split; [exact Hag|]. split.
  - intros o Hne. apply lookup_insert_ne. congruence.
  - intros scale.
    rewrite (RenderW_owns defaultPixel fuel _ this w h t' scale Ho') by lia.
    rewrite (RenderW_owns defaultPixel fuel wd other w h t scale Ho) by lia.
    rewrite E. reflexivity.
Qed.

Lemma Copy_allocates_fresh_nodes_witness :
  owns world2x2 1 2 2 ltree2x2 /\ (ldepth ltree2x2 < 3)%nat /\
  exists wd1 t',
    CopyW 3 2 1 world2x2 = Some wd1 /\
    owns wd1 2 2 2 t' /\ erase t' = erase ltree2x2.
Proof.
  assert (H1 : owns world2x2 1 2 2 ltree2x2) by exact world2x2_owns.
  assert (H2 : (ldepth ltree2x2 < 3)%nat) by (cbn; lia).
  split; [exact H1|]. split; [exact H2|].
  destruct (Copy_allocates_fresh_nodes white world2x2 2 1 2 2 ltree2x2 3 H1 H2)
    as (wd1 & t' & E & Ho & Er & _).
  exists wd1, t'. auto.
Defined.

(** X19. Assigning the object [rhs] to another object [this], each owning its
    own tree, succeeds; it frees the tree [this] owned and allocates a copy
    of the tree of [rhs], so that the addresses in use afterwards are those
    before, without the old tree of [this], with the new one; [rhs] keeps
    its tree.  Assigning an object to itself changes nothing. *)
Theorem assignment_frees_the_old_tree {Alpha : Type}
        (wd : World Alpha) (this rhs : positive) (w h : Z) (t : LTree Alpha)
        (w' h' : Z) (tc : LTree Alpha) (fuel : nat) :
  owns wd rhs w h t -> owns wd this w' h' tc ->
  this <> rhs -> locs tc ## locs t ->
  (ldepth t < fuel)%nat -> (ldepth tc < fuel)%nat ->
  (exists wd1 t',
      assignW fuel this rhs wd = Some wd1 /\
      owns wd1 this w h t' /\ owns wd1 rhs w h t /\ erase t' = erase t /\
      locs t' ## dom (nodes wd) ∖ locs tc /\
      dom (nodes wd1) = (dom (nodes wd) ∖ locs tc) ∪ locs t') /\
  assignW fuel rhs rhs wd = Some wd.
Proof.
  intros Ho Hc Hne Hdis Hd Hdc. split.
  - unfold assignW. rewrite decide_False by exact Hne.
    pose proof Hc as (Htc & Hhc & Hsc).
    unfold ClearW. rewrite Htc. cbn [mbind option_bind rootH].
    destruct (ClearNodeH_spec fuel (nodes wd) tc Hhc Hsc Hdc)
      as (h0 & -> & Hag0 & Hn0).
    cbn [mbind option_bind].
    set (wd0 := mkWorld h0 (<[this := mkQTreeObj None 0 0]> (trees wd))).
    assert (Ho0 : owns wd0 rhs w h t).
    { apply (owns_frame wd); [exact Ho | |].
      - cbn [wd0 trees]. apply lookup_insert_ne. congruence.
      - intros l Hin. cbn [wd0 nodes]. apply Hag0. set_solver. }
    assert (Hd0 : dom h0 = dom (nodes wd) ∖ locs tc).
    { rewrite (dom_after_free (nodes wd) h0 (locs tc) ∅).
      - f_equal. set_solver.
      - set_solver.
      - apply holds_dom, Hhc.
      - set_solver.
      - exact Hag0.
      - intros l Hin _. apply Hn0, Hin. }
    pose proof Ho0 as (Ht0 & Hh0 & Hs0).
    unfold CopyW. rewrite Ht0.
    cbn [mbind option_bind rootH widthH heightH].
    destruct (CopyNodeH_spec fuel (nodes wd0) t Hh0 Hd)
      as (h1 & t' & -> & Er & G & Hh1 & Hs1 & Hfresh & Hdom & Hag).
    cbn [mbind option_bind]. cbn [wd0 nodes trees] in *.
    pose proof (holds_dom _ _ Hh0) as Hsub.
    eexists. exists t'. split; [reflexivity|].
    split; [|split; [|split; [exact Er|]]].
    + split; [|split; assumption]. cbn [trees]. apply lookup_insert_eq.
    + apply (owns_frame wd0); [exact Ho0 | |].
      * cbn [trees wd0]. apply lookup_insert_ne. congruence.
      * intros l Hin. cbn [nodes wd0]. apply Hag, Hsub, Hin.
    + cbn [nodes]. rewrite <- Hd0. split; [exact Hfresh | exact Hdom].
  - unfold assignW. rewrite decide_True by reflexivity. reflexivity.
Qed.

Lemma worldTwo_owns :
  owns worldTwo 1 2 2 ltree2x2 /\ owns worldTwo 2 1 1 ltreeOne.
Proof.
  split.
  - apply (owns_frame world2x2); [exact world2x2_owns | reflexivity |].
    intros l Hin. cbn [worldTwo nodes]. apply lookup_insert_ne.
    cbn [ltree2x2 locs] in Hin. set_solver.
  - split; [reflexivity|]. split.
    + cbn [holds ltreeOne worldTwo nodes lroot]. repeat split; reflexivity.
    + cbn [separate ltreeOne locs]. repeat split; set_solver.
Qed.

Lemma assignment_frees_the_old_tree_witness :
  owns worldTwo 1 2 2 ltree2x2 /\ owns worldTwo 2 1 1 ltreeOne /\
  2%positive <> 1%positive /\ locs ltreeOne ## locs ltree2x2 /\
  (ldepth ltree2x2 < 3)%nat /\ (ldepth ltreeOne < 3)%nat /\
  (exists wd1 t',
      assignW 3 2 1 worldTwo = Some wd1 /\
      owns wd1 2 2 2 t' /\ owns wd1 1 2 2 ltree2x2 /\
      erase t' = erase ltree2x2 /\
      locs t' ## dom (nodes worldTwo) ∖ locs ltreeOne /\
      dom (nodes wd1) = (dom (nodes worldTwo) ∖ locs ltreeOne) ∪ locs t') /\
  assignW 3 1 1 worldTwo = Some worldTwo.
Proof.
  assert (H1 : owns worldTwo 1 2 2 ltree2x2) by exact (proj1 worldTwo_owns).
  assert (H2 : owns worldTwo 2 1 1 ltreeOne) by exact (proj2 worldTwo_owns).
  assert (H3 : 2%positive <> 1%positive) by discriminate.
  assert (H4 : locs ltreeOne ## locs ltree2x2)
    by (cbn [ltreeOne ltree2x2 locs]; set_solver).
  assert (H5 : (ldepth ltree2x2 < 3)%nat) by (cbn; lia).
  assert (H6 : (ldepth ltreeOne < 3)%nat) by (cbn; lia).
  split; [exact H1|]. split; [exact H2|]. split; [exact H3|].
  split; [exact H4|]. split; [exact H5|]. split; [exact H6|].
  exact (assignment_frees_the_old_tree worldTwo 2 1 2 2 ltree2x2 1 1
                                       ltreeOne 3 H1 H2 H3 H4 H5 H6).
Defined.

(** ** Images of one colour *)

Section BuildExt.

Context {Alpha : Type}.
Variable defaultPixel : RGBAPixel Alpha.
Local Abbreviation Tree := (Node Alpha).

(** The tree built for a rectangle depends on the pixels of the rectangle
    alone. *)
Lemma Built_ext img img' ul lr (t : Tree) :
  Built defaultPixel img ul lr t ->
  (forall x y, ul.1 <= x <= lr.1 -> ul.2 <= y <= lr.2 ->
               getPixel img' x y = getPixel img x y) ->
  Built defaultPixel img' ul lr t.
Proof.
  induction 1 as [x0 y0 Hxy | x0 y0 x1 y1 nw ne sw se Hok Hneq midX midY
                          Bnw IHnw Bne IHne Nne Bsw IHsw Nsw Bse IHse Nse];
    intros Hext; cbn [fst snd] in Hext.
  - rewrite <- (Hext x0 y0) by lia. constructor. assumption.
  - pose proof Hok as Hok'. unfold region_ok in Hok'. cbn [fst snd] in Hok'.
    subst midX midY.
    assert (HmX : x0 <= (x0 + x1) / 2 <= x1)
      by (Z.div_mod_to_equations; lia).
    assert (HmY : y0 <= (y0 + y1) / 2 <= y1)
      by (Z.div_mod_to_equations; lia).
    apply Built_split; try assumption.
    + apply IHnw. cbn [fst snd]. intros x y Hx Hy. apply Hext; lia.
    + intros Hlt. apply IHne; [exact Hlt|]. cbn [fst snd].
      intros x y Hx Hy. apply Hext; lia.
    + intros Hlt. apply IHsw; [exact Hlt|]. cbn [fst snd].
      intros x y Hx Hy. apply Hext; lia.
    + intros Hlx Hly. apply IHse; [exact Hlx | exact Hly |]. cbn [fst snd].
      intros x y Hx Hy. apply Hext; lia.
Qed.

End BuildExt.

Section UniformImage.

Context {Alpha : Type}.
Variable defaultPixel : RGBAPixel Alpha.
Context {Dist : Type}.
Variable distanceTo : RGBAPixel Alpha -> RGBAPixel Alpha -> Dist.
Variable leD : Dist -> Dist -> bool.
Variable tolerance : Dist.
Local Abbreviation Pixel := (RGBAPixel Alpha).
Local Abbreviation Tree := (Node Alpha).

Variable img : PNG Alpha.
Variable c : Pixel.
Hypothesis c_ok : pixel_ok c.
Hypothesis img_uniform : forall x y, getPixel img x y = c.

(** The colour with the alpha of a default pixel. *)
Local Abbreviation c' := (mkRGBAPixel (r c) (g c) (b c) (a defaultPixel)).

Hypothesis c_near : leD (distanceTo c c') tolerance = true.
Hypothesis c'_near : leD (distanceTo c' c') tolerance = true.

Lemma Built_uniform_avg ul lr (t : Tree) :
  Built defaultPixel img ul lr t -> 255 * area t < 2 ^ 32 ->
  avgOf defaultPixel t = if IsLeaf t then c else c'.
Proof.
  intros B Hb.
  destruct (Built_uniform defaultPixel img c ul lr t c_ok img_uniform B Hb)
    as (Er & Eg & Eb).
  pose proof (Built_alpha defaultPixel img ul lr t B) as Ha.
  destruct B as [x0 y0 Hxy | x0 y0 x1 y1 nw ne sw se Hok Hneq midX midY Bnw].
  - cbn. apply img_uniform.
  - cbn [ForallInternal] in Ha. destruct Ha as [Ha _].
    destruct (Built_shape _ _ _ _ _ Bnw) as (p & n1 & n2 & n3 & n4 & ->).
    cbn [IsLeaf avgOf] in *. specialize (Ha eq_refl).
    destruct (CalculateAverageColor defaultPixel _ ne sw se) as [pr pg pb pa].
    cbn [r g b a] in *. congruence.
Qed.

Lemma leaf_near (p : Pixel) (leaf : bool) :
  p = (if leaf then c else c') -> leD (distanceTo p c') tolerance = true.
Proof. intros ->. destruct leaf; assumption. Qed.

(** Pruning collapses the tree built for a rectangle of one colour. *)
Lemma Built_uniform_prune ul lr (t : Tree) :
  Built defaultPixel img ul lr t -> 255 * area t < 2 ^ 32 ->
  PruneNode distanceTo leD t tolerance =
  mkNode ul lr (avgOf defaultPixel t) nullptr nullptr nullptr nullptr.
Proof.
  intros B. pose proof B as B0. revert B0.
  induction B as [x0 y0 Hxy | x0 y0 x1 y1 nw ne sw se Hok Hneq midX midY
                          Bnw IHnw Bne IHne Nne Bsw IHsw Nsw Bse IHse Nse];
    intros B0 Hb; [reflexivity|].
  pose proof (Built_uniform_avg _ _ _ B0 Hb) as Eavg.
  rewrite (Built_IsLeaf _ _ _ _ _ B0) in Eavg.
  replace (pair_eqb (x0, y0) (x1, y1)) with false in Eavg
    by (symmetry; apply pair_eqb_neq; assumption).
  cbn [avgOf] in Eavg |- *. cbn [PruneNode].
  rewrite (Built_IsLeaf _ _ _ _ _ B0).
  replace (pair_eqb (x0, y0) (x1, y1)) with false
    by (symmetry; apply pair_eqb_neq; assumption).
  cbn [area fst snd] in Hb.
  assert (Hch : forall u l (ch : Tree),
             Built defaultPixel img u l ch ->
             (Built defaultPixel img u l ch -> 255 * area ch < 2 ^ 32 ->
              PruneNode distanceTo leD ch tolerance =
              mkNode u l (avgOf defaultPixel ch) nullptr nullptr nullptr nullptr) ->
             area ch <= (x1 - x0 + 1) * (y1 - y0 + 1) ->
             CanPrune distanceTo leD (PruneNode distanceTo leD ch tolerance)
                      c' tolerance = true /\
             PruneNode distanceTo leD ch tolerance <> nullptr).
  { intros u l ch Bc IH Ha.
    rewrite IH by (assumption || lia). split; [|discriminate].
    cbn [CanPrune IsLeaf].
    apply (leaf_near _ (IsLeaf ch)), (Built_uniform_avg u l); [assumption|lia]. }
  rewrite Eavg.
  midpoints.
  built_children;
    repeat match goal with
           | Bc : Built _ _ _ _ ?ch,
             IH : Built _ _ _ _ ?ch -> _ -> PruneNode _ _ ?ch _ = _ |- _ =>
               let K := fresh "K" in
               let N := fresh "N" in
               destruct (Hch _ _ ch Bc IH) as [K N];
               [ rewrite (Built_area _ _ _ _ _ Bc); cbn [fst snd]; nia
               | clear IH ]
           end;
    cbn [PruneNode CanPrune];
    destruct (PruneNode distanceTo leD nw tolerance) eqn:E1;
    try congruence; cbn [IsLeaf];
    rewrite ?K, ?K0, ?K1, ?K2; reflexivity.
Qed.

End UniformImage.

(** X20. Take an image of one colour [c] with byte channels and fewer than
    [2^32 / 255] pixels, and a tolerance that accepts the distance from [c],
    and from [c] with the alpha of a default pixel, to the latter.  Then
    [Prune] collapses the freshly built tree to a single leaf that spans the
    image; the leaf stores [c] for an image of one pixel and otherwise the
    channels of [c] with the alpha of a default pixel. *)
Theorem Prune_collapses_uniform_image {Alpha Dist : Type}
        (defaultPixel : RGBAPixel Alpha)
        (distanceTo : RGBAPixel Alpha -> RGBAPixel Alpha -> Dist)
        (leD : Dist -> Dist -> bool) (img : PNG Alpha) (fuel : nat)
        (c : RGBAPixel Alpha) (tolerance : Dist) :
  image_ok img ->
  (Z.to_nat (png_width img + png_height img) <= fuel)%nat ->
  pixel_ok c ->
  (forall x y, 0 <= x < png_width img -> 0 <= y < png_height img ->
               getPixel img x y = c) ->
  255 * (png_width img * png_height img) < 2 ^ 32 ->
  leD (distanceTo c (mkRGBAPixel (r c) (g c) (b c) (a defaultPixel)))
      tolerance = true ->
  leD (distanceTo (mkRGBAPixel (r c) (g c) (b c) (a defaultPixel))
                  (mkRGBAPixel (r c) (g c) (b c) (a defaultPixel)))
      tolerance = true ->
  exists t,
    QTree_of_PNG defaultPixel fuel img = Some t /\
    root (Prune distanceTo leD t tolerance) =
    mkNode (0, 0) (png_width img - 1, png_height img - 1)
           (if pair_eqb (0, 0) (png_width img - 1, png_height img - 1)
            then c
            else mkRGBAPixel (r c) (g c) (b c) (a defaultPixel))
           nullptr nullptr nullptr nullptr.
Proof.
  intros Himg Hfuel Hc Huni Hsmall Hn1 Hn2.
  destruct (QTree_of_PNG_Built defaultPixel img fuel Himg Hfuel)
    as (t & Ht & Hw & Hh & B).
  exists t. split; [exact Ht|].
  set (img' := mkPNG (png_width img) (png_height img) (fun _ _ => c)).
  assert (B' : Built defaultPixel img' (0, 0)
                     (png_width img - 1, png_height img - 1) (root t)).
  { apply (Built_ext defaultPixel img); [exact B|].
    cbn [fst snd]. intros x y Hx Hy. symmetry. apply Huni; lia. }
  assert (Hu : forall x y, getPixel img' x y = c) by reflexivity.
  assert (Ha : 255 * area (root t) < 2 ^ 32).
  { rewrite (Built_area _ _ _ _ _ B). cbn [fst snd].
    replace ((png_width img - 1 - 0 + 1) * (png_height img - 1 - 0 + 1))
      with (png_width img * png_height img) by ring.
    exact Hsmall. }
  unfold Prune. cbn [root].
  rewrite (Built_uniform_prune defaultPixel distanceTo leD tolerance img' c
             Hc Hu Hn1 Hn2 _ _ _ B' Ha).
  rewrite (Built_uniform_avg defaultPixel img' c Hc Hu _ _ _ B' Ha).
  rewrite (Built_IsLeaf _ _ _ _ _ B). reflexivity.
Qed.

Lemma Prune_collapses_uniform_image_witness :
  image_ok (whiteImage 3 2) /\
  (Z.to_nat (png_width (whiteImage 3 2) + png_height (whiteImage 3 2)) <= 5)%nat /\
  pixel_ok white /\
  (forall x y, 0 <= x < png_width (whiteImage 3 2) ->
               0 <= y < png_height (whiteImage 3 2) ->
               getPixel (whiteImage 3 2) x y = white) /\
  255 * (png_width (whiteImage 3 2) * png_height (whiteImage 3 2)) < 2 ^ 32 /\
  Z.leb (manhattan white (mkRGBAPixel (r white) (g white) (b white) (a white)))
        0 = true /\
  exists t,
    QTree_of_PNG white 5 (whiteImage 3 2) = Some t /\
    root (Prune manhattan Z.leb t 0) =
    mkNode (0, 0) (2, 1) white nullptr nullptr nullptr nullptr.
Proof.
  assert (H1 : image_ok (whiteImage 3 2)) by (unfold image_ok; cbn; lia).
  assert (H2 : (Z.to_nat (png_width (whiteImage 3 2) +
                          png_height (whiteImage 3 2)) <= 5)%nat) by (cbn; lia).
  assert (H3 : pixel_ok white) by (unfold pixel_ok; cbn; lia).
  assert (H4 : forall x y, 0 <= x < png_width (whiteImage 3 2) ->
                           0 <= y < png_height (whiteImage 3 2) ->
                           getPixel (whiteImage 3 2) x y = white)
    by (intros; reflexivity).
  assert (H5 : 255 * (png_width (whiteImage 3 2) *
                      png_height (whiteImage 3 2)) < 2 ^ 32) by (cbn; lia).
  assert (H6 : Z.leb (manhattan white
                        (mkRGBAPixel (r white) (g white) (b white) (a white)))
                     0 = true) by reflexivity.
  split; [exact H1|]. split; [exact H2|]. split; [exact H3|].
  split; [exact H4|]. split; [exact H5|]. split; [exact H6|].
  exact (Prune_collapses_uniform_image white manhattan Z.leb (whiteImage 3 2) 5
                                       white 0 H1 H2 H3 H4 H5 H6 H6).
Defined.
